(** * A packed memory array: the ordered store of OrderedVector

  Shallow embedding of the sparse ordered array of the repository
  (src/packed_memory_array.h, src/OrderedVector.h and their two sibling
  revisions) and the properties of its search, local insertion, density
  scan and redistribution.

  Conventions of the embedding.
  - [items] is a [list (option T)]: slot [i] is [Some v] when occupied and
    [None] when empty; the capacity is the length of the list.
  - C++ [int] values are integers of [Z]; every such value the code computes
    is between [-1] and twice the capacity, so no wrap-around is reached
    while the capacity fits an [int].
  - Every function that indexes the vector returns an [option]: [None] is
    an access outside [0, capacity), [value()] of an empty slot, a division
    by zero, or a loop that never returns.
  - [float] arithmetic is an interface ([FloatOps]) with two instances:
    [binary32], the IEEE single precision of the machine, and [exactQ],
    rational arithmetic without rounding. *)

From Stdlib Require Import ZArith QArith Qround Lia Bool.
From Stdlib Require Import Floats.SpecFloat.
From Stdlib Require Import Sorting.Sorted.
From stdpp Require Import base option list.
From Stdlib Require String Ascii.

#[local] Open Scope Z_scope.

(** ** Floating point *)

(** The operations the source applies to [float] values. *)
Class FloatOps := {
F : Type;
of_int : Z -> F;                 (* (float)n *)
of_ratio : Z -> positive -> F;   (* a decimal literal such as 0.25f *)
fadd : F -> F -> F;
fsub : F -> F -> F;
fmul : F -> F -> F;
fdiv : F -> F -> F;
fle : F -> F -> bool;
flt : F -> F -> bool;
fround : F -> option Z           (* (int)std::round(x) *)
}.

Module Binary32.
Definition prec : Z := 24.
Definition emax : Z := 128.

Definition of_int (n : Z) : spec_float := binary_normalize prec emax n 0 false.

(** Literals with a power of two as denominator (0.5f, 0.25f, 0.75f). *)
Definition of_ratio (n : Z) (d : positive) : spec_float :=
  SFdiv prec emax (of_int n) (of_int (Z.pos d)).

(** [std::round] rounds halfway cases away from zero; the conversion to
    [int] is undefined for infinities and NaN. *)
Definition fround (x : spec_float) : option Z :=
  match x with
  | S754_zero _ => Some 0
  | S754_finite s m e =>
      let a := if 0 <=? e then Z.pos m * 2 ^ e
               else (Z.pos m + 2 ^ (- e - 1)) / 2 ^ (- e) in
      Some (if s then - a else a)
  | S754_infinity _ | S754_nan => None
  end.
End Binary32.

#[export] Instance binary32 : FloatOps := {|
F := spec_float;
of_int := Binary32.of_int;
of_ratio := Binary32.of_ratio;
fadd := SFadd Binary32.prec Binary32.emax;
fsub := SFsub Binary32.prec Binary32.emax;
fmul := SFmul Binary32.prec Binary32.emax;
fdiv := SFdiv Binary32.prec Binary32.emax;
fle := SFleb;
flt := SFltb;
fround := Binary32.fround
|}.

Module ExactQ.
(** Round half away from zero. *)
Definition fround (x : Q) : option Z :=
  Some (if Qle_bool 0 x then Qfloor (x + (1 # 2))
        else - Qfloor (- x + (1 # 2))).

Definition flt (x y : Q) : bool := negb (Qle_bool y x).
End ExactQ.

Definition exactQ : FloatOps := {|
F := Q;
of_int := inject_Z;
of_ratio := Qmake;
fadd := Qplus;
fsub := Qminus;
fmul := Qmult;
fdiv := Qdiv;
fle := Qle_bool;
flt := ExactQ.flt;
fround := ExactQ.fround
|}.

(** ** The backing array *)

Notation "x <- m ;; k" := (match m with Some x => k | None => None end)
(at level 100, m at next level, right associativity, only parsing).

Section Vector.
Context {T : Type}.

(** [std::vector<std::optional<T>> items]. *)
Definition size (items : list (option T)) : Z := Z.of_nat (length items).

(** [items[i]]: defined for [0 <= i < items.size()] only. *)
Definition at_ (items : list (option T)) (i : Z) : option (option T) :=
  if 0 <=? i then items !! Z.to_nat i else None.

(** [items[i].value()]. *)
Definition value (items : list (option T)) (i : Z) : option T :=
  match at_ items i with Some (Some v) => Some v | _ => None end.

(** [items[i] = v]. *)
Definition assign (items : list (option T)) (i : Z) (v : option T)
  : option (list (option T)) :=
  if (0 <=? i) && (i <? size items) then Some (<[Z.to_nat i := v]> items)
  else None.

(** [std::swap(items[i], items[j])]. *)
Definition swap (items : list (option T)) (i j : Z) : option (list (option T)) :=
  a <- at_ items i ;; b <- at_ items j ;;
  items' <- assign items i b ;; assign items' j a.

(** [i < items.size()] for an [int i]: the comparison is made in [size_t],
    where a negative [i] is above every size. *)
Definition lt_size (i : Z) (items : list (option T)) : bool :=
  (0 <=? i) && (i <? size items).

(** [items.resize(n)]: truncates, or appends empty slots. *)
Definition resize (items : list (option T)) (n : Z) : list (option T) :=
  take (Z.to_nat n) items ++ replicate (Z.to_nat n - length items) None.

Definition occupied (o : option T) : bool :=
  match o with Some _ => true | None => false end.

(** The occupied values, left to right. *)
Definition values (items : list (option T)) : list T := omap id items.
End Vector.

(** ** src/packed_memory_array.h

  [index_of], [successor], [remove], [scan], [rearrange_items],
  [get_items], [tree_height], [count_items] and [get_thresholds] have the
  same text in src/unnamed/part_000 (class [OrderedVector], parameter
  [leaf_size]) and in src/unnamed/part_001 (comparisons through the
  [operator<] family on optionals, which unwraps both sides). *)

Module packed_memory_array.
Section Class.
Context {T : Type} (less : T -> T -> bool) (chunk_size : Z) {FO : FloatOps}.

Definition greater (a b : T) : bool := less b a.
Definition equal (a b : T) : bool := negb (less a b) && negb (greater a b).
Definition less_equal (a b : T) : bool := less a b || negb (greater a b).

(** [std::log2(items.size() / chunk_size)] converted to [int]. *)
Definition tree_height (items : list (option T)) : option Z :=
  if chunk_size =? 0 then None
  else let q := size items / chunk_size in
       if q <=? 0 then None else Some (Z.log2 q).

(** [std::count_if] over [items.begin() + begin, items.begin() + end). *)
Definition count_items (items : list (option T)) (begin end_ : Z) : option Z :=
  if (0 <=? begin) && (begin <=? end_) && (end_ <=? size items)
  then Some (Z.of_nat (length (filter (fun o => occupied o = true)
               (take (Z.to_nat (end_ - begin)) (drop (Z.to_nat begin) items)))))
  else None.

Definition get_thresholds (items : list (option T)) (depth : Z) : option (F * F) :=
  h <- tree_height items ;;
  let r := fdiv (of_int depth) (of_int h) in
  Some (fsub (of_ratio 1 2) (fmul (of_ratio 1 4) r),
        fadd (of_ratio 3 4) (fmul (of_ratio 1 4) r)).

(** [for (; mid <= high && !items[mid]; ++mid);] *)
Fixpoint skip_right (fuel : nat) (items : list (option T)) (mid high : Z)
  : option Z :=
  if mid <=? high then
    match at_ items mid with
    | None => None
    | Some (Some _) => Some mid
    | Some None =>
        match fuel with
        | O => None
        | S fuel' => skip_right fuel' items (mid + 1) high
        end
    end
  else Some mid.

(** [for (; mid >= low && !items[mid]; --mid);] *)
Fixpoint skip_left (fuel : nat) (items : list (option T)) (mid low : Z)
  : option Z :=
  if low <=? mid then
    match at_ items mid with
    | None => None
    | Some (Some _) => Some mid
    | Some None =>
        match fuel with
        | O => None
        | S fuel' => skip_left fuel' items (mid - 1) low
        end
    end
  else Some mid.

(** The [while (low <= high)] loop of [index_of]. *)
Fixpoint index_of_loop (fuel : nat) (items : list (option T)) (t : T)
    (low high : Z) : option Z :=
  if low <=? high then
    match fuel with
    | O => None
    | S fuel' =>
        let mid0 := low + Z.quot (high - low) 2 in
        mid <- skip_right (length items) items mid0 high ;;
        step <- (if high <? mid then
                   mid' <- skip_left (length items) items mid0 low ;;
                   Some (if mid' <? low then inl low else inr mid')
                 else Some (inr mid)) ;;
        match step with
        | inl result => Some result
        | inr mid =>
            v <- value items mid ;;
            if less v t then index_of_loop fuel' items t (mid + 1) high
            else if greater v t then index_of_loop fuel' items t low (mid - 1)
            else Some mid
        end
    end
  else Some (if low =? size items then low - 1 else low).

Definition index_of (items : list (option T)) (t : T) : option Z :=
  index_of_loop (length items) items t 0 (size items - 1).

(** [for (; i < items.size() && (!items[i] || less_equal(items[i].value(), t)); ++i);] *)
Fixpoint successor_loop (fuel : nat) (items : list (option T)) (t : T) (i : Z)
  : option Z :=
  if lt_size i items then
    match at_ items i with
    | None => None
    | Some o =>
        if (match o with None => true | Some v => less_equal v t end) then
          match fuel with
          | O => None
          | S fuel' => successor_loop fuel' items t (i + 1)
          end
        else Some i
    end
  else Some i.

Definition successor (items : list (option T)) (t : T) : option T :=
  i0 <- index_of items t ;;
  i <- successor_loop (length items) items t i0 ;;
  if negb (lt_size i items) then Some t else value items i.

(** The loop of [get_items]: occupied slots of [i, i + n) are moved to the
    buffer and emptied. *)
Fixpoint get_items_loop (n : nat) (items : list (option T)) (i : Z)
    (buffer : list T) : option (list T * list (option T)) :=
  match n with
  | O => Some (buffer, items)
  | S n' =>
      o <- at_ items i ;;
      match o with
      | Some v =>
          items' <- assign items i None ;;
          get_items_loop n' items' (i + 1) (buffer ++ [v])
      | None => get_items_loop n' items (i + 1) buffer
      end
  end.

Definition get_items (items : list (option T)) (begin end_ : Z)
  : option (list T * list (option T)) :=
  get_items_loop (Z.to_nat (end_ - begin)) items begin [].

(** The loop of [rearrange_items]. *)
Fixpoint rearrange_loop (items : list (option T)) (begin : Z)
    (buffer : list T) (step pos : F) : option (list (option T)) :=
  match buffer with
  | [] => Some items
  | item :: rest =>
      r <- fround pos ;;
      items' <- assign items (begin + r) (Some item) ;;
      rearrange_loop items' begin rest step (fadd pos step)
  end.

Definition rearrange_items (items : list (option T)) (begin end_ : Z)
    (buffer : list T) : option (list (option T)) :=
  let k := end_ - begin in
  let n := Z.of_nat (length buffer) in
  let step := fdiv (of_int k) (of_int n) in
  rearrange_loop items begin buffer step (of_int 0).

Fixpoint scan_rec (fuel : nat) (items : list (option T))
    (begin end_ accum_count depth : Z) : option (list (option T)) :=
  let depth_block_size := end_ - begin in
  if depth_block_size =? 0 then None else
  let is_left := Z.rem (Z.quot begin depth_block_size) 2 =? 0 in
  let sibling_begin := if is_left then end_ else begin - depth_block_size in
  let sibling_end := sibling_begin + depth_block_size in
  sibling_count <- count_items items sibling_begin sibling_end ;;
  th <- get_thresholds items depth ;;
  let lower := fst th in
  let upper := snd th in
  let density := fdiv (of_int (accum_count + sibling_count))
                      (of_int (depth_block_size * 2)) in
  let parent_begin := if is_left then begin else sibling_begin in
  let parent_end := if is_left then sibling_end else end_ in
  if fle lower density && fle density upper then
    b <- get_items items parent_begin parent_end ;;
    rearrange_items (snd b) parent_begin parent_end (fst b)
  else if depth =? 0 then
    b <- get_items items 0 (size items) ;;
    let items1 := snd b in
    let items2 :=
      if flt upper density then resize items1 (size items1 * 2)
      else if flt density lower && (chunk_size * 2 <? size items1)
           then resize items1 (size items1 / 2)
           else items1 in
    match fst b with
    | [] => Some items2
    | _ :: _ => rearrange_items items2 0 (size items2) (fst b)
    end
  else
    match fuel with
    | O => None
    | S fuel' =>
        scan_rec fuel' items parent_begin parent_end
                 (accum_count + sibling_count) (depth - 1)
    end.

(** The recursion ends at depth 0 when [depth >= 0]; otherwise the window
    doubles until it leaves the array. *)
Definition scan (items : list (option T)) (begin end_ accum_count depth : Z)
  : option (list (option T)) :=
  scan_rec (Z.to_nat depth + length items) items begin end_ accum_count depth.

(** [for (; to > from; --to) std::swap(items[to], items[to - 1]);] *)
Fixpoint shift_right_loop (n : nat) (items : list (option T)) (to : Z)
  : option (list (option T)) :=
  match n with
  | O => Some items
  | S n' => items' <- swap items to (to - 1) ;; shift_right_loop n' items' (to - 1)
  end.

Definition shift_right (items : list (option T)) (from to : Z)
  : option (list (option T)) :=
  shift_right_loop (Z.to_nat (to - from)) items to.

(** [for (; till < from; ++till) std::swap(items[till], items[till + 1]);] *)
Fixpoint shift_left_loop (n : nat) (items : list (option T)) (till : Z)
  : option (list (option T)) :=
  match n with
  | O => Some items
  | S n' => items' <- swap items till (till + 1) ;; shift_left_loop n' items' (till + 1)
  end.

Definition shift_left (items : list (option T)) (from till : Z)
  : option (list (option T)) :=
  shift_left_loop (Z.to_nat (from - till)) items till.

(** [for (; i < items.size() && items[i]; ++i);] *)
Fixpoint run_right (fuel : nat) (items : list (option T)) (i : Z) : option Z :=
  if lt_size i items then
    match at_ items i with
    | None => None
    | Some None => Some i
    | Some (Some _) =>
        match fuel with
        | O => None
        | S fuel' => run_right fuel' items (i + 1)
        end
    end
  else Some i.

(** [for (; i >= 0 && items[i]; --i);] *)
Fixpoint run_left (fuel : nat) (items : list (option T)) (i : Z) : option Z :=
  if 0 <=? i then
    match at_ items i with
    | None => None
    | Some None => Some i
    | Some (Some _) =>
        match fuel with
        | O => None
        | S fuel' => run_left fuel' items (i - 1)
        end
    end
  else Some i.

(** Returns [(closest_gap, on_right)]. *)
Definition closest_gap (items : list (option T)) (index : Z) : option (Z * bool) :=
  closest_right <- run_right (length items) items (index + 1) ;;
  closest_left <- run_left (length items) items (index - 1) ;;
  if closest_left <? 0 then Some (closest_right, true)
  else if negb (lt_size closest_right items) then Some (closest_left, false)
  else
    let on_right := closest_right - index <=? index - closest_left in
    Some (if on_right then closest_right else closest_left, on_right).

Definition insert (items : list (option T)) (t : T) (i : Z)
  : option (list (option T)) :=
  o <- at_ items i ;;
  match o with
  | None => assign items i (Some t)
  | Some v =>
      right_free <- (if greater t v && lt_size (i + 1) items
                     then o' <- at_ items (i + 1) ;; Some (negb (occupied o'))
                     else Some false) ;;
      if right_free then assign items (i + 1) (Some t)
      else
        left_free <- (if less t v && (0 <=? i - 1)
                      then o' <- at_ items (i - 1) ;; Some (negb (occupied o'))
                      else Some false) ;;
        if left_free then assign items (i - 1) (Some t)
        else
          g <- closest_gap items i ;;
          let closest_gap_index := fst g in
          let on_right := snd g in
          let i' := if (on_right && greater t v) || (negb on_right && less t v)
                    then (if on_right then i + 1 else i - 1) else i in
          items' <- (if on_right then shift_right items i' closest_gap_index
                     else shift_left items i' closest_gap_index) ;;
          assign items' i' (Some t)
  end.

(** [push] up to its last line: the array and the index handed to
    [insert]. *)
Definition push_target (items : list (option T)) (t : T)
  : option (list (option T) * Z) :=
  i <- index_of items t ;;
  let block_begin := (i / chunk_size) * chunk_size in
  let block_end := block_begin + chunk_size in
  c <- count_items items block_begin block_end ;;
  let count := c + 1 in
  h <- tree_height items ;;
  th <- get_thresholds items h ;;
  let upper := snd th in
  let density := fdiv (of_int count) (of_int (block_end - block_begin)) in
  if flt upper density then
    items' <- scan items block_begin block_end count (h - 1) ;;
    i' <- index_of items' t ;;
    Some (items', i')
  else Some (items, i).

Definition push (items : list (option T)) (t : T) : option (list (option T)) :=
  p <- push_target items t ;;
  insert (fst p) t (snd p).

Definition remove (items : list (option T)) (t : T) : option (list (option T)) :=
  i <- index_of items t ;;
  o <- at_ items i ;;
  match o with
  | None => Some items
  | Some v =>
      if negb (equal v t) then Some items
      else
        items1 <- assign items i None ;;
        let block_begin := (i / chunk_size) * chunk_size in
        let block_end := block_begin + chunk_size in
        count <- count_items items1 block_begin block_end ;;
        h <- tree_height items1 ;;
        th <- get_thresholds items1 h ;;
        let lower := fst th in
        let density := fdiv (of_int count) (of_int (block_end - block_begin)) in
        if flt density lower
        then scan items1 block_begin block_end count (h - 1)
        else Some items1
  end.

(** The constructor: [chunk_size * 2] empty slots. *)
Definition empty_store : list (option T) := replicate (Z.to_nat (chunk_size * 2)) None.
End Class.
End packed_memory_array.

(** ** src/unnamed/part_001

  The later revision of [packed_memory_array]: [push] inlines the local
  insertion and finds the gap by a symmetric outward search. *)

Module part_001.
Section Class.
Context {T : Type} (less : T -> T -> bool) (chunk_size : Z) {FO : FloatOps}.

(** [for (int offset = 1; ; offset++)]: never returns on a full array. *)
Fixpoint get_closest_gap_loop (fuel : nat) (items : list (option T))
    (index offset : Z) : option Z :=
  match fuel with
  | O => None
  | S fuel' =>
      right_gap <- (if lt_size (index + offset) items
                    then o <- at_ items (index + offset) ;; Some (negb (occupied o))
                    else Some false) ;;
      if right_gap then Some (index + offset)
      else
        left_gap <- (if 0 <=? index - offset
                     then o <- at_ items (index - offset) ;; Some (negb (occupied o))
                     else Some false) ;;
        if left_gap then Some (index - offset)
        else get_closest_gap_loop fuel' items index (offset + 1)
  end.

Definition get_closest_gap (items : list (option T)) (index : Z) : option Z :=
  get_closest_gap_loop (length items) items index 1.

(** The local insertion at the end of [push]. *)
Definition place (items : list (option T)) (item : T) (i : Z)
  : option (list (option T)) :=
  o <- at_ items i ;;
  match o with
  | None => assign items i (Some item)
  | Some v =>
      closest_gap <- get_closest_gap items i ;;
      let is_on_right := i <? closest_gap in
      let i' := if is_on_right && less v item then i + 1
                else if negb is_on_right && less item v then i - 1
                else i in
      items' <- (if is_on_right
                 then packed_memory_array.shift_right items i' closest_gap
                 else packed_memory_array.shift_left items i' closest_gap) ;;
      assign items' i' (Some item)
  end.

(** The lines of [push] before the local insertion are those of
    src/packed_memory_array.h. *)
Definition push (items : list (option T)) (item : T) : option (list (option T)) :=
  p <- packed_memory_array.push_target less chunk_size items item ;;
  place (fst p) item (snd p).
End Class.
End part_001.

(** ** src/OrderedVector.h

  The class the command driver instantiates ([OrderedVector<int>]).
  [successor], [tree_height], [count_items] and [get_thresholds] have the
  text of [packed_memory_array]; [index_of] differs in its last comparison
  only ([>=] for [==]). *)

Module OrderedVector.
Section Class.
Context {T : Type} (less_than : T -> T -> bool) (block_size : Z) {FO : FloatOps}.

Definition bigger_than (a b : T) : bool := less_than b a.
Definition equal (a b : T) : bool := negb (less_than a b) && negb (bigger_than a b).
Definition less_than_equal (a b : T) : bool := less_than a b || equal a b.

Definition tree_height := @packed_memory_array.tree_height T block_size.
Definition count_items := @packed_memory_array.count_items T.
Definition get_thresholds := @packed_memory_array.get_thresholds T block_size FO.

Fixpoint index_of_loop (fuel : nat) (items : list (option T)) (t : T)
    (low high : Z) : option Z :=
  if low <=? high then
    match fuel with
    | O => None
    | S fuel' =>
        let mid0 := low + Z.quot (high - low) 2 in
        mid <- packed_memory_array.skip_right (length items) items mid0 high ;;
        step <- (if high <? mid then
                   mid' <- packed_memory_array.skip_left (length items) items mid0 low ;;
                   Some (if mid' <? low then inl low else inr mid')
                 else Some (inr mid)) ;;
        match step with
        | inl result => Some result
        | inr mid =>
            v <- value items mid ;;
            if less_than v t then index_of_loop fuel' items t (mid + 1) high
            else if bigger_than v t then index_of_loop fuel' items t low (mid - 1)
            else Some mid
        end
    end
  else Some (if negb (lt_size low items) then low - 1 else low).

Definition index_of (items : list (option T)) (t : T) : option Z :=
  index_of_loop (length items) items t 0 (size items - 1).

Fixpoint successor_loop (fuel : nat) (items : list (option T)) (t : T) (i : Z)
  : option Z :=
  if lt_size i items then
    match at_ items i with
    | None => None
    | Some o =>
        if (match o with None => true | Some v => less_than_equal v t end) then
          match fuel with
          | O => None
          | S fuel' => successor_loop fuel' items t (i + 1)
          end
        else Some i
    end
  else Some i.

Definition successor (items : list (option T)) (t : T) : option T :=
  i0 <- index_of items t ;;
  i <- successor_loop (length items) items t i0 ;;
  if negb (lt_size i items) then Some t else value items i.

(** The gathering loop of [rearrange_items]. *)
Definition gather (items : list (option T)) (begin end_ : Z)
  : option (list T * list (option T)) :=
  packed_memory_array.get_items items begin end_.

(** The placing loop of [rearrange_items]; [buffer] is what is left of the
    buffer from [b_iter] on. *)
Fixpoint rearrange_loop (items : list (option T)) (i end_ new_density remainder : Z)
    (buffer : list T) : option (list (option T)) :=
  match buffer with
  | [] => Some items
  | x :: rest =>
      if i <? end_ then
        items1 <- assign items i (Some x) ;;
        if 0 <? remainder then
          match rest with
          | [] => None
          | y :: rest' =>
              items2 <- assign items1 (i + 1) (Some y) ;;
              rearrange_loop items2 (i + new_density) end_ new_density
                             (remainder - 1) rest'
          end
        else rearrange_loop items1 (i + new_density) end_ new_density remainder rest
      else Some items
  end.

Definition rearrange_items (items : list (option T)) (begin end_ : Z)
  : option (list (option T)) :=
  b <- gather items begin end_ ;;
  let buffer := fst b in
  let n := Z.of_nat (length buffer) in
  let length := end_ - begin in
  if n =? 0 then None else
  let new_density := (length + n - 1) / n in
  if new_density =? 0 then None else
  let remainder := n - length / new_density in
  rearrange_loop (snd b) begin end_ new_density remainder buffer.

Fixpoint scan_rec (fuel : nat) (items : list (option T)) (begin end_ depth : Z)
  : option (list (option T)) :=
  c <- count_items items begin end_ ;;
  let count := of_int c in
  th <- get_thresholds items depth ;;
  let lower := fst th in
  let upper := snd th in
  let density := fdiv count (of_int (end_ - begin)) in
  if depth =? 0 then
    let items1 := if fle upper density then resize items (size items * 2)
                  else items in
    if flt (of_int 0) count then rearrange_items items1 begin end_
    else Some items1
  else if fle lower density && flt density upper then
    h <- tree_height items ;;
    if negb (depth =? h) then rearrange_items items begin end_
    else Some items
  else
    let depth_block_size := size items / 2 ^ depth in
    if depth_block_size =? 0 then None else
    let left_child := Z.rem (Z.quot begin depth_block_size) 2 =? 0 in
    let block_begin := if left_child then begin else begin - depth_block_size in
    let block_end := if left_child then end_ + depth_block_size else end_ in
    match fuel with
    | O => None
    | S fuel' => scan_rec fuel' items block_begin block_end (depth - 1)
    end.

Definition scan (items : list (option T)) (begin end_ depth : Z)
  : option (list (option T)) :=
  scan_rec (Z.to_nat depth) items begin end_ depth.

Definition shifted_right (items : list (option T)) (index : Z)
  : option (bool * list (option T)) :=
  i <- packed_memory_array.run_right (length items) items index ;;
  if negb (lt_size i items) then Some (false, items)
  else items' <- packed_memory_array.shift_right items index i ;; Some (true, items').

Definition shifted_left (items : list (option T)) (index : Z)
  : option (bool * list (option T)) :=
  i <- packed_memory_array.run_left (length items) items index ;;
  if i <? 0 then Some (false, items)
  else items' <- packed_memory_array.shift_left items index i ;; Some (true, items').

Definition push (items : list (option T)) (t : T) : option (list (option T)) :=
  i <- index_of items t ;;
  o <- at_ items i ;;
  p <- match o with
       | None => Some (items, i)
       | Some v =>
           if bigger_than t v then
             r <- shifted_left items i ;;
             if fst r then Some (snd r, i)
             else
               o' <- at_ (snd r) (i + 1) ;;
               if occupied o' then
                 r' <- shifted_right (snd r) (i + 1) ;; Some (snd r', i + 1)
               else Some (snd r, i + 1)
           else
             r <- shifted_right items i ;;
             if fst r then Some (snd r, i)
             else
               o' <- at_ (snd r) (i - 1) ;;
               if occupied o' then
                 r' <- shifted_left (snd r) (i - 1) ;; Some (snd r', i - 1)
               else Some (snd r, i - 1)
       end ;;
  let items1 := fst p in
  let i := snd p in
  items2 <- assign items1 i (Some t) ;;
  let block_begin := (i / block_size) * block_size in
  let block_end := block_begin + block_size in
  h <- tree_height items2 ;;
  scan items2 block_begin block_end h.

Definition remove (items : list (option T)) (t : T) : option (list (option T)) :=
  i <- index_of items t ;;
  o <- at_ items i ;;
  if (match o with Some v => negb (equal v t) | None => false end)
  then Some items
  else
    items1 <- assign items i None ;;
    let block_begin := (i / block_size) * block_size in
    let block_end := block_begin + block_size in
    h <- tree_height items1 ;;
    scan items1 block_begin block_end h.

Definition empty_store : list (option T) := replicate (Z.to_nat (block_size * 2)) None.
(** The [if (items[i])] statement of [push] on its own: the array after the
    shifts and the index [i] that [items[i] = t] then writes. *)
Definition free_slot (items : list (option T)) (t : T) (i : Z)
  : option (list (option T) * Z) :=
  o <- at_ items i ;;
  match o with
  | None => Some (items, i)
  | Some v =>
      if bigger_than t v then
        r <- shifted_left items i ;;
        if fst r then Some (snd r, i)
        else
          o' <- at_ (snd r) (i + 1) ;;
          if occupied o' then
            r' <- shifted_right (snd r) (i + 1) ;; Some (snd r', i + 1)
          else Some (snd r, i + 1)
      else
        r <- shifted_right items i ;;
        if fst r then Some (snd r, i)
        else
          o' <- at_ (snd r) (i - 1) ;;
          if occupied o' then
            r' <- shifted_left (snd r) (i - 1) ;; Some (snd r', i - 1)
          else Some (snd r, i - 1)
  end.

(** [operator<<]: every occupied item, left to right, each followed by a
    space; [show] is the [operator<<] of the item type. *)
Fixpoint print (show : T -> String.string) (items : list (option T))
  : String.string :=
  match items with
  | [] => String.EmptyString
  | Some item :: rest =>
      String.append (show item)
        (String.append (String.String (Ascii.ascii_of_nat 32) String.EmptyString)
                       (print show rest))
  | None :: rest => print show rest
  end.
End Class.
End OrderedVector.

(** ** src/unnamed/part_000

  The earlier revision of [packed_memory_array] (class [OrderedVector],
  parameter [leaf_size]): [push] ends with a local insertion by
  [shifted_right] and [shifted_left], which have the text of
  src/OrderedVector.h. *)

Module part_000.
Section Class.
Context {T : Type} (less : T -> T -> bool) (leaf_size : Z) {FO : FloatOps}.

Definition greater (a b : T) : bool := less b a.

(** The [if (items[i])] statement at the end of [push] and the assignment
    [items[i] = t]. *)
Definition place (items : list (option T)) (t : T) (i : Z)
  : option (list (option T)) :=
  o <- at_ items i ;;
  p <- match o with
       | None => Some (items, i)
       | Some v =>
           let i1 := if greater t v && lt_size (i + 1) items then i + 1 else i in
           o1 <- at_ items i1 ;;
           if occupied o1 then
             r <- OrderedVector.shifted_right items i1 ;;
             if fst r then Some (snd r, i1)
             else
               i2 <- (if 0 <? i1 - 1
                      then v1 <- value (snd r) i1 ;;
                           Some (if less t v1 then i1 - 1 else i1)
                      else Some i1) ;;
               r' <- OrderedVector.shifted_left (snd r) i2 ;;
               Some (snd r', i2)
           else Some (items, i1)
       end ;;
  assign (fst p) (snd p) (Some t).

(** The lines of [push] before the local insertion are those of
    src/packed_memory_array.h. *)
Definition push (items : list (option T)) (t : T) : option (list (option T)) :=
  p <- packed_memory_array.push_target less leaf_size items t ;;
  place (fst p) t (snd p).
End Class.
End part_000.

(** ** src/file_handler.cpp

  The commands of the driver that change the store: [INC x] calls
  [push], [REM x] calls [remove]. *)

Section Commands.
Context {T : Type}.
Context (push remove : list (option T) -> T -> option (list (option T))).

Inductive command : Type :=
| INC (value : T)
| REM (value : T).

Definition execute (items : list (option T)) (c : command)
  : option (list (option T)) :=
  match c with
  | INC value => push items value
  | REM value => remove items value
  end.

Fixpoint run (cs : list command) (items : list (option T))
  : option (list (option T)) :=
  match cs with
  | [] => Some items
  | c :: cs' => items' <- execute items c ;; run cs' items'
  end.
End Commands.

Arguments INC {T} value.
Arguments REM {T} value.

(** The driver itself: [split_on_space] and the command loop of [main] on
    the lines that [std::getline] reads. The loop runs on
    [OrderedVector<int>]: [std::less<int>] and [block_size = 8]. *)

Module file_handler.
Import String Ascii.

(** [std::isspace] in the C locale: the space and the characters 9 to 13. *)
Definition isspace (c : ascii) : bool :=
  let n := nat_of_ascii c in
  Nat.eqb n 32 || (Nat.leb 9 n && Nat.leb n 13).

(** [while (ss >> token) tokens.push_back(token);]: [token] holds the
    characters read since the last whitespace. *)
Fixpoint split_loop (line token : string) : list string :=
  match line with
  | EmptyString =>
      match token with
      | EmptyString => []
      | String _ _ => [token]
      end
  | String c rest =>
      if isspace c then
        match token with
        | EmptyString => split_loop rest EmptyString
        | String _ _ => token :: split_loop rest EmptyString
        end
      else split_loop rest (append token (String c EmptyString))
  end.

Definition split_on_space (line : string) : list string :=
  split_loop line EmptyString.

(** [std::endl]. *)
Definition endl : string := String (ascii_of_nat 10) EmptyString.

(** How [main] ends. *)
Inductive outcome : Type :=
| Returned (v : list (option Z)) (output : string)
    (* the loop ended: no line is left, or a line without a token *)
| ExitFailure (line_count : Z) (output : string)
    (* [return EXIT_FAILURE] on a command with the wrong number of tokens *)
| Aborted.
    (* an exception of [std::stoi], which [main] does not catch, or an
       access outside the vector *)

Section Main.
Context {FO : FloatOps}.
(** [std::stoi] ([None] when it throws) and [operator<<] of an [int]. *)
Context (stoi : string -> option Z) (show : Z -> string).

(** The [while (std::getline(input_file, line))] loop; [output] is what has
    been written to the output file. *)
Fixpoint main_loop (lines : list string) (v : list (option Z))
    (line_count : Z) (output : string) : outcome :=
  match lines with
  | [] => Returned v output
  | line :: rest =>
      let tokens := split_on_space line in
      let line_count := line_count + 1 in
      match tokens with
      | [] => Returned v output
      | front :: _ =>
          if String.eqb front "INC" then
            match tokens with
            | [_; argument] =>
                match stoi argument with
                | None => Aborted
                | Some value =>
                    match OrderedVector.push Z.ltb 8 v value with
                    | None => Aborted
                    | Some v' => main_loop rest v' line_count output
                    end
                end
            | _ => ExitFailure line_count output
            end
          else if String.eqb front "REM" then
            match tokens with
            | [_; argument] =>
                match stoi argument with
                | None => Aborted
                | Some value =>
                    match OrderedVector.remove Z.ltb 8 v value with
                    | None => Aborted
                    | Some v' => main_loop rest v' line_count output
                    end
                end
            | _ => ExitFailure line_count output
            end
          else if String.eqb front "SUC" then
            match tokens with
            | [_; argument] =>
                match stoi argument with
                | None => Aborted
                | Some value =>
                    match OrderedVector.successor Z.ltb v value with
                    | None => Aborted
                    | Some s =>
                        main_loop rest v line_count
                          (append output (append (show s) endl))
                    end
                end
            | _ => ExitFailure line_count output
            end
          else if String.eqb front "IMP" then
            match tokens with
            | [_] =>
                main_loop rest v line_count
                  (append output (append (OrderedVector.print show v) endl))
            | _ => ExitFailure line_count output
            end
          else main_loop rest v line_count output
      end
  end.

(** [main] from the declaration of [v] on. *)
Definition main (lines : list string) : outcome :=
  main_loop lines (OrderedVector.empty_store 8) 0 EmptyString.
End Main.

(** *** Vocabulary for the properties of the driver *)

Fixpoint spaceless (s : string) : bool :=
  match s with
  | EmptyString => true
  | String c rest => negb (isspace c) && spaceless rest
  end.

(** A token: not empty, and free of whitespace. *)
Definition is_token (s : string) : bool :=
  match s with
  | EmptyString => false
  | String _ _ => spaceless s
  end.

Definition space : string := String (ascii_of_nat 32) EmptyString.

(** The four commands. *)
Inductive request : Type :=
| Inc (value : Z)
| Rem (value : Z)
| Suc (value : Z)
| Imp.

Section Requests.
Context {FO : FloatOps}.
Context (stoi : string -> option Z) (show : Z -> string).

(** A line that asks for [r]: the tokens, one space between them. *)
Definition render (r : request) : string :=
  match r with
  | Inc value => concat space ["INC"%string; show value]
  | Rem value => concat space ["REM"%string; show value]
  | Suc value => concat space ["SUC"%string; show value]
  | Imp => "IMP"%string
  end.

(** [std::stoi] reads back what [operator<<] writes for the argument of
    [r], and that text is one token. *)
Definition readable (r : request) : Prop :=
  match r with
  | Inc value | Rem value | Suc value =>
      stoi (show value) = Some value /\ is_token (show value) = true
  | Imp => True
  end.

(** What the operations of the class do for a list of requests: the store
    they leave and the text written; [None] when one of them is
    undefined. *)
Fixpoint perform (rs : list request) (v : list (option Z)) (output : string)
  : option (list (option Z) * string) :=
  match rs with
  | [] => Some (v, output)
  | Inc value :: rest =>
      v' <- OrderedVector.push Z.ltb 8 v value ;; perform rest v' output
  | Rem value :: rest =>
      v' <- OrderedVector.remove Z.ltb 8 v value ;; perform rest v' output
  | Suc value :: rest =>
      s <- OrderedVector.successor Z.ltb v value ;;
      perform rest v (append output (append (show s) endl))
  | Imp :: rest =>
      perform rest v (append output (append (OrderedVector.print show v) endl))
  end.
End Requests.

(** *** The library functions of the driver, for decimal text *)

(** The value of a decimal digit. *)
Definition digit (c : ascii) : option Z :=
  let n := Z.of_nat (nat_of_ascii c) in
  if (48 <=? n) && (n <=? 57) then Some (n - 48) else None.

(** The number read from the leading digits of [s]. *)
Fixpoint digits (s : string) (acc : Z) : Z :=
  match s with
  | String c rest =>
      match digit c with
      | Some d => digits rest (10 * acc + d)
      | None => acc
      end
  | EmptyString => acc
  end.

Fixpoint skip_space (s : string) : string :=
  match s with
  | String c rest => if isspace c then skip_space rest else s
  | EmptyString => s
  end.

(** [std::stoi]: leading whitespace, an optional sign, then at least one
    digit; what follows the digits is ignored. It throws when there is no
    digit and when the number does not fit an [int]. *)
Definition stoi (s : string) : option Z :=
  let s1 := skip_space s in
  let p := match s1 with
           | String c rest =>
               if Ascii.eqb c "-" then (true, rest)
               else if Ascii.eqb c "+" then (false, rest)
               else (false, s1)
           | EmptyString => (false, s1)
           end in
  match snd p with
  | String c _ =>
      match digit c with
      | Some _ =>
          let n := digits (snd p) 0 in
          let value := if fst p then - n else n in
          if (-2147483648 <=? value) && (value <=? 2147483647)
          then Some value else None
      | None => None
      end
  | EmptyString => None
  end.

(** The decimal digits of [n >= 0], most significant first, before
    [acc]. *)
Fixpoint show_loop (fuel : nat) (n : Z) (acc : string) : string :=
  match fuel with
  | O => acc
  | S fuel' =>
      let acc' := String (ascii_of_nat (Z.to_nat (48 + n mod 10))) acc in
      if n <? 10 then acc' else show_loop fuel' (n / 10) acc'
  end.

(** [operator<<] of an [int]: a minus sign for a negative number, then its
    decimal digits. *)
Definition show (z : Z) : string :=
  if z <? 0
  then String "-" (show_loop (S (Z.to_nat (Z.log2 (- z)))) (- z) EmptyString)
  else show_loop (S (Z.to_nat (Z.log2 z))) z EmptyString.
End file_handler.

(** ** Vocabulary of the specification *)

Section Vocabulary.
Context {T : Type} (less : T -> T -> bool).

(** The comparator is a strict order. *)
Record strict_order : Prop := {
  less_irrefl : forall a, less a a = false;
  less_trans : forall a b c, less a b = true -> less b c = true -> less a c = true
}.

(** [!(a < b) && !(b < a)]. *)
Definition equivalent (a b : T) : Prop := less a b = false /\ less b a = false.

Definition precedes (a b : T) : Prop := less a b = true.

(** Occupied slots, read left to right, are strictly increasing. *)
Definition increasing (items : list (option T)) : Prop :=
  Sorted precedes (values items).

(** Some occupied slot holds an item equivalent to [t]. *)
Definition stored (items : list (option T)) (t : T) : Prop :=
  exists i v, at_ items i = Some (Some v) /\ equivalent v t.

(** No two occupied slots hold equivalent items. *)
Definition unique (items : list (option T)) : Prop :=
  forall i j a b, at_ items i = Some (Some a) -> at_ items j = Some (Some b) ->
                  equivalent a b -> i = j.
End Vocabulary.

Section Counting.
Context {T : Type}.

(** Number of occupied slots. *)
Definition total (items : list (option T)) : Z := Z.of_nat (length (values items)).

(** The slots of [begin, end). *)
Definition window (items : list (option T)) (begin end_ : Z) : list (option T) :=
  take (Z.to_nat (end_ - begin)) (drop (Z.to_nat begin) items).
End Counting.

(** ** The arithmetic the invariants rely on *)

Section FloatLaws.
Context {FO : FloatOps} (chunk_size : Z).

(** The thresholds of [get_thresholds] for tree height [h]. *)
Definition lower_at (h depth : Z) : F :=
  fsub (of_ratio 1 2) (fmul (of_ratio 1 4) (fdiv (of_int depth) (of_int h))).
Definition upper_at (h depth : Z) : F :=
  fadd (of_ratio 3 4) (fmul (of_ratio 1 4) (fdiv (of_int depth) (of_int h))).

(** [(float)count / (float)width]. *)
Definition density_of (count width : Z) : F := fdiv (of_int count) (of_int width).

(** The four comparisons of the code give the answers of exact
    arithmetic: [lower = 1/2 - d/(4h)], [upper = 3/4 + d/(4h)]. *)
Definition tests_agree (h depth width count : Z) : bool :=
  Bool.eqb (fle (lower_at h depth) (density_of count width))
           (width * (2 * h - depth) <=? 4 * count * h) &&
  Bool.eqb (fle (density_of count width) (upper_at h depth))
           (4 * count * h <=? width * (3 * h + depth)) &&
  Bool.eqb (flt (upper_at h depth) (density_of count width))
           (width * (3 * h + depth) <? 4 * count * h) &&
  Bool.eqb (flt (density_of count width) (lower_at h depth))
           (4 * count * h <? width * (2 * h - depth)).

(** The offsets [(int)std::round(pos)] that the loop of [rearrange_items]
    computes for [n] items. *)
Fixpoint positions (n : nat) (step pos : F) : option (list Z) :=
  match n with
  | O => Some []
  | S n' =>
      r <- fround pos ;;
      ps <- positions n' step (fadd pos step) ;;
      Some (r :: ps)
  end.

Definition spread (k n : Z) : option (list Z) :=
  positions (Z.to_nat n) (fdiv (of_int k) (of_int n)) (of_int 0).

(** [lo <= p0 < p1 < ... < hi]. *)
Fixpoint ascending (lo : Z) (ps : list Z) (hi : Z) : bool :=
  match ps with
  | [] => true
  | p :: ps' => (lo <=? p) && (p <? hi) && ascending (p + 1) ps' hi
  end.

Definition spread_ok (k n : Z) : bool :=
  match spread k n with
  | Some ps => ascending 0 ps k
  | None => false
  end.

(** Up to capacity [B]: comparisons are exact, and redistribution writes
    increasing offsets inside the window. *)
Definition float_laws (B : Z) : Prop :=
  forall h, 1 <= h -> chunk_size * 2 ^ h <= B ->
    (forall d c, 0 <= d <= h -> 0 <= c <= chunk_size * 2 ^ (h - d) + 1 ->
                 tests_agree h d (chunk_size * 2 ^ (h - d)) c = true) /\
    (forall n, 1 <= n <= chunk_size * 2 ^ h ->
               spread_ok (chunk_size * 2 ^ h) n = true).

Definition zrange (a : Z) (n : nat) : list Z :=
  List.map (fun i => a + Z.of_nat i) (List.seq 0 n).

(** The same, as a computation. *)
Definition float_check (B : Z) : bool :=
  List.forallb
    (fun h =>
       if chunk_size * 2 ^ h <=? B then
         List.forallb
           (fun d =>
              List.forallb (tests_agree h d (chunk_size * 2 ^ (h - d)))
                (zrange 0 (Z.to_nat (chunk_size * 2 ^ (h - d) + 2))))
           (zrange 0 (Z.to_nat (h + 1))) &&
         List.forallb (spread_ok (chunk_size * 2 ^ h))
           (zrange 1 (Z.to_nat (chunk_size * 2 ^ h)))
       else true)
    (zrange 1 (Z.to_nat (Z.log2 B))).

(** [round(j * (k / n))] in exact arithmetic, a half rounded up: the index
    the specification gives item [j] of [n] in a window of width [k]. *)
Definition nominal_position (k n j : Z) : Z := (2 * j * k + n) / (2 * n).

Definition nominal_positions (k n : Z) : list Z :=
  List.map (nominal_position k n) (zrange 0 (Z.to_nat n)).

(** [p] is an integer nearest to [j * k / n]; a half may go either way. *)
Definition nearest (k n j p : Z) : bool := Z.abs (2 * n * p - 2 * j * k) <=? n.

Fixpoint all_nearest (k n j : Z) (ps : list Z) : bool :=
  match ps with
  | [] => true
  | p :: ps' => nearest k n j p && all_nearest k n (j + 1) ps'
  end.



(** Some offset computed for [n] items in a window of width [k] is outside
    [0, hi), or cannot be computed. *)
Definition escapes (k n hi : Z) : bool :=
  match spread k n with
  | Some ps => List.existsb (fun p => negb ((0 <=? p) && (p <? hi))) ps
  | None => true
  end.


(** The comparisons of [OrderedVector::scan] (src/OrderedVector.h):
    [lower <= density], [density < upper], [density >= upper] and
    [count > 0]. *)
Definition tests_agree_OrderedVector (h depth width count : Z) : bool :=
  Bool.eqb (fle (lower_at h depth) (density_of count width))
           (width * (2 * h - depth) <=? 4 * count * h) &&
  Bool.eqb (flt (density_of count width) (upper_at h depth))
           (4 * count * h <? width * (3 * h + depth)) &&
  Bool.eqb (fle (upper_at h depth) (density_of count width))
           (width * (3 * h + depth) <=? 4 * count * h) &&
  Bool.eqb (flt (of_int 0) (of_int count)) (0 <? count).

(** Up to capacity [B] these comparisons are exact. *)
Definition float_laws_OrderedVector (B : Z) : Prop :=
  forall h d c, 1 <= h -> chunk_size * 2 ^ h <= B -> 0 <= d <= h ->
                0 <= c <= chunk_size * 2 ^ (h - d) ->
                tests_agree_OrderedVector h d (chunk_size * 2 ^ (h - d)) c = true.

(** The same, as a computation. *)
Definition float_check_OrderedVector (B : Z) : bool :=
  List.forallb
    (fun h =>
       if chunk_size * 2 ^ h <=? B then
         List.forallb
           (fun d =>
              List.forallb (tests_agree_OrderedVector h d (chunk_size * 2 ^ (h - d)))
                (zrange 0 (Z.to_nat (chunk_size * 2 ^ (h - d) + 1))))
           (zrange 0 (Z.to_nat (h + 1)))
       else true)
    (zrange 1 (Z.to_nat (Z.log2 B))).
End FloatLaws.

Section Placing.
Context {T : Type}.

(** The writes of [rearrange_items] at given offsets. *)
Fixpoint place_at (items : list (option T)) (begin : Z) (ps : list Z)
    (buffer : list T) : option (list (option T)) :=
  match buffer, ps with
  | [], _ => Some items
  | item :: rest, p :: ps' =>
      items' <- assign items (begin + p) (Some item) ;;
      place_at items' begin ps' rest
  | _ :: _, [] => None
  end.


(** The offsets the placing loop of [OrderedVector::rearrange_items]
    (src/OrderedVector.h) visits for [n] items from offset [i]: a stride of
    [new_density] slots takes two items, in adjacent slots, while
    [remainder] is positive, and one item afterwards. *)
Fixpoint strides (n : nat) (i new_density remainder : Z) : list Z :=
  match n with
  | O => []
  | S n' =>
      if 0 <? remainder then
        match n' with
        | O => [i]
        | S n'' =>
            i :: (i + 1) ::
              strides n'' (i + new_density) new_density (remainder - 1)
        end
      else i :: strides n' (i + new_density) new_density remainder
  end.

(** The offsets for [n] items in a window of width [k]. *)
Definition stride_offsets (k n : Z) : list Z :=
  let new_density := (k + n - 1) / n in
  let remainder := n - k / new_density in
  strides (Z.to_nat n) 0 new_density remainder.

(** [redistributed] without the distance between successive offsets: they
    are strictly increasing. *)
Definition placed (items : list (option T)) (begin end_ : Z)
    (buffer : list T) (ps : list Z) (items' : list (option T)) : Prop :=
  size items' = size items /\ length ps = length buffer /\
  (forall j p item, ps !! j = Some p -> buffer !! j = Some item ->
                    at_ items' (begin + p) = Some (Some item)) /\
  (forall i, (forall p, p ∈ ps -> i <> begin + p) -> at_ items' i = at_ items i) /\
  (forall p, p ∈ ps -> 0 <= p < end_ - begin) /\
  (forall j p q, ps !! j = Some p -> ps !! S j = Some q -> p < q).
End Placing.

Section Shape.
Context {T : Type} (chunk_size : Z).

(** The capacity is [chunk_size * 2 ^ h] for some [h >= 1]. *)
Definition shape (items : list (option T)) : Prop :=
  exists h, 1 <= h /\ size items = chunk_size * 2 ^ h.
End Shape.

(** ** Vocabulary of the proofs *)

Section SearchVocabulary.
Context {T : Type} (less : T -> T -> bool).
Implicit Types (items : list (option T)) (t : T).

(** One round of the loop of [index_of]: the midpoint is moved to an
    occupied slot, right then left; [inl low] is the early return. *)
Definition probe items (low high : Z) : option (Z + Z) :=
  let mid0 := low + Z.quot (high - low) 2 in
  match packed_memory_array.skip_right (length items) items mid0 high with
  | None => None
  | Some mid =>
      if high <? mid then
        match packed_memory_array.skip_left (length items) items mid0 low with
        | Some mid' => Some (if mid' <? low then inl low else inr mid')
        | None => None
        end
      else Some (inr mid)
  end.

Inductive probe_result items (low high : Z) : Z + Z -> Prop :=
| probe_all_empty :
    (forall j, low <= j <= high -> at_ items j = Some None) ->
    probe_result items low high (inl low)
| probe_mid mid v :
    low <= mid <= high -> at_ items mid = Some (Some v) ->
    probe_result items low high (inr mid).

(** Everything left of [low] is below [t], everything right of [high] is
    above. *)
Definition bracket items t (low high : Z) : Prop :=
  (forall j v, j < low -> at_ items j = Some (Some v) -> less v t = true) /\
  (forall j v, high < j -> at_ items j = Some (Some v) -> less t v = true).

(** What [index_of] answers on an increasing store. *)
Inductive located items t (i : Z) : Prop :=
| located_found v :
    at_ items i = Some (Some v) -> equivalent less v t -> located items t i
| located_cut :
    bracket items t i (i - 1) -> located items t i
| located_last :
    i = size items - 1 -> bracket items t (size items) (size items - 1) ->
    located items t i.

(** What [insert] needs of its index: the slot is empty, or holds a value
    above [t], or it is the last slot and holds a value below [t]. The cut
    [c] is where [t] belongs. *)
Definition insertion_point items t (i c : Z) : Prop :=
  match at_ items i with
  | Some None => c = i
  | Some (Some v) =>
      (less t v = true /\ less v t = false /\ c = i) \/
      (less v t = true /\ less t v = false /\ c = i + 1 /\ i + 1 = size items)
  | None => False
  end.
End SearchVocabulary.

Section ScanVocabulary.
Context {T : Type} (chunk_size : Z).

(** What a call of [scan] on a window of the tree guarantees; [acc] is the
    count the caller passes for the window. *)
Definition scan_post (items : list (option T)) (window_count acc : Z)
    (items' : list (option T)) : Prop :=
  values items' = values items /\ shape chunk_size items' /\
  size items' <= 2 * size items /\
  (acc = window_count + 1 -> total items' < size items').
End ScanVocabulary.

Section Reachable.
Context {T : Type} (less : T -> T -> bool) (chunk_size : Z) {FO : FloatOps}.

(** The stores the operations of [packed_memory_array] build from the
    empty store while the capacity can still double within [B]: [push] of
    values that are not stored, [remove] of any value. *)
Inductive reachable (B : Z) : list (option T) -> Prop :=
| reachable_empty :
    reachable B (packed_memory_array.empty_store chunk_size)
| reachable_push items t items' :
    reachable B items -> 2 * size items <= B -> ~ stored less items t ->
    packed_memory_array.push less chunk_size items t = Some items' ->
    reachable B items'
| reachable_remove items t items' :
    reachable B items -> 2 * size items <= B ->
    packed_memory_array.remove less chunk_size items t = Some items' ->
    reachable B items'.

(** The same for the operations of [OrderedVector] (src/OrderedVector.h). *)
Inductive reachable_OrderedVector (B : Z) : list (option T) -> Prop :=
| reachable_OrderedVector_empty :
    reachable_OrderedVector B (OrderedVector.empty_store chunk_size)
| reachable_OrderedVector_push items t items' :
    reachable_OrderedVector B items -> 2 * size items <= B ->
    ~ stored less items t ->
    OrderedVector.push less chunk_size items t = Some items' ->
    reachable_OrderedVector B items'
| reachable_OrderedVector_remove items t items' :
    reachable_OrderedVector B items -> 2 * size items <= B ->
    OrderedVector.remove less chunk_size items t = Some items' ->
    reachable_OrderedVector B items'.
End Reachable.

(** * Properties *)

(** ** Reading and writing slots *)

Section VectorFacts.
Context {T : Type}.
Implicit Types (items : list (option T)) (i j : Z) (o : option T).

Lemma size_nonneg items : 0 <= size items.
Proof. unfold size. lia. Qed.

Lemma at_Some items i o :
  at_ items i = Some o <-> 0 <= i < size items /\ items !! Z.to_nat i = Some o.
Proof.
  unfold at_, size. destruct (Z.leb_spec 0 i) as [Hi|Hi].
  - split.
    + intros H. split; [|exact H]. apply lookup_lt_Some in H. lia.
    + tauto.
  - split; [discriminate | lia].
Qed.

Lemma at_in_range items i :
  0 <= i < size items -> exists o, at_ items i = Some o.
Proof.
  intros Hi. unfold size in Hi.
  destruct (lookup_lt_is_Some_2 items (Z.to_nat i)) as [o Ho]; [lia|].
  exists o. apply at_Some. unfold size. auto.
Qed.

Lemma at_None items i : at_ items i = None <-> ~ (0 <= i < size items).
Proof.
  split.
  - intros H [Hi1 Hi2]. destruct (at_in_range items i) as [o Ho]; [lia|congruence].
  - intros H. destruct (at_ items i) as [o|] eqn:E; [|reflexivity].
    apply at_Some in E. tauto.
Qed.

Lemma at_bounds items i o : at_ items i = Some o -> 0 <= i < size items.
Proof. intros H. apply at_Some in H. tauto. Qed.

Lemma lt_size_true items i : lt_size i items = true <-> 0 <= i < size items.
Proof. unfold lt_size. rewrite andb_true_iff, Z.leb_le, Z.ltb_lt. tauto. Qed.

Lemma lt_size_false items i : lt_size i items = false <-> ~ (0 <= i < size items).
Proof. rewrite <- lt_size_true. destruct (lt_size i items); split; congruence. Qed.

Lemma assign_Some items i o items' :
  assign items i o = Some items' <->
  0 <= i < size items /\ items' = <[Z.to_nat i := o]> items.
Proof.
  unfold assign. fold (lt_size i items).
  destruct (lt_size i items) eqn:E.
  - apply lt_size_true in E. split; [intros [= <-]; auto | intros [_ ->]; auto].
  - apply lt_size_false in E. split; [discriminate | tauto].
Qed.

Lemma assign_in_range items i o :
  0 <= i < size items -> assign items i o = Some (<[Z.to_nat i := o]> items).
Proof. intros. apply assign_Some. auto. Qed.

Lemma size_assign items i o items' :
  assign items i o = Some items' -> size items' = size items.
Proof.
  intros H. apply assign_Some in H as [_ ->]. unfold size. now rewrite length_insert.
Qed.

Lemma at_assign items i o items' j :
  assign items i o = Some items' ->
  at_ items' j = if j =? i then Some o else at_ items j.
Proof.
  intros H. pose proof (size_assign _ _ _ _ H) as Hs.
  apply assign_Some in H as [Hi ->].
  destruct (Z.eqb_spec j i) as [->|Hne].
  - apply at_Some. unfold size in *. rewrite length_insert. split; [lia|].
    apply list_lookup_insert_eq. lia.
  - unfold at_. destruct (0 <=? j) eqn:Hj; [|reflexivity].
    apply Z.leb_le in Hj. apply list_lookup_insert_ne. lia.
Qed.
End VectorFacts.

(** ** The sparse binary search *)

Section Search.
Context {T : Type} (less : T -> T -> bool).
Implicit Types (items : list (option T)) (t : T).

Import packed_memory_array.

Lemma skip_right_eq fuel items mid high :
  skip_right fuel items mid high =
  if mid <=? high then
    match at_ items mid with
    | None => None
    | Some (Some _) => Some mid
    | Some None =>
        match fuel with
        | O => None
        | S fuel' => skip_right fuel' items (mid + 1) high
        end
    end
  else Some mid.
Proof. destruct fuel; reflexivity. Qed.

Lemma skip_left_eq fuel items mid low :
  skip_left fuel items mid low =
  if low <=? mid then
    match at_ items mid with
    | None => None
    | Some (Some _) => Some mid
    | Some None =>
        match fuel with
        | O => None
        | S fuel' => skip_left fuel' items (mid - 1) low
        end
    end
  else Some mid.
Proof. destruct fuel; reflexivity. Qed.

(** The rightward skip stops on the first occupied slot of [mid, high], or
    one past [high]; it reads slots of [mid, high] only. *)
Lemma skip_right_spec fuel items mid high :
  0 <= mid -> high < size items -> mid <= high + 1 ->
  (Z.to_nat (high + 1 - mid) <= fuel)%nat ->
  exists m, skip_right fuel items mid high = Some m /\ mid <= m <= high + 1 /\
    (forall j, mid <= j < m -> at_ items j = Some None) /\
    (m <= high -> exists v, at_ items m = Some (Some v)).
Proof.
  revert mid. induction fuel as [|fuel IH]; intros mid Hmid Hhigh Hle Hfuel;
    rewrite skip_right_eq.
  - assert (mid = high + 1) as -> by lia.
    destruct (Z.leb_spec (high + 1) high); [lia|].
    exists (high + 1). repeat split; try (intros; lia).
  - destruct (Z.leb_spec mid high) as [Hmh|Hmh].
    + destruct (at_in_range items mid) as [o Ho]; [lia|]. rewrite Ho.
      destruct o as [v|].
      * exists mid. repeat split; try (intros; lia). eauto.
      * destruct (IH (mid + 1)) as (m & Hm & Hb & Hempty & Hocc); try lia.
        exists m. repeat split; try lia; auto.
        intros j Hj. destruct (Z.eq_dec j mid) as [->|]; [exact Ho|].
        apply Hempty. lia.
    + exists mid. repeat split; try (intros; lia).
Qed.

Lemma skip_left_spec fuel items mid low :
  0 <= low -> mid < size items -> low - 1 <= mid ->
  (Z.to_nat (mid + 1 - low) <= fuel)%nat ->
  exists m, skip_left fuel items mid low = Some m /\ low - 1 <= m <= mid /\
    (forall j, m < j <= mid -> at_ items j = Some None) /\
    (low <= m -> exists v, at_ items m = Some (Some v)).
Proof.
  revert mid. induction fuel as [|fuel IH]; intros mid Hlow Hmid Hle Hfuel;
    rewrite skip_left_eq.
  - assert (mid = low - 1) as -> by lia.
    destruct (Z.leb_spec low (low - 1)); [lia|].
    exists (low - 1). repeat split; try (intros; lia).
  - destruct (Z.leb_spec low mid) as [Hmh|Hmh].
    + destruct (at_in_range items mid) as [o Ho]; [lia|]. rewrite Ho.
      destruct o as [v|].
      * exists mid. repeat split; try (intros; lia). eauto.
      * destruct (IH (mid - 1)) as (m & Hm & Hb & Hempty & Hocc); try lia.
        exists m. repeat split; try lia; auto.
        intros j Hj. destruct (Z.eq_dec j mid) as [->|]; [exact Ho|].
        apply Hempty. lia.
    + exists mid. repeat split; try (intros; lia).
Qed.

Lemma index_of_loop_eq fuel items t low high :
  index_of_loop less fuel items t low high =
  if low <=? high then
    match fuel with
    | O => None
    | S fuel' =>
        let mid0 := low + Z.quot (high - low) 2 in
        match skip_right (length items) items mid0 high with
        | None => None
        | Some mid =>
            match (if high <? mid then
                     match skip_left (length items) items mid0 low with
                     | Some mid' => Some (if mid' <? low then inl low else inr mid')
                     | None => None
                     end
                   else Some (inr mid)) with
            | None => None
            | Some (inl result) => Some result
            | Some (inr mid) =>
                match value items mid with
                | None => None
                | Some v =>
                    if less v t then index_of_loop less fuel' items t (mid + 1) high
                    else if greater less v t
                         then index_of_loop less fuel' items t low (mid - 1)
                         else Some mid
                end
            end
        end
    end
  else Some (if low =? size items then low - 1 else low).
Proof. destruct fuel; reflexivity. Qed.

Lemma probe_spec items low high :
  0 <= low -> low <= high -> high < size items ->
  exists r, probe items low high = Some r /\ probe_result items low high r.
Proof.
  intros Hlow Hle Hhigh. unfold probe.
  set (mid0 := low + Z.quot (high - low) 2).
  assert (low <= mid0 <= high) as Hmid0.
  { unfold mid0. pose proof (Z.quot_pos (high - low) 2).
    assert (Z.quot (high - low) 2 <= high - low).
    { apply Z.quot_le_upper_bound; lia. }
    lia. }
  destruct (skip_right_spec (length items) items mid0 high)
    as (m & -> & Hb & Hempty & Hocc); try lia.
  { unfold size in Hhigh. lia. }
  destruct (Z.ltb_spec high m) as [Hhm|Hhm].
  - destruct (skip_left_spec (length items) items mid0 low)
      as (m' & -> & Hb' & Hempty' & Hocc'); try lia.
    { unfold size in Hhigh. lia. }
    destruct (Z.ltb_spec m' low) as [Hml|Hml].
    + eexists; split; [reflexivity|]. constructor.
      intros j Hj. destruct (Z.le_gt_cases mid0 j).
      * apply Hempty. lia.
      * apply Hempty'. lia.
    + destruct (Hocc' Hml) as [v Hv].
      eexists; split; [reflexivity|]. econstructor; [|exact Hv]. lia.
  - destruct Hocc as [v Hv]; [lia|].
    eexists; split; [reflexivity|]. econstructor; [|exact Hv]. lia.
Qed.

Lemma index_of_loop_probe fuel items t low high :
  index_of_loop less fuel items t low high =
  if low <=? high then
    match fuel with
    | O => None
    | S fuel' =>
        match probe items low high with
        | None => None
        | Some (inl result) => Some result
        | Some (inr mid) =>
            match value items mid with
            | None => None
            | Some v =>
                if less v t then index_of_loop less fuel' items t (mid + 1) high
                else if greater less v t
                     then index_of_loop less fuel' items t low (mid - 1)
                     else Some mid
            end
        end
    end
  else Some (if low =? size items then low - 1 else low).
Proof.
  rewrite index_of_loop_eq. unfold probe.
  destruct (low <=? high); [|reflexivity].
  destruct fuel; [reflexivity|]. cbv zeta.
  destruct (skip_right _ _ _ _); [|reflexivity].
  destruct (high <? z); [|reflexivity].
  destruct (skip_left _ _ _ _); reflexivity.
Qed.

Lemma value_Some items i v : value items i = Some v <-> at_ items i = Some (Some v).
Proof.
  unfold value. destruct (at_ items i) as [[w|]|]; split; congruence.
Qed.

(** The search returns, and its result is a valid index, whatever the
    contents of the slots. *)
Lemma index_of_loop_bounds fuel items t low high :
  0 < size items -> 0 <= low -> high < size items -> low <= high + 1 ->
  (Z.to_nat (high + 1 - low) <= fuel)%nat ->
  exists i, index_of_loop less fuel items t low high = Some i /\
            0 <= i < size items.
Proof.
  intros Hsize. revert low high.
  induction fuel as [|fuel IH]; intros low high Hlow Hhigh Hle Hfuel;
    rewrite index_of_loop_probe.
  - destruct (Z.leb_spec low high); [lia|].
    eexists; split; [reflexivity|]. destruct (Z.eqb_spec low (size items)); lia.
  - destruct (Z.leb_spec low high) as [Hlh|Hlh].
    + destruct (probe_spec items low high) as (r & -> & Hr); try lia.
      destruct Hr as [Hempty | mid v Hmid Hv].
      * eexists; split; [reflexivity|]. lia.
      * apply value_Some in Hv. rewrite Hv.
        destruct (less v t).
        { apply IH; lia. }
        destruct (greater less v t).
        { apply IH; lia. }
        eexists; split; [reflexivity|]. lia.
    + eexists; split; [reflexivity|]. destruct (Z.eqb_spec low (size items)); lia.
Qed.

Lemma index_of_bounds items t :
  0 < size items ->
  exists i, index_of less items t = Some i /\ 0 <= i < size items.
Proof.
  intros Hsize. unfold index_of.
  apply index_of_loop_bounds; try lia. unfold size. lia.
Qed.
End Search.

(** ** Strictly increasing stores *)

Section Increasing.
Context {T : Type} (less : T -> T -> bool) (Hord : strict_order less).
Implicit Types (items : list (option T)) (t : T).


Lemma less_asym a b : less a b = true -> less b a = false.
Proof.
  intros Hab. destruct (less b a) eqn:Hba; [|reflexivity].
  pose proof (less_trans less Hord _ _ _ Hab Hba) as H.
  rewrite (less_irrefl less Hord) in H. discriminate.
Qed.

Lemma values_cons o items :
  values (o :: items) = match o with Some v => v :: values items | None => values items end.
Proof. destruct o; reflexivity. Qed.

Lemma values_app items1 items2 :
  values (items1 ++ items2) = values items1 ++ values items2.
Proof. unfold values. apply omap_app. Qed.

Lemma elem_of_values items v :
  v ∈ values items <-> exists i : nat, items !! i = Some (Some v).
Proof.
  unfold values. rewrite list_elem_of_omap. split.
  - intros (o & Ho & Hv). simpl in Hv. subst o.
    apply list_elem_of_lookup in Ho. exact Ho.
  - intros (i & Hi). exists (Some v). split; [|reflexivity].
    apply list_elem_of_lookup. eauto.
Qed.

Lemma increasing_strong items :
  increasing less items -> StronglySorted (precedes less) (values items).
Proof.
  apply Sorted_StronglySorted. intros a b c. apply (less_trans less Hord).
Qed.

Lemma strong_increasing items :
  StronglySorted (precedes less) (values items) -> increasing less items.
Proof. apply StronglySorted_Sorted. Qed.

Lemma strongly_sorted_lookup (items : list (option T)) :
  StronglySorted (precedes less) (values items) ->
  forall (i j : nat) a b, (i < j)%nat ->
    items !! i = Some (Some a) -> items !! j = Some (Some b) -> less a b = true.
Proof.
  induction items as [|o items IH]; intros Hs i j a b Hij Hi Hj.
  - rewrite lookup_nil in Hi. discriminate.
  - rewrite values_cons in Hs. destruct j as [|j]; [lia|]. simpl in Hj.
    destruct i as [|i]; simpl in Hi.
    + injection Hi as ->. apply StronglySorted_inv in Hs as [_ Hall].
      rewrite List.Forall_forall in Hall. apply Hall.
      apply list_elem_of_In, elem_of_values. eauto.
    + apply (IH) with (i := i) (j := j); auto; [|lia].
      destruct o; [apply StronglySorted_inv in Hs; tauto | exact Hs].
Qed.

(** Index form of [increasing]. *)
Lemma increasing_at items i j a b :
  increasing less items -> i < j ->
  at_ items i = Some (Some a) -> at_ items j = Some (Some b) -> less a b = true.
Proof.
  intros Hinc Hij Hi Hj. apply at_Some in Hi as [Hi1 Hi2]. apply at_Some in Hj as [Hj1 Hj2].
  eapply (strongly_sorted_lookup items (increasing_strong _ Hinc)
            (Z.to_nat i) (Z.to_nat j)); eauto. lia.
Qed.

Lemma increasing_unique items : increasing less items -> unique less items.
Proof.
  intros Hinc i j a b Hi Hj [Hab Hba].
  destruct (Z.lt_trichotomy i j) as [Hlt|[Heq|Hgt]]; [|exact Heq|].
  - rewrite (increasing_at items i j a b) in Hab; auto. discriminate.
  - rewrite (increasing_at items j i b a) in Hba; auto. discriminate.
Qed.
End Increasing.

(** ** What the search finds in an increasing store *)

Section Located.
Context {T : Type} (less : T -> T -> bool) (Hord : strict_order less).
Implicit Types (items : list (option T)) (t : T).

Import packed_memory_array.

Lemma index_of_loop_located fuel items t low high i :
  increasing less items -> bracket less items t low high ->
  0 <= low -> high < size items ->
  index_of_loop less fuel items t low high = Some i ->
  located less items t i.
Proof.
  intros Hinc. revert low high.
  induction fuel as [|fuel IH]; intros low high Hbr Hlow Hhigh;
    rewrite index_of_loop_probe.
  - destruct (Z.leb_spec low high) as [Hlh|Hlh]; [discriminate|].
    intros [= <-]. destruct Hbr as [Hl Hr].
    destruct (Z.eqb_spec low (size items)) as [Heq|Hne].
    + apply located_last; [lia|]. rewrite <- Heq. split; [exact Hl|].
      intros j v Hj Hv. apply at_bounds in Hv. lia.
    + apply located_cut. split; [exact Hl|].
      intros j v Hj Hv. apply (Hr j); [lia|exact Hv].
  - destruct (Z.leb_spec low high) as [Hlh|Hlh].
    + destruct (probe_spec items low high) as (r & -> & Hr); try lia.
      destruct Hbr as [Hl Hg].
      destruct Hr as [Hempty | mid v Hmid Hv].
      * intros [= <-]. apply located_cut. split; [exact Hl|].
        intros j w Hj Hw. destruct (Z.le_gt_cases j high).
        -- rewrite Hempty in Hw by lia. discriminate.
        -- apply (Hg j); [lia|exact Hw].
      * pose proof Hv as Hv'. apply value_Some in Hv'. rewrite Hv'.
        destruct (less v t) eqn:Hvt.
        { apply IH; try lia. split; [|exact Hg].
          intros j w Hj Hw. destruct (Z.eq_dec j mid) as [->|Hne].
          - congruence.
          - apply (less_trans less Hord w v t); [|exact Hvt].
            apply (increasing_at less Hord items j mid); auto. lia. }
        unfold greater. destruct (less t v) eqn:Htv.
        { apply IH; try lia. split; [exact Hl|].
          intros j w Hj Hw. destruct (Z.eq_dec j mid) as [->|Hne].
          - congruence.
          - apply (less_trans less Hord t v w); [exact Htv|].
            apply (increasing_at less Hord items mid j); auto. lia. }
        intros [= <-]. eapply located_found; [exact Hv|]. split; assumption.
    + intros [= <-]. destruct Hbr as [Hl Hr].
      destruct (Z.eqb_spec low (size items)) as [Heq|Hne].
      * apply located_last; [lia|]. rewrite <- Heq. split; [exact Hl|].
        intros j v Hj Hv. apply at_bounds in Hv. lia.
      * apply located_cut. split; [exact Hl|].
        intros j v Hj Hv. apply (Hr j); [lia|exact Hv].
Qed.

Lemma index_of_located items t i :
  increasing less items -> index_of less items t = Some i -> located less items t i.
Proof.
  intros Hinc. unfold index_of.
  apply index_of_loop_located; auto; try lia.
  split; intros j v Hj Hv; apply at_bounds in Hv; lia.
Qed.

(** On a stored probe the search answers with a slot that holds it. *)
Lemma index_of_stored items t :
  0 < size items -> increasing less items -> stored less items t ->
  exists i v, index_of less items t = Some i /\
              at_ items i = Some (Some v) /\ equivalent less v t.
Proof.
  intros Hsize Hinc (p & w & Hp & [Hwt Htw]).
  destruct (index_of_bounds less items t Hsize) as (i & Hi & Hb).
  exists i. pose proof (index_of_located items t i Hinc Hi) as Hloc.
  destruct Hloc as [v Hv Heq | [Hl Hr] | _ [Hl _]].
  - exists v. auto.
  - destruct (Z.lt_ge_cases p i) as [Hlt|Hge].
    + rewrite (Hl p w) in Hwt; auto. discriminate.
    + rewrite (Hr p w) in Htw; auto; [discriminate|lia].
  - rewrite (Hl p w) in Hwt; auto; [discriminate|].
    apply at_bounds in Hp. lia.
Qed.

(** No slot left of the answer holds a value above the probe. *)
Lemma located_left items t i :
  increasing less items -> located less items t i ->
  forall j v, j < i -> at_ items j = Some (Some v) -> less t v = false.
Proof.
  intros Hinc Hloc j v Hj Hv.
  destruct Hloc as [w Hw [Hwt Htw] | [Hl _] | -> [Hl _]].
  - destruct (less t v) eqn:E; [|reflexivity].
    rewrite (less_trans less Hord t v w E) in Htw; [discriminate|].
    apply (increasing_at less Hord items j i); auto.
  - apply (less_asym less Hord). apply (Hl j); auto.
  - apply (less_asym less Hord). apply (Hl j); auto. lia.
Qed.
End Located.

(** ** Successor *)

Section Successor.
Context {T : Type} (less : T -> T -> bool) (Hord : strict_order less).
Implicit Types (items : list (option T)) (t : T).

Import packed_memory_array.

Lemma successor_loop_eq fuel items t i :
  successor_loop less fuel items t i =
  if lt_size i items then
    match at_ items i with
    | None => None
    | Some o =>
        if (match o with None => true | Some v => less_equal less v t end) then
          match fuel with
          | O => None
          | S fuel' => successor_loop less fuel' items t (i + 1)
          end
        else Some i
    end
  else Some i.
Proof. destruct fuel; reflexivity. Qed.

Lemma successor_loop_spec fuel items t i :
  0 <= i <= size items -> (Z.to_nat (size items - i) <= fuel)%nat ->
  exists r, successor_loop less fuel items t i = Some r /\ i <= r <= size items /\
    (forall j v, i <= j < r -> at_ items j = Some (Some v) ->
                 less_equal less v t = true) /\
    (r < size items ->
     exists v, at_ items r = Some (Some v) /\ less_equal less v t = false).
Proof.
  revert i. induction fuel as [|fuel IH]; intros i Hi Hfuel;
    rewrite successor_loop_eq.
  - assert (i = size items) as -> by lia.
    destruct (lt_size (size items) items) eqn:E; [apply lt_size_true in E; lia|].
    exists (size items). repeat split; try (intros; lia).
  - destruct (lt_size i items) eqn:E.
    + apply lt_size_true in E.
      destruct (at_in_range items i E) as [o Ho]. rewrite Ho.
      destruct (match o with None => true | Some v => less_equal less v t end) eqn:Hskip.
      * destruct (IH (i + 1)) as (r & Hr & Hb & Hbefore & Hat); try lia.
        exists r. repeat split; try lia; auto.
        intros j v Hj Hv. destruct (Z.eq_dec j i) as [->|Hne].
        -- rewrite Ho in Hv. injection Hv as ->. exact Hskip.
        -- apply (Hbefore j); auto. lia.
      * exists i. repeat split; try (intros; lia).
        intros _. destruct o as [v|]; [|discriminate]. eauto.
    + apply lt_size_false in E. assert (i = size items) as -> by lia.
      exists (size items). repeat split; try (intros; lia).
Qed.

Lemma less_equal_false v t :
  less_equal less v t = false <-> less v t = false /\ less t v = true.
Proof.
  unfold less_equal, greater. destruct (less v t), (less t v); simpl; intuition congruence.
Qed.

(** [successor] returns the least occupied value above the probe, or the
    probe when there is none. *)
Lemma successor_spec items t :
  0 < size items -> increasing less items ->
  exists r, successor less items t = Some r /\
    ((exists p, at_ items p = Some (Some r) /\ less t r = true /\
        forall q w, at_ items q = Some (Some w) -> less t w = true ->
                    less w r = false) \/
     (r = t /\ forall q w, at_ items q = Some (Some w) -> less t w = false)).
Proof.
  intros Hsize Hinc. unfold successor.
  destruct (index_of_bounds less items t Hsize) as (i0 & Hi0 & Hb0). rewrite Hi0.
  pose proof (located_left less Hord items t i0 Hinc
                (index_of_located less Hord items t i0 Hinc Hi0)) as Hleft.
  destruct (successor_loop_spec (length items) items t i0)
    as (r & -> & Hb & Hbefore & Hat); [lia|unfold size; lia|].
  assert (Hskipped : forall q w, q < r -> at_ items q = Some (Some w) ->
                                 less t w = false).
  { intros q w Hq Hw. destruct (Z.lt_ge_cases q i0) as [Hlt|Hge].
    - apply (Hleft q); auto.
    - pose proof (Hbefore q w ltac:(lia) Hw) as Hle.
      destruct (less t w) eqn:E; [|reflexivity].
      unfold less_equal, greater in Hle. rewrite E in Hle. simpl in Hle.
      rewrite orb_false_r in Hle.
      rewrite (less_asym less Hord t w E) in Hle. discriminate. }
  destruct (lt_size r items) eqn:E; simpl.
  - apply lt_size_true in E. destruct Hat as (v & Hv & Hle); [lia|].
    apply less_equal_false in Hle as [Hvt Htv].
    exists v. split; [apply value_Some; exact Hv|]. left.
    exists r. repeat split; auto.
    intros q w Hw Htw.
    destruct (Z.lt_trichotomy q r) as [Hlt|[->|Hgt]].
    + rewrite (Hskipped q w) in Htw; auto. discriminate.
    + rewrite Hv in Hw. injection Hw as ->. apply (less_irrefl less Hord).
    + apply (less_asym less Hord). apply (increasing_at less Hord items r q); auto.
  - apply lt_size_false in E. exists t. split; [reflexivity|]. right.
    split; [reflexivity|]. intros q w Hw. apply (Hskipped q); auto.
    apply at_bounds in Hw. lia.
Qed.
End Successor.

(** ** The two texts of [index_of] *)

Section IndexOfTexts.
Context {T : Type} (less : T -> T -> bool).
Implicit Types (items : list (option T)) (t : T).

Lemma OrderedVector_index_of_loop_eq fuel items t low high :
  OrderedVector.index_of_loop less fuel items t low high =
  if low <=? high then
    match fuel with
    | O => None
    | S fuel' =>
        match probe items low high with
        | None => None
        | Some (inl result) => Some result
        | Some (inr mid) =>
            match value items mid with
            | None => None
            | Some v =>
                if less v t
                then OrderedVector.index_of_loop less fuel' items t (mid + 1) high
                else if OrderedVector.bigger_than less v t
                     then OrderedVector.index_of_loop less fuel' items t low (mid - 1)
                     else Some mid
            end
        end
    end
  else Some (if negb (lt_size low items) then low - 1 else low).
Proof.
  unfold probe. destruct fuel; simpl.
  - reflexivity.
  - destruct (low <=? high); [|reflexivity].
    destruct (packed_memory_array.skip_right _ _ _ _); [|reflexivity].
    destruct (high <? z); [|reflexivity].
    destruct (packed_memory_array.skip_left _ _ _ _); reflexivity.
Qed.

(** Inside the loop [low] never exceeds the size, where [>=] and [==]
    agree. *)
Lemma OrderedVector_index_of_loop_same fuel items t low high :
  0 <= low -> high < size items -> low <= high + 1 ->
  OrderedVector.index_of_loop less fuel items t low high =
  packed_memory_array.index_of_loop less fuel items t low high.
Proof.
  revert low high. induction fuel as [|fuel IH]; intros low high Hlow Hhigh Hle;
    rewrite OrderedVector_index_of_loop_eq, index_of_loop_probe.
  - destruct (Z.leb_spec low high); [reflexivity|].
    destruct (lt_size low items) eqn:E; simpl.
    + apply lt_size_true in E. destruct (Z.eqb_spec low (size items)); [lia|reflexivity].
    + apply lt_size_false in E. destruct (Z.eqb_spec low (size items)); [reflexivity|lia].
  - destruct (Z.leb_spec low high) as [Hlh|Hlh].
    + destruct (probe_spec items low high) as (r & -> & Hr); try lia.
      destruct Hr as [Hempty | mid v Hmid Hv]; [reflexivity|].
      apply value_Some in Hv. rewrite Hv.
      destruct (less v t); [apply IH; lia|].
      unfold OrderedVector.bigger_than, packed_memory_array.greater.
      destruct (less t v); [apply IH; lia|reflexivity].
    + destruct (lt_size low items) eqn:E; simpl.
      * apply lt_size_true in E. destruct (Z.eqb_spec low (size items)); [lia|reflexivity].
      * apply lt_size_false in E. destruct (Z.eqb_spec low (size items)); [reflexivity|lia].
Qed.

Lemma OrderedVector_index_of_same items t :
  OrderedVector.index_of less items t = packed_memory_array.index_of less items t.
Proof.
  unfold OrderedVector.index_of, packed_memory_array.index_of.
  pose proof (size_nonneg items). apply OrderedVector_index_of_loop_same; lia.
Qed.

Lemma less_than_equal_same a b :
  OrderedVector.less_than_equal less a b = packed_memory_array.less_equal less a b.
Proof.
  unfold OrderedVector.less_than_equal, OrderedVector.equal,
    OrderedVector.bigger_than, packed_memory_array.less_equal,
    packed_memory_array.greater.
  destruct (less a b), (less b a); reflexivity.
Qed.

Lemma OrderedVector_successor_loop_same fuel items t i :
  OrderedVector.successor_loop less fuel items t i =
  packed_memory_array.successor_loop less fuel items t i.
Proof.
  revert i. induction fuel as [|fuel IH]; intros i; simpl.
  - destruct (lt_size i items); [|reflexivity].
    destruct (at_ items i) as [[v|]|]; try reflexivity.
    now rewrite less_than_equal_same.
  - destruct (lt_size i items); [|reflexivity].
    destruct (at_ items i) as [[v|]|]; try reflexivity.
    + rewrite less_than_equal_same. now rewrite IH.
    + apply IH.
Qed.

Lemma OrderedVector_successor_same items t :
  OrderedVector.successor less items t = packed_memory_array.successor less items t.
Proof.
  unfold OrderedVector.successor, packed_memory_array.successor.
  rewrite OrderedVector_index_of_same.
  destruct (packed_memory_array.index_of less items t); [|reflexivity].
  now rewrite OrderedVector_successor_loop_same.
Qed.

(** On an array without occupied slot the first probe already answers. *)
Lemma index_of_all_empty items t :
  0 < size items -> Forall (fun o => o = None) items ->
  packed_memory_array.index_of less items t = Some 0.
Proof.
  intros Hsize Hall. unfold packed_memory_array.index_of.
  rewrite index_of_loop_probe.
  destruct (Z.leb_spec 0 (size items - 1)); [|lia].
  destruct (length items) eqn:Hlen; [unfold size in Hsize; lia|].
  destruct (probe_spec items 0 (size items - 1)) as (r & -> & Hr); try lia.
  destruct Hr as [Hempty | mid v Hmid Hv]; [reflexivity|].
  apply at_Some in Hv as [_ Hv].
  rewrite Forall_lookup in Hall. specialize (Hall _ _ Hv). discriminate.
Qed.
End IndexOfTexts.

(** ** Erasing a value that is not stored *)

Section RemoveAbsent.
Context {T : Type} (less : T -> T -> bool) (chunk_size : Z) {FO : FloatOps}.
Implicit Types (items : list (option T)) (t : T).

Lemma equal_equivalent v t :
  packed_memory_array.equal less v t = true <-> equivalent less v t.
Proof.
  unfold packed_memory_array.equal, packed_memory_array.greater, equivalent.
  destruct (less v t), (less t v); simpl; intuition congruence.
Qed.

Lemma remove_not_stored items t :
  0 < size items -> ~ stored less items t ->
  packed_memory_array.remove less chunk_size items t = Some items.
Proof.
  intros Hsize Habsent. unfold packed_memory_array.remove.
  destruct (index_of_bounds less items t Hsize) as (i & -> & Hb).
  destruct (at_in_range items i Hb) as [o Ho]. rewrite Ho.
  destruct o as [v|]; [|reflexivity].
  destruct (packed_memory_array.equal less v t) eqn:E; [|reflexivity].
  exfalso. apply Habsent. exists i, v. split; [exact Ho|].
  apply equal_equivalent. exact E.
Qed.
End RemoveAbsent.

(** ** Slots as a concatenation *)

Section Middle.
Context {T : Type}.
Implicit Types (items A B C : list (option T)) (o x y z : option T) (i : Z).

Lemma size_app A B : size (A ++ B) = size A + size B.
Proof. unfold size. rewrite length_app. lia. Qed.

Lemma size_cons x A : size (x :: A) = 1 + size A.
Proof. unfold size. simpl. lia. Qed.

Lemma size_replicate n x : size (replicate n x) = Z.of_nat n.
Proof. unfold size. now rewrite length_replicate. Qed.

Lemma size_nil : size (@nil (option T)) = 0.
Proof. reflexivity. Qed.

Lemma at_middle A x C i : i = size A -> at_ (A ++ x :: C) i = Some x.
Proof.
  intros ->. apply at_Some. rewrite size_app, size_cons.
  pose proof (size_nonneg A). pose proof (size_nonneg C). split; [lia|].
  unfold size. rewrite Nat2Z.id. apply list_lookup_middle. reflexivity.
Qed.

Lemma assign_middle A x C i y :
  i = size A -> assign (A ++ x :: C) i y = Some (A ++ y :: C).
Proof.
  intros ->. apply assign_Some. rewrite size_app, size_cons.
  pose proof (size_nonneg A). pose proof (size_nonneg C). split; [lia|].
  unfold size. rewrite Nat2Z.id.
  replace (length A) with (length A + 0)%nat at 1 by lia.
  rewrite insert_app_r. reflexivity.
Qed.

Lemma split_at items i o :
  at_ items i = Some o ->
  items = take (Z.to_nat i) items ++ o :: drop (S (Z.to_nat i)) items /\
  size (take (Z.to_nat i) items) = i.
Proof.
  intros H. apply at_Some in H as [Hi H]. split.
  - symmetry. apply take_drop_middle. exact H.
  - unfold size in *. rewrite length_take. lia.
Qed.

Lemma swap_adjacent A x y C i :
  i = size A -> swap (A ++ x :: y :: C) (i + 1) i = Some (A ++ y :: x :: C).
Proof.
  intros Hi. unfold swap.
  replace (A ++ x :: y :: C) with ((A ++ [x]) ++ y :: C) by now rewrite <- app_assoc.
  rewrite (at_middle (A ++ [x]) y C) by (rewrite size_app, size_cons, size_nil; lia).
  rewrite <- app_assoc. simpl.
  rewrite (at_middle A x (y :: C)) by exact Hi.
  replace (A ++ x :: y :: C) with ((A ++ [x]) ++ y :: C) by now rewrite <- app_assoc.
  rewrite (assign_middle (A ++ [x]) y C) by (rewrite size_app, size_cons, size_nil; lia).
  rewrite <- app_assoc. simpl.
  apply assign_middle. exact Hi.
Qed.

Lemma swap_adjacent' A x y C i :
  i = size A -> swap (A ++ x :: y :: C) i (i + 1) = Some (A ++ y :: x :: C).
Proof.
  intros Hi. unfold swap.
  rewrite (at_middle A x (y :: C)) by exact Hi.
  replace (A ++ x :: y :: C) with ((A ++ [x]) ++ y :: C) by now rewrite <- app_assoc.
  rewrite (at_middle (A ++ [x]) y C) by (rewrite size_app, size_cons, size_nil; lia).
  rewrite <- app_assoc. simpl.
  rewrite (assign_middle A x (y :: C)) by exact Hi.
  replace (A ++ y :: y :: C) with ((A ++ [y]) ++ y :: C) by now rewrite <- app_assoc.
  rewrite (assign_middle (A ++ [y]) y C) by (rewrite size_app, size_cons, size_nil; lia).
  rewrite <- app_assoc. reflexivity.
Qed.
End Middle.

(** ** Shifting a run of slots by one *)

Section Shift.
Context {T : Type}.
Implicit Types (items A B C : list (option T)) (z : option T).

Import packed_memory_array.

(** [shift_right] moves the slot at [to] down to [from]; the slots between
    move one place to the right. *)
Lemma shift_right_loop_app A B z C to :
  to = size A + size B ->
  shift_right_loop (length B) (A ++ B ++ z :: C) to = Some (A ++ z :: B ++ C).
Proof.
  revert C to. induction B as [|y B IH] using rev_ind; intros C to Hto.
  - reflexivity.
  - rewrite length_app, Nat.add_comm. simpl.
    rewrite size_app, size_cons, size_nil in Hto.
    replace (A ++ (B ++ [y]) ++ z :: C) with ((A ++ B) ++ y :: z :: C)
      by now rewrite <- !app_assoc.
    replace to with (to - 1 + 1) at 1 by lia.
    rewrite (swap_adjacent (A ++ B) y z C) by (rewrite size_app; lia).
    rewrite <- app_assoc. rewrite IH by lia.
    rewrite <- !app_assoc. reflexivity.
Qed.

(** [shift_left] moves the slot at [till] up to [from]; the slots between
    move one place to the left. *)
Lemma shift_left_loop_app A B z C till :
  till = size A ->
  shift_left_loop (length B) (A ++ z :: B ++ C) till = Some (A ++ B ++ z :: C).
Proof.
  revert A till. induction B as [|y B IH]; intros A till Hto.
  - reflexivity.
  - simpl. rewrite (swap_adjacent' A z y (B ++ C)) by exact Hto.
    replace (A ++ y :: z :: B ++ C) with ((A ++ [y]) ++ z :: B ++ C)
      by now rewrite <- app_assoc.
    rewrite IH by (rewrite size_app, size_cons, size_nil; lia).
    rewrite <- app_assoc. reflexivity.
Qed.
End Shift.

(** ** Occupied and empty slots *)

Section Total.
Context {T : Type}.
Implicit Types (items A B C : list (option T)) (o : option T).

Lemma total_app A B : total (A ++ B) = total A + total B.
Proof. unfold total. rewrite values_app, length_app. lia. Qed.

Lemma total_cons o A : total (o :: A) = (if occupied o then 1 else 0) + total A.
Proof. unfold total. destruct o; simpl; lia. Qed.

Lemma total_nil : total (@nil (option T)) = 0.
Proof. reflexivity. Qed.

Lemma total_bounds items : 0 <= total items <= size items.
Proof.
  induction items as [|o items IH]; [unfold total, size; simpl; lia|].
  rewrite total_cons, size_cons. destruct (occupied o); lia.
Qed.

Lemma values_replicate_None n : values (replicate n (@None T)) = [].
Proof. induction n as [|n IH]; [reflexivity|]. simpl. exact IH. Qed.

Lemma total_replicate_None n : total (replicate n (@None T)) = 0.
Proof. unfold total. now rewrite values_replicate_None. Qed.

Lemma at_cons_succ o items j : 0 <= j -> at_ (o :: items) (j + 1) = at_ items j.
Proof.
  intros Hj. unfold at_.
  destruct (Z.leb_spec 0 (j + 1)); [|lia]. destruct (Z.leb_spec 0 j); [|lia].
  replace (Z.to_nat (j + 1)) with (S (Z.to_nat j)) by lia. reflexivity.
Qed.

Lemma at_cons_zero o items : at_ (o :: items) 0 = Some o.
Proof. reflexivity. Qed.

(** A store with fewer items than slots has an empty slot. *)
Lemma gap_exists items :
  total items < size items -> exists j, at_ items j = Some None.
Proof.
  induction items as [|o items IH]; intros H.
  - unfold total, size in H. simpl in H. lia.
  - rewrite total_cons, size_cons in H. destruct o as [v|]; simpl in H.
    + destruct IH as [j Hj]; [lia|]. exists (j + 1).
      rewrite at_cons_succ; [exact Hj|]. apply at_bounds in Hj. lia.
    + exists 0. reflexivity.
Qed.

Lemma gap_total items j : at_ items j = Some None -> total items < size items.
Proof.
  intros H. apply split_at in H as [Heq Hs]. rewrite Heq.
  rewrite total_app, total_cons, size_app, size_cons. simpl.
  pose proof (total_bounds (take (Z.to_nat j) items)).
  pose proof (total_bounds (drop (S (Z.to_nat j)) items)). lia.
Qed.

Lemma values_take_drop items (c : nat) :
  values items = values (take c items) ++ values (drop c items).
Proof. rewrite <- values_app, take_drop. reflexivity. Qed.
End Total.

(** ** Runs of occupied slots and the closest gap *)

Section Runs.
Context {T : Type}.
Implicit Types (items : list (option T)).

Import packed_memory_array.

Lemma run_right_eq fuel items i :
  run_right fuel items i =
  if lt_size i items then
    match at_ items i with
    | None => None
    | Some None => Some i
    | Some (Some _) =>
        match fuel with
        | O => None
        | S fuel' => run_right fuel' items (i + 1)
        end
    end
  else Some i.
Proof. destruct fuel; reflexivity. Qed.

Lemma run_left_eq fuel items i :
  run_left fuel items i =
  if 0 <=? i then
    match at_ items i with
    | None => None
    | Some None => Some i
    | Some (Some _) =>
        match fuel with
        | O => None
        | S fuel' => run_left fuel' items (i - 1)
        end
    end
  else Some i.
Proof. destruct fuel; reflexivity. Qed.

Lemma run_right_spec fuel items i :
  0 <= i <= size items -> (Z.to_nat (size items - i) <= fuel)%nat ->
  exists r, run_right fuel items i = Some r /\ i <= r <= size items /\
    (forall j, i <= j < r -> exists v, at_ items j = Some (Some v)) /\
    (r < size items -> at_ items r = Some None).
Proof.
  revert i. induction fuel as [|fuel IH]; intros i Hi Hfuel; rewrite run_right_eq.
  - assert (i = size items) as -> by lia.
    destruct (lt_size (size items) items) eqn:E; [apply lt_size_true in E; lia|].
    exists (size items). repeat split; try (intros; lia).
  - destruct (lt_size i items) eqn:E.
    + apply lt_size_true in E. destruct (at_in_range items i E) as [o Ho]. rewrite Ho.
      destruct o as [v|].
      * destruct (IH (i + 1)) as (r & Hr & Hb & Hocc & Hgap); try lia.
        exists r. repeat split; try lia; auto.
        intros j Hj. destruct (Z.eq_dec j i) as [->|Hne]; [eauto|].
        apply Hocc. lia.
      * exists i. repeat split; try (intros; lia). auto.
    + apply lt_size_false in E. assert (i = size items) as -> by lia.
      exists (size items). repeat split; try (intros; lia).
Qed.

Lemma run_left_spec fuel items i :
  -1 <= i < size items -> (Z.to_nat (i + 1) <= fuel)%nat ->
  exists l, run_left fuel items i = Some l /\ -1 <= l <= i /\
    (forall j, l < j <= i -> exists v, at_ items j = Some (Some v)) /\
    (0 <= l -> at_ items l = Some None).
Proof.
  revert i. induction fuel as [|fuel IH]; intros i Hi Hfuel; rewrite run_left_eq.
  - assert (i = -1) as -> by lia. simpl.
    exists (-1). repeat split; try (intros; lia).
  - destruct (Z.leb_spec 0 i) as [Hi0|Hi0].
    + destruct (at_in_range items i) as [o Ho]; [lia|]. rewrite Ho.
      destruct o as [v|].
      * destruct (IH (i - 1)) as (l & Hl & Hb & Hocc & Hgap); try lia.
        exists l. repeat split; try lia; auto.
        intros j Hj. destruct (Z.eq_dec j i) as [->|Hne]; [eauto|].
        apply Hocc. lia.
      * exists i. repeat split; try (intros; lia). auto.
    + assert (i = -1) as -> by lia.
      exists (-1). repeat split; try (intros; lia).
Qed.

(** With an empty slot somewhere and slot [index] occupied, [closest_gap]
    answers with the index of an empty slot and the side it lies on. *)
Lemma closest_gap_spec items index v :
  at_ items index = Some (Some v) -> total items < size items ->
  exists g on_right, closest_gap items index = Some (g, on_right) /\
    at_ items g = Some None /\
    (on_right = true -> index < g) /\ (on_right = false -> g < index) /\
    (index + 1 = size items -> on_right = false).
Proof.
  intros Hv Hgap. pose proof (at_bounds _ _ _ Hv) as Hb. unfold closest_gap.
  destruct (run_right_spec (length items) items (index + 1))
    as (r & -> & Hrb & Hrocc & Hrgap); [lia|unfold size; lia|].
  destruct (run_left_spec (length items) items (index - 1))
    as (l & -> & Hlb & Hlocc & Hlgap); [lia|unfold size in *; lia|].
  assert (Hsome : 0 <= l \/ r < size items).
  { destruct (Z.lt_ge_cases l 0) as [Hl|Hl]; [|auto].
    destruct (Z.lt_ge_cases r (size items)) as [Hr|Hr]; [auto|].
    exfalso. destruct (gap_exists items Hgap) as [j Hj].
    pose proof (at_bounds _ _ _ Hj) as Hjb.
    destruct (Z.lt_trichotomy j index) as [Hlt|[->|Hgt]].
    - destruct (Hlocc j) as [w Hw]; [lia|congruence].
    - congruence.
    - destruct (Hrocc j) as [w Hw]; [lia|congruence]. }
  destruct (Z.ltb_spec l 0) as [Hl|Hl].
  - exists r, true. repeat split; try (intros; lia || discriminate).
    apply Hrgap. lia.
  - destruct (lt_size r items) eqn:E; simpl.
    + apply lt_size_true in E.
      destruct (Z.leb_spec (r - index) (index - l)).
      * exists r, true. repeat split; try (intros; lia || discriminate);
        try (apply Hrgap; lia); try (apply Hlgap; lia); auto.
      * exists l, false. repeat split; try (intros; lia || discriminate);
        try (apply Hrgap; lia); try (apply Hlgap; lia); auto.
    + exists l, false. repeat split; try (intros; lia || discriminate);
        try (apply Hrgap; lia); try (apply Hlgap; lia); auto.
Qed.
End Runs.

(** ** Local insertion *)

Section Split.
Context {T : Type}.
Implicit Types (items A B C : list (option T)) (o : option T).

Lemma cut_app A B c :
  c = size A ->
  take (Z.to_nat c) (A ++ B) = A /\ drop (Z.to_nat c) (A ++ B) = B.
Proof.
  intros ->. unfold size. rewrite Nat2Z.id. split.
  - apply take_app_length.
  - apply drop_app_length.
Qed.

Lemma split_right items a b o :
  0 <= a <= b -> at_ items b = Some o ->
  exists A B C, items = A ++ B ++ o :: C /\ size A = a /\ size B = b - a.
Proof.
  intros Hab Hb. pose proof (at_bounds _ _ _ Hb) as Hbb.
  apply split_at in Hb as [Heq Hs].
  exists (take (Z.to_nat a) items),
         (drop (Z.to_nat a) (take (Z.to_nat b) items)),
         (drop (S (Z.to_nat b)) items).
  split; [|split].
  - rewrite app_assoc.
    replace (take (Z.to_nat a) items)
      with (take (Z.to_nat a) (take (Z.to_nat b) items))
      by (rewrite take_take; f_equal; lia).
    rewrite take_drop. exact Heq.
  - unfold size in *. rewrite length_take. lia.
  - unfold size in *. rewrite length_drop, length_take. lia.
Qed.

Lemma split_left items a b o :
  at_ items a = Some o -> a <= b < size items ->
  exists A B C, items = A ++ o :: B ++ C /\ size A = a /\ size B = b - a.
Proof.
  intros Ha Hab. pose proof (at_bounds _ _ _ Ha) as Hbb.
  apply split_at in Ha as [Heq Hs].
  exists (take (Z.to_nat a) items),
         (take (Z.to_nat (b - a)) (drop (S (Z.to_nat a)) items)),
         (drop (Z.to_nat (b - a)) (drop (S (Z.to_nat a)) items)).
  split; [|split].
  - rewrite take_drop. exact Heq.
  - exact Hs.
  - unfold size in *. rewrite length_take, length_drop. lia.
Qed.
End Split.

Section ValuesFacts.
Context {T : Type}.

Lemma values_cons_None (A : list (option T)) : values (None :: A) = values A.
Proof. reflexivity. Qed.

Lemma values_cons_Some (v : T) (A : list (option T)) :
  values (Some v :: A) = v :: values A.
Proof. reflexivity. Qed.

Lemma values_nil : values (@nil (option T)) = [].
Proof. reflexivity. Qed.
End ValuesFacts.

Ltac values_norm :=
repeat (rewrite values_app || rewrite values_cons_Some || rewrite values_cons_None
        || rewrite values_nil);
rewrite <- ?app_assoc, ?app_nil_r; simpl; try reflexivity.

Section Insert.
Context {T : Type} (less : T -> T -> bool).
Implicit Types (items A B C : list (option T)) (t : T).

Import packed_memory_array.

Lemma shift_right_app A B z C from to :
  from = size A -> to = size A + size B ->
  shift_right (A ++ B ++ z :: C) from to = Some (A ++ z :: B ++ C).
Proof.
  intros -> ->. unfold shift_right.
  replace (Z.to_nat (size A + size B - size A)) with (length B)
    by (unfold size; lia).
  apply shift_right_loop_app. reflexivity.
Qed.

Lemma shift_left_app A B z C from till :
  till = size A -> from = size A + size B ->
  shift_left (A ++ z :: B ++ C) from till = Some (A ++ B ++ z :: C).
Proof.
  intros -> ->. unfold shift_left.
  replace (Z.to_nat (size A + size B - size A)) with (length B)
    by (unfold size; lia).
  apply shift_left_loop_app. reflexivity.
Qed.

Lemma size_zero_nil (B : list (option T)) : size B = 0 -> B = [].
Proof. destruct B; [reflexivity|]. rewrite size_cons. pose proof (size_nonneg B). lia. Qed.

Lemma insert_spec items t i c :
  total items < size items -> insertion_point less items t i c ->
  exists items', insert less items t i = Some items' /\
    size items' = size items /\
    values items' = values (take (Z.to_nat c) items) ++
                    t :: values (drop (Z.to_nat c) items).
Proof.
  intros Hgap Hpt. unfold insertion_point in Hpt. unfold insert.
  destruct (at_ items i) as [[v|]|] eqn:Hi; [| |contradiction].
  - (* occupied *)
    pose proof (at_bounds _ _ _ Hi) as Hb.
    destruct Hpt as [(Htv & Hvt & ->) | (Hvt & Htv & -> & Hlast)].
    + (* t below the occupant *)
      unfold greater. rewrite Hvt, Htv. simpl.
      assert (Hleft : (0 <=? i - 1) = true /\ at_ items (i - 1) = Some None \/
                      (if 0 <=? i - 1
                       then match at_ items (i - 1) with
                            | Some o' => Some (negb (occupied o'))
                            | None => None
                            end
                       else Some false) = Some false).
      { destruct (Z.leb_spec 0 (i - 1)) as [H0|H0]; [|auto].
        destruct (at_in_range items (i - 1)) as [o' Ho']; [lia|].
        rewrite Ho'. destruct o'; auto. }
      destruct Hleft as [[H0 Hempty] | Hnone].
      * rewrite H0, Hempty. simpl. apply Z.leb_le in H0.
        destruct (split_right items (i - 1) (i - 1) None) as (A & B & C & -> & HA & HB);
          [lia|exact Hempty|].
        assert (B = []) as -> by (apply size_zero_nil; lia). cbn [app].
        rewrite (assign_middle A None C) by lia.
        eexists; split; [reflexivity|]. split.
        { repeat (rewrite size_app || rewrite size_cons); lia. }
        replace (A ++ None :: C) with ((A ++ [None]) ++ C) by now rewrite <- app_assoc.
        destruct (cut_app (A ++ [None]) C i) as [-> ->];
          [rewrite size_app, size_cons, size_nil; lia|].
        values_norm.
      * rewrite Hnone.
        destruct (closest_gap_spec items i v Hi Hgap)
          as (g & on_right & -> & Hg & Hr & Hl & _). simpl.
        destruct on_right; simpl.
        -- specialize (Hr eq_refl).
           destruct (split_right items i g None) as (A & B & C & -> & HA & HB);
             [lia|exact Hg|].
           rewrite (shift_right_app A B None C) by lia.
           rewrite (assign_middle A None (B ++ C)) by lia.
           eexists; split; [reflexivity|]. split.
           { repeat (rewrite size_app || rewrite size_cons); lia. }
           destruct (cut_app A (B ++ None :: C) i) as [-> ->]; [lia|].
           values_norm.
        -- specialize (Hl eq_refl).
           destruct (split_left items g (i - 1) None) as (A & B & C & -> & HA & HB);
             [exact Hg|lia|].
           rewrite (shift_left_app A B None C) by lia.
           rewrite app_assoc.
           rewrite (assign_middle (A ++ B) None C) by (rewrite size_app; lia).
           eexists; split; [reflexivity|]. split.
           { repeat (rewrite size_app || rewrite size_cons); lia. }
           replace (A ++ None :: B ++ C) with ((A ++ None :: B) ++ C)
             by now rewrite <- app_assoc.
           destruct (cut_app (A ++ None :: B) C i) as [-> ->];
             [rewrite size_app, size_cons; lia|].
           values_norm.
    + (* t above the last slot *)
      unfold greater. rewrite Hvt, Htv. simpl.
      destruct (lt_size (i + 1) items) eqn:E; [apply lt_size_true in E; lia|].
      simpl.
      destruct (closest_gap_spec items i v Hi Hgap)
        as (g & on_right & -> & Hg & Hr & Hl & Hside). simpl.
      rewrite (Hside Hlast) in *. simpl. specialize (Hl eq_refl).
      destruct (split_left items g i None) as (A & B & C & -> & HA & HB);
        [exact Hg|lia|].
      rewrite (shift_left_app A B None C) by lia.
      rewrite app_assoc.
      rewrite (assign_middle (A ++ B) None C) by (rewrite size_app; lia).
      eexists; split; [reflexivity|]. split.
      { repeat (rewrite size_app || rewrite size_cons); lia. }
      replace (A ++ None :: B ++ C) with ((A ++ None :: B) ++ C)
        by now rewrite <- app_assoc.
      destruct (cut_app (A ++ None :: B) C (i + 1)) as [-> ->];
        [rewrite size_app, size_cons; lia|].
      values_norm.
  - (* empty *)
    subst c.
    destruct (split_right items i i None) as (A & B & C & -> & HA & HB);
      [apply at_bounds in Hi; lia|exact Hi|].
    assert (B = []) as -> by (apply size_zero_nil; lia). cbn [app].
    rewrite (assign_middle A None C) by lia.
    eexists; split; [reflexivity|]. split.
    { repeat (rewrite size_app || rewrite size_cons); lia. }
    destruct (cut_app A (None :: C) i) as [-> ->]; [lia|].
    values_norm.
Qed.
End Insert.

(** ** Windows: counting, gathering, redistributing *)

Section Windows.
Context {T : Type} {FO : FloatOps}.
Implicit Types (items A B C W : list (option T)) (buffer : list T).

Import packed_memory_array.

Lemma window_split items begin end_ :
  0 <= begin <= end_ -> end_ <= size items ->
  exists A C, items = A ++ window items begin end_ ++ C /\
              size A = begin /\ size (window items begin end_) = end_ - begin.
Proof.
  intros Hb He. exists (take (Z.to_nat begin) items),
    (drop (Z.to_nat (end_ - begin)) (drop (Z.to_nat begin) items)).
  unfold window. split; [|split].
  - now rewrite !take_drop.
  - unfold size in *. rewrite length_take. lia.
  - unfold size in *. rewrite length_take, length_drop. lia.
Qed.

Lemma window_app A W C begin end_ :
  begin = size A -> end_ = size A + size W -> window (A ++ W ++ C) begin end_ = W.
Proof.
  intros -> ->. unfold window.
  destruct (cut_app A (W ++ C) (size A) eq_refl) as [_ ->].
  replace (size A + size W - size A) with (size W) by lia.
  destruct (cut_app W C (size W) eq_refl) as [-> _]. reflexivity.
Qed.

Lemma filter_occupied_length (l : list (option T)) :
  length (filter (fun o => occupied o = true) l) = length (values l).
Proof.
  induction l as [|o l IH]; [reflexivity|].
  destruct o as [v|].
  - rewrite filter_cons_True by reflexivity. simpl. now rewrite IH.
  - rewrite filter_cons_False by discriminate. exact IH.
Qed.

Lemma count_items_spec items begin end_ :
  0 <= begin <= end_ -> end_ <= size items ->
  count_items items begin end_ = Some (total (window items begin end_)).
Proof.
  intros Hb He. unfold count_items.
  destruct (Z.leb_spec 0 begin); [|lia].
  destruct (Z.leb_spec begin end_); [|lia].
  destruct (Z.leb_spec end_ (size items)); [|lia]. simpl.
  unfold total, window. now rewrite filter_occupied_length.
Qed.

Lemma get_items_loop_app W A C buffer i :
  i = size A ->
  get_items_loop (length W) (A ++ W ++ C) i buffer =
  Some (buffer ++ values W, A ++ replicate (length W) None ++ C).
Proof.
  revert A buffer i. induction W as [|o W IH]; intros A buffer i Hi.
  - simpl. now rewrite app_nil_r.
  - simpl. rewrite (at_middle A o (W ++ C)) by exact Hi.
    destruct o as [v|].
    + rewrite (assign_middle A (Some v) (W ++ C)) by exact Hi.
      replace (A ++ None :: W ++ C) with ((A ++ [None]) ++ W ++ C)
        by now rewrite <- app_assoc.
      rewrite IH by (rewrite size_app, size_cons, size_nil; lia).
      rewrite <- !app_assoc. reflexivity.
    + replace (A ++ None :: W ++ C) with ((A ++ [None]) ++ W ++ C)
        by now rewrite <- app_assoc.
      rewrite IH by (rewrite size_app, size_cons, size_nil; lia).
      rewrite <- !app_assoc. reflexivity.
Qed.

(** [get_items] returns the values of the window, in order, and leaves the
    window empty. *)
Lemma get_items_app A W C begin end_ :
  begin = size A -> end_ = size A + size W ->
  get_items (A ++ W ++ C) begin end_ =
  Some (values W, A ++ replicate (length W) None ++ C).
Proof.
  intros -> ->. unfold get_items.
  replace (Z.to_nat (size A + size W - size A)) with (length W) by (unfold size; lia).
  rewrite get_items_loop_app by reflexivity. reflexivity.
Qed.

Lemma rearrange_loop_positions items begin buffer step pos :
  rearrange_loop items begin buffer step pos =
  match positions (length buffer) step pos with
  | Some ps => place_at items begin ps buffer
  | None => None
  end.
Proof.
  revert items pos. induction buffer as [|item rest IH]; intros items pos.
  - reflexivity.
  - simpl. destruct (fround pos) as [r|]; [|reflexivity].
    destruct (assign items (begin + r) (Some item)) as [items'|] eqn:Ha.
    + rewrite IH. destruct (positions (length rest) step (fadd pos step)); [|reflexivity].
      simpl. now rewrite Ha.
    + destruct (positions (length rest) step (fadd pos step)); [|reflexivity].
      simpl. now rewrite Ha.
Qed.

Lemma positions_length n step pos ps :
  positions n step pos = Some ps -> length ps = n.
Proof.
  revert pos ps. induction n as [|n IH]; intros pos ps; simpl.
  - now intros [= <-].
  - destruct (fround pos); [|discriminate].
    destruct (positions n step (fadd pos step)) eqn:E; [|discriminate].
    intros [= <-]. simpl. f_equal. eapply IH. exact E.
Qed.

(** Writing at ascending offsets of an empty stretch keeps the order of the
    buffer. *)
Lemma place_at_app buffer : forall ps A P m C begin,
  length ps = length buffer -> begin = size A ->
  ascending (size P) ps (size P + Z.of_nat m) = true ->
  exists W, place_at (A ++ P ++ replicate m None ++ C) begin ps buffer
            = Some (A ++ W ++ C) /\
            size W = size P + Z.of_nat m /\ values W = values P ++ buffer.
Proof.
  induction buffer as [|x buffer IH]; intros ps A P m C begin Hlen Hb Hasc.
  - destruct ps; [|discriminate].
    exists (P ++ replicate m None). simpl. rewrite <- app_assoc. split; [reflexivity|].
    split; [rewrite size_app, size_replicate; lia|].
    rewrite values_app, values_replicate_None, !app_nil_r. reflexivity.
  - destruct ps as [|p ps]; [discriminate|]. simpl in Hlen, Hasc.
    apply andb_true_iff in Hasc as [Hp Hasc].
    apply andb_true_iff in Hp as [Hlo Hhi].
    apply Z.leb_le in Hlo. apply Z.ltb_lt in Hhi.
    set (a := Z.to_nat (p - size P)).
    set (m' := (m - a - 1)%nat).
    assert (Hm : replicate m (@None T) =
                 replicate a None ++ None :: replicate m' None).
    { replace m with (a + S m')%nat by (unfold a, m'; lia).
      rewrite replicate_add. reflexivity. }
    simpl. rewrite Hm.
    replace (A ++ P ++ (replicate a None ++ None :: replicate m' None) ++ C)
      with ((A ++ P ++ replicate a None) ++ None :: replicate m' None ++ C)
      by (rewrite <- !app_assoc; reflexivity).
    rewrite assign_middle
      by (rewrite !size_app, size_replicate; unfold a; lia).
    replace ((A ++ P ++ replicate a None) ++ Some x :: replicate m' None ++ C)
      with (A ++ (P ++ replicate a None ++ [Some x]) ++ replicate m' None ++ C)
      by (rewrite <- !app_assoc; reflexivity).
    destruct (IH ps A (P ++ replicate a None ++ [Some x]) m' C begin)
      as (W & HW & Hs & Hv); [lia|exact Hb| |].
    { rewrite !size_app, size_replicate, size_cons, size_nil.
      replace (size P + (Z.of_nat a + (1 + 0))) with (p + 1) by (unfold a; lia).
      replace (p + 1 + Z.of_nat m') with (size P + Z.of_nat m)
        by (unfold m', a; lia).
      exact Hasc. }
    exists W. split; [exact HW|]. split.
    + rewrite Hs, !size_app, size_replicate, size_cons, size_nil. unfold m', a. lia.
    + rewrite Hv. rewrite !values_app, values_replicate_None. simpl.
      rewrite <- app_assoc. reflexivity.
Qed.

(** Redistribution over an emptied window, when the offsets are ascending
    inside the window. *)
Lemma rearrange_items_app A C k buffer begin end_ :
  begin = size A -> end_ = begin + Z.of_nat k ->
  spread_ok (Z.of_nat k) (Z.of_nat (length buffer)) = true ->
  exists W, rearrange_items (A ++ replicate k None ++ C) begin end_ buffer
            = Some (A ++ W ++ C) /\
            size W = Z.of_nat k /\ values W = buffer.
Proof.
  intros Hb He Hok. unfold rearrange_items. rewrite rearrange_loop_positions.
  unfold spread_ok, spread in Hok. rewrite Nat2Z.id in Hok.
  replace (end_ - begin) with (Z.of_nat k) by lia.
  destruct (positions (length buffer) _ _) as [ps|] eqn:Hps; [|discriminate].
  destruct (place_at_app buffer ps A [] k C begin) as (W & HW & Hs & Hv).
  - apply positions_length in Hps. exact Hps.
  - exact Hb.
  - rewrite size_nil. exact Hok.
  - exists W. simpl in HW. split; [exact HW|]. rewrite size_nil in Hs. split; [lia|exact Hv].
Qed.

Lemma rearrange_items_nil items begin end_ :
  rearrange_items items begin end_ [] = Some items.
Proof. reflexivity. Qed.
End Windows.

(** ** The implicit tree *)

Section Tree.
Context {T : Type} (chunk_size : Z) (Hchunk : 0 < chunk_size).
Implicit Types (items : list (option T)).

Import packed_memory_array.

Lemma tree_height_pow items h :
  0 <= h -> size items = chunk_size * 2 ^ h ->
  tree_height chunk_size items = Some h.
Proof.
  intros Hh Hs. unfold tree_height.
  destruct (Z.eqb_spec chunk_size 0); [lia|].
  rewrite Hs, Z.mul_comm, Z.div_mul by lia.
  pose proof (Z.pow_pos_nonneg 2 h ltac:(lia) Hh).
  destruct (Z.leb_spec (2 ^ h) 0); [lia|].
  now rewrite Z.log2_pow2.
Qed.

Lemma get_thresholds_pow {FO : FloatOps} items h depth :
  0 <= h -> size items = chunk_size * 2 ^ h ->
  get_thresholds chunk_size items depth =
  Some (lower_at h depth, upper_at h depth).
Proof.
  intros Hh Hs. unfold get_thresholds. rewrite (tree_height_pow items h Hh Hs).
  reflexivity.
Qed.

Lemma shape_height items :
  shape chunk_size items ->
  exists h, 1 <= h /\ size items = chunk_size * 2 ^ h /\
            tree_height chunk_size items = Some h.
Proof.
  intros (h & Hh & Hs). exists h. repeat split; auto.
  apply tree_height_pow; [lia|exact Hs].
Qed.

Lemma pow2_split h d : 0 <= d < h -> 2 ^ h = 2 ^ (h - 1 - d) * 2 ^ (d + 1).
Proof. intros H. rewrite <- Z.pow_add_r by lia. f_equal. lia. Qed.

Lemma pow2_succ n : 0 <= n -> 2 ^ (n + 1) = 2 * 2 ^ n.
Proof. intros H. rewrite Z.pow_add_r by lia. lia. Qed.

Lemma pow2_pos n : 0 <= n -> 0 < 2 ^ n.
Proof. intros. apply Z.pow_pos_nonneg; lia. Qed.

(** The leaf of an index. *)
Lemma leaf_bounds items h i :
  0 <= h -> size items = chunk_size * 2 ^ h -> 0 <= i < size items ->
  let block_begin := (i / chunk_size) * chunk_size in
  0 <= block_begin /\ block_begin <= i < block_begin + chunk_size /\
  block_begin + chunk_size <= size items /\
  exists m, 0 <= m /\ block_begin = m * chunk_size.
Proof.
  intros Hh Hs Hi. cbv zeta.
  pose proof (Z.div_mod i chunk_size ltac:(lia)) as Hdm.
  pose proof (Z.mod_pos_bound i chunk_size Hchunk) as Hmod.
  pose proof (Z.div_pos i chunk_size ltac:(lia) Hchunk) as Hq.
  assert (i / chunk_size < 2 ^ h).
  { apply Z.div_lt_upper_bound; [lia|]. rewrite <- Hs. lia. }
  repeat split; try nia. exists (i / chunk_size). split; lia.
Qed.
End Tree.

(** ** Adjacent windows *)

Section Adjacent.
Context {T : Type}.
Implicit Types (items : list (option T)).

Lemma window_adjacent items a b c :
  0 <= a <= b -> b <= c ->
  window items a c = window items a b ++ window items b c.
Proof.
  intros Hab Hbc. unfold window.
  replace (Z.to_nat (c - a)) with (Z.to_nat (b - a) + Z.to_nat (c - b))%nat by lia.
  rewrite <- take_take_drop. f_equal.
  rewrite drop_drop. f_equal. f_equal. lia.
Qed.

Lemma window_total_bound items a b :
  0 <= a <= b -> 0 <= total (window items a b) <= b - a.
Proof.
  intros H. pose proof (total_bounds (window items a b)) as Hb.
  unfold window in *. unfold size in Hb. rewrite length_take in Hb. lia.
Qed.

Lemma window_whole items : window items 0 (size items) = items.
Proof.
  unfold window. rewrite drop_0. replace (size items - 0) with (size items) by lia.
  unfold size. rewrite Nat2Z.id. apply take_ge. lia.
Qed.

Lemma resize_empty n (k : Z) :
  0 <= k -> resize (replicate n (@None T)) k = replicate (Z.to_nat k) None.
Proof.
  intros Hk. unfold resize. rewrite take_replicate, length_replicate.
  rewrite <- replicate_add. f_equal. lia.
Qed.
End Adjacent.

(** ** The density scan *)

Section Scan.
Context {T : Type} (chunk_size : Z) {FO : FloatOps} (B : Z).
Context (Hchunk : 0 < chunk_size) (Hlaws : float_laws chunk_size B).
Implicit Types (items : list (option T)).

Import packed_memory_array.

Lemma law_tests h d c :
  1 <= h -> chunk_size * 2 ^ h <= B -> 0 <= d <= h ->
  0 <= c <= chunk_size * 2 ^ (h - d) + 1 ->
  fle (lower_at h d) (density_of c (chunk_size * 2 ^ (h - d)))
    = (chunk_size * 2 ^ (h - d) * (2 * h - d) <=? 4 * c * h) /\
  fle (density_of c (chunk_size * 2 ^ (h - d))) (upper_at h d)
    = (4 * c * h <=? chunk_size * 2 ^ (h - d) * (3 * h + d)) /\
  flt (upper_at h d) (density_of c (chunk_size * 2 ^ (h - d)))
    = (chunk_size * 2 ^ (h - d) * (3 * h + d) <? 4 * c * h) /\
  flt (density_of c (chunk_size * 2 ^ (h - d))) (lower_at h d)
    = (4 * c * h <? chunk_size * 2 ^ (h - d) * (2 * h - d)).
Proof.
  intros Hh HB Hd Hc. destruct (Hlaws h Hh HB) as [Ht _].
  specialize (Ht d c Hd Hc). unfold tests_agree in Ht.
  repeat (apply andb_true_iff in Ht as [Ht ?]).
  repeat split; apply eqb_prop; assumption.
Qed.

Lemma law_spread j n :
  1 <= j -> chunk_size * 2 ^ j <= B -> 1 <= n <= chunk_size * 2 ^ j ->
  spread_ok (chunk_size * 2 ^ j) n = true.
Proof. intros Hj HB Hn. destruct (Hlaws j Hj HB) as [_ Hs]. auto. Qed.

Lemma scan_rec_eq fuel items begin end_ accum_count depth :
  scan_rec chunk_size fuel items begin end_ accum_count depth =
  let depth_block_size := end_ - begin in
  if depth_block_size =? 0 then None else
  let is_left := Z.rem (Z.quot begin depth_block_size) 2 =? 0 in
  let sibling_begin := if is_left then end_ else begin - depth_block_size in
  let sibling_end := sibling_begin + depth_block_size in
  match count_items items sibling_begin sibling_end with
  | None => None
  | Some sibling_count =>
  match get_thresholds chunk_size items depth with
  | None => None
  | Some th =>
  let lower := fst th in
  let upper := snd th in
  let density := fdiv (of_int (accum_count + sibling_count))
                      (of_int (depth_block_size * 2)) in
  let parent_begin := if is_left then begin else sibling_begin in
  let parent_end := if is_left then sibling_end else end_ in
  if fle lower density && fle density upper then
    match get_items items parent_begin parent_end with
    | None => None
    | Some b => rearrange_items (snd b) parent_begin parent_end (fst b)
    end
  else if depth =? 0 then
    match get_items items 0 (size items) with
    | None => None
    | Some b =>
    let items1 := snd b in
    let items2 :=
      if flt upper density then resize items1 (size items1 * 2)
      else if flt density lower && (chunk_size * 2 <? size items1)
           then resize items1 (size items1 / 2)
           else items1 in
    match fst b with
    | [] => Some items2
    | _ :: _ => rearrange_items items2 0 (size items2) (fst b)
    end
    end
  else
    match fuel with
    | O => None
    | S fuel' =>
        scan_rec chunk_size fuel' items parent_begin parent_end
                 (accum_count + sibling_count) (depth - 1)
    end
  end end.
Proof. destruct fuel; reflexivity. Qed.

(** Gathering a window and spreading it again keeps the values of the
    array. *)
Lemma respread_app A W C pb pe j :
  1 <= j -> chunk_size * 2 ^ j <= B ->
  size A = pb -> size W = chunk_size * 2 ^ j -> pe = pb + size W ->
  exists items',
    (match get_items (A ++ W ++ C) pb pe with
     | None => None
     | Some b => rearrange_items (snd b) pb pe (fst b)
     end) = Some items' /\
    values items' = values (A ++ W ++ C) /\ size items' = size (A ++ W ++ C).
Proof.
  intros Hj HB HA HW Hpe.
  rewrite (get_items_app A W C) by lia. simpl.
  destruct (values W) as [|x buffer] eqn:Hvals.
  - exists (A ++ replicate (length W) None ++ C). split; [reflexivity|]. split.
    + values_norm. rewrite values_replicate_None, Hvals. reflexivity.
    + repeat (rewrite size_app || rewrite size_replicate). reflexivity.
  - rewrite <- Hvals.
    destruct (rearrange_items_app A C (length W) (values W) pb pe)
      as (W' & HW' & Hs & Hv); [lia|unfold size in *; lia| |].
    + replace (Z.of_nat (length W)) with (chunk_size * 2 ^ j) by (unfold size in HW; lia).
      apply law_spread; auto.
      pose proof (total_bounds W) as Hb. unfold total in Hb. rewrite Hvals in *.
      simpl length in *. lia.
    + exists (A ++ W' ++ C). split; [exact HW'|]. split.
      * values_norm. now rewrite Hv.
      * repeat rewrite size_app. unfold size in *. lia.
Qed.

Lemma respread items pb pe j :
  1 <= j -> chunk_size * 2 ^ j <= B ->
  0 <= pb -> pe = pb + chunk_size * 2 ^ j -> pe <= size items ->
  exists items',
    (match get_items items pb pe with
     | None => None
     | Some b => rearrange_items (snd b) pb pe (fst b)
     end) = Some items' /\
    values items' = values items /\ size items' = size items.
Proof.
  intros Hj HB Hpb Hpe Hsz.
  pose proof (pow2_pos j ltac:(lia)) as Hpow.
  destruct (window_split items pb pe) as (A & C & Heq & HA & HW); [nia|lia|].
  remember (window items pb pe) as W eqn:HeqW. clear HeqW. subst items.
  apply (respread_app A W C pb pe j); auto; lia.
Qed.
End Scan.

Section ScanRoot.
Context {T : Type} (chunk_size : Z) {FO : FloatOps} (B : Z).
Context (Hchunk : 0 < chunk_size) (Hlaws : float_laws chunk_size B).
Implicit Types (items : list (option T)).

Import packed_memory_array.

Lemma rearrange_empty k (buffer : list T) :
  spread_ok (Z.of_nat k) (Z.of_nat (length buffer)) = true ->
  exists W : list (option T),
    rearrange_items (replicate k None) 0 (Z.of_nat k) buffer = Some W /\
    size W = Z.of_nat k /\ values W = buffer.
Proof.
  intros Hok.
  destruct (rearrange_items_app (@nil (option T)) [] k buffer 0 (Z.of_nat k))
    as (W & HW & Hs & Hv); [reflexivity|lia|exact Hok|].
  simpl in HW. rewrite !app_nil_r in HW. eauto.
Qed.

Lemma shape_intro items h :
  1 <= h -> size items = chunk_size * 2 ^ h -> shape chunk_size items.
Proof. intros. exists h. auto. Qed.

(** The root case: everything is gathered, the capacity doubles, halves or
    stays, and the items are spread over the new capacity. *)
Lemma reroot items h c (up lo : bool) :
  1 <= h -> size items = chunk_size * 2 ^ h -> 2 * size items <= B ->
  total items <= c ->
  up = (size items * (3 * h) <? 4 * c * h) ->
  lo = (4 * c * h <? size items * (2 * h)) ->
  (size items * (2 * h) <=? 4 * c * h) && (4 * c * h <=? size items * (3 * h)) = false ->
  exists items',
    (match get_items items 0 (size items) with
     | None => None
     | Some b =>
         let items1 := snd b in
         let items2 :=
           if up then resize items1 (size items1 * 2)
           else if lo && (chunk_size * 2 <? size items1)
                then resize items1 (size items1 / 2)
                else items1 in
         match fst b with
         | [] => Some items2
         | _ :: _ => rearrange_items items2 0 (size items2) (fst b)
         end
     end) = Some items' /\
    values items' = values items /\ shape chunk_size items' /\
    size items' <= 2 * size items /\ total items' < size items'.
Proof.
  intros Hh Hs HB Hc Hup Hlo Hout.
  pose proof (pow2_pos h ltac:(lia)) as Hpow.
  pose proof (total_bounds items) as Htb.
  assert (Hsize : 0 < size items) by nia.
  replace (get_items items 0 (size items))
    with (get_items ([] ++ items ++ []) 0 (size items))
    by (simpl; now rewrite app_nil_r).
  rewrite (get_items_app [] items [] 0 (size items) eq_refl eq_refl).
  cbv zeta. simpl fst. simpl snd. simpl app. rewrite app_nil_r.
  rewrite size_replicate. fold (size items).
  set (n := total items) in *.
  assert (Hcases :
    exists k j, 1 <= j /\ Z.of_nat k = chunk_size * 2 ^ j /\ Z.of_nat k <= B /\
      Z.of_nat k <= 2 * size items /\ n < Z.of_nat k /\
      (if up then resize (replicate (length items) None) (size items * 2)
       else if lo && (chunk_size * 2 <? size items)
            then resize (replicate (length items) None) (size items / 2)
            else replicate (length items) None) = replicate k (@None T)).
  { destruct up.
    - exists (Z.to_nat (size items * 2)), (h + 1).
      rewrite resize_empty by lia. rewrite pow2_succ by lia.
      repeat split; try lia.
    - symmetry in Hup. apply Z.ltb_ge in Hup.
      apply andb_false_iff in Hout.
      assert (Hlow : 4 * c * h < size items * (2 * h)).
      { destruct Hout as [H|H]; [apply Z.leb_gt in H; lia|apply Z.leb_gt in H; lia]. }
      assert (2 * c < size items) by nia.
      destruct (lo && (chunk_size * 2 <? size items)) eqn:Hhalf.
      + apply andb_true_iff in Hhalf as [_ Hbig]. apply Z.ltb_lt in Hbig.
        assert (2 <= h).
        { destruct (Z.eq_dec h 1) as [->|]; [|lia]. rewrite Hs in Hbig. lia. }
        assert (Hhalfsize : size items / 2 = chunk_size * 2 ^ (h - 1)).
        { rewrite Hs. replace h with (h - 1 + 1) at 1 by lia.
          rewrite pow2_succ by lia.
          replace (chunk_size * (2 * 2 ^ (h - 1))) with (chunk_size * 2 ^ (h - 1) * 2) by lia.
          apply Z.div_mul. lia. }
        exists (Z.to_nat (size items / 2)), (h - 1).
        pose proof (pow2_pos (h - 1) ltac:(lia)).
        assert (Hs2 : size items = 2 * (chunk_size * 2 ^ (h - 1))).
        { rewrite Hs. replace h with (h - 1 + 1) at 1 by lia.
          rewrite pow2_succ by lia. lia. }
        rewrite resize_empty by (rewrite Hhalfsize; nia).
        rewrite Hhalfsize.
        repeat split; try lia.
      + exists (length items), h. fold (size items).
        repeat split; try lia. }
  destruct Hcases as (k & j & Hj & Hk & HkB & Hk2 & Hnk & ->).
  rewrite size_replicate.
  destruct (values items) as [|x buffer] eqn:Hvals.
  - exists (replicate k None). split; [reflexivity|].
    rewrite values_replicate_None, total_replicate_None, size_replicate.
    repeat split; try lia. apply (shape_intro _ j); [lia|].
    rewrite size_replicate. exact Hk.
  - rewrite <- Hvals.
    destruct (rearrange_empty k (values items)) as (W & HW & HsW & Hv).
    + rewrite Hk. apply (law_spread chunk_size B Hlaws); try lia.
      assert (Hn : n = Z.of_nat (length (values items))) by reflexivity.
      rewrite Hvals in Hn |- *. simpl length in *. lia.
    + exists W. split; [exact HW|]. repeat split; try lia; auto.
      * apply (shape_intro _ j); [lia|]. lia.
      * unfold total. rewrite Hv. fold (total items). fold n. lia.
Qed.
End ScanRoot.

Section ScanSpec.
Context {T : Type} (chunk_size : Z) {FO : FloatOps} (B : Z).
Context (Hchunk : 0 < chunk_size) (Hlaws : float_laws chunk_size B).
Implicit Types (items : list (option T)).

Import packed_memory_array.

Lemma window_total_le items pb pe :
  0 <= pb <= pe -> pe <= size items ->
  total items <= size items - (pe - pb) + total (window items pb pe).
Proof.
  intros Hb He.
  destruct (window_split items pb pe Hb He) as (A & C & Heq & HA & HW).
  rewrite Heq at 1 2. rewrite !total_app, !size_app.
  pose proof (total_bounds A). pose proof (total_bounds C). lia.
Qed.

(** One level of [scan]: it finishes, or it moves to the parent window,
    which is aligned one level up and inside the array. *)
Lemma scan_step fuel d items b e acc h m :
  1 <= h -> size items = chunk_size * 2 ^ h -> 2 * size items <= B ->
  0 <= d < h -> 0 <= m ->
  b = m * (chunk_size * 2 ^ (h - 1 - d)) ->
  e = b + chunk_size * 2 ^ (h - 1 - d) -> e <= size items ->
  total (window items b e) <= acc <= total (window items b e) + 1 ->
  (exists items', scan_rec chunk_size fuel items b e acc d = Some items' /\
                  scan_post chunk_size items (total (window items b e)) acc items') \/
  (0 < d /\ exists sc pb pe,
      scan_rec chunk_size fuel items b e acc d =
        match fuel with
        | O => None
        | S fuel' => scan_rec chunk_size fuel' items pb pe (acc + sc) (d - 1)
        end /\
      pb = (m / 2) * (chunk_size * 2 ^ (h - 1 - (d - 1))) /\
      pe = pb + chunk_size * 2 ^ (h - 1 - (d - 1)) /\ pe <= size items /\
      total (window items pb pe) = total (window items b e) + sc).
Proof.
  intros Hh Hs HB Hd Hm Hb He Hes Hacc.
  set (w := chunk_size * 2 ^ (h - 1 - d)) in *.
  pose proof (pow2_pos (h - 1 - d) ltac:(lia)) as Hpw.
  pose proof (pow2_pos d ltac:(lia)) as Hpd.
  assert (Hw : 0 < w) by (unfold w; nia).
  assert (HW2 : chunk_size * 2 ^ (h - d) = w * 2).
  { unfold w. replace (h - d) with (h - 1 - d + 1) by lia.
    rewrite pow2_succ by lia. lia. }
  assert (Hsw : size items = w * (2 * 2 ^ d)).
  { rewrite Hs. unfold w. rewrite (pow2_split h d) by lia.
    rewrite pow2_succ by lia. lia. }
  assert (Hparent : chunk_size * 2 ^ (h - 1 - (d - 1)) = w * 2).
  { rewrite <- HW2. f_equal. f_equal. lia. }
  pose proof (Z.div_mod m 2 ltac:(lia)) as Hdm.
  pose proof (Z.mod_pos_bound m 2 ltac:(lia)) as Hmod.
  set (q := m / 2) in *.
  assert (Hq : 0 <= q) by (unfold q; apply Z.div_pos; lia).
  assert (Hm2 : m + 1 <= 2 * 2 ^ d) by nia.
  assert (Hq2 : 2 * q + 2 <= 2 * 2 ^ d) by lia.
  rewrite scan_rec_eq. cbv zeta.
  replace (e - b) with w by lia.
  destruct (Z.eqb_spec w 0) as [|_]; [lia|].
  replace (Z.quot b w) with m by (rewrite Hb; symmetry; apply Z.quot_mul; lia).
  rewrite Z.rem_mod_nonneg by lia.
  (* sibling and parent windows *)
  assert (Hgeo : exists sb pb pe,
    (if m mod 2 =? 0 then e else b - w) = sb /\
    (if m mod 2 =? 0 then b else sb) = pb /\
    (if m mod 2 =? 0 then sb + w else e) = pe /\
    0 <= sb /\ sb + w <= size items /\
    pb = q * (w * 2) /\ pe = pb + w * 2 /\ pe <= size items /\
    total (window items pb pe) =
      total (window items b e) + total (window items sb (sb + w))).
  { destruct (Z.eqb_spec (m mod 2) 0) as [Hpar|Hpar].
    - exists e, b, (e + w). repeat split; try nia.
      rewrite (window_adjacent items b e (e + w)) by nia.
      now rewrite total_app.
    - exists (b - w), (b - w), e. repeat split; try nia.
      rewrite (window_adjacent items (b - w) b e) by nia.
      rewrite total_app. replace (b - w + w) with b by lia. lia. }
  destruct Hgeo as (sb & pb & pe & -> & -> & -> & Hsb0 & Hsb1 & Hpb & Hpe & Hpes & Htot).
  rewrite (count_items_spec items sb (sb + w)) by lia.
  set (sc := total (window items sb (sb + w))) in *.
  pose proof (window_total_bound items sb (sb + w) ltac:(lia)) as Hscb.
  pose proof (window_total_bound items b e ltac:(lia)) as Hwb.
  rewrite (get_thresholds_pow chunk_size Hchunk items h d) by (auto; lia).
  simpl fst. simpl snd.
  replace (w * 2) with (chunk_size * 2 ^ (h - d)) by lia.
  change (fdiv (of_int (acc + sc)) (of_int (chunk_size * 2 ^ (h - d))))
    with (density_of (acc + sc) (chunk_size * 2 ^ (h - d))).
  destruct (law_tests chunk_size B Hlaws h d (acc + sc))
    as (Hle1 & Hle2 & Hup & Hlo); try lia.
  destruct (fle (lower_at h d) (density_of (acc + sc) (chunk_size * 2 ^ (h - d))) &&
            fle (density_of (acc + sc) (chunk_size * 2 ^ (h - d))) (upper_at h d))
    eqn:Hin.
  - (* the parent window is within its thresholds *)
    left. rewrite Hle1, Hle2 in Hin. apply andb_true_iff in Hin as [_ Hin].
    apply Z.leb_le in Hin.
    destruct (respread chunk_size B Hchunk Hlaws items pb pe (h - d))
      as (items' & -> & Hv & Hsz); try lia; try (rewrite ?HW2; nia).
    exists items'. split; [reflexivity|]. split; [exact Hv|]. split.
    { exists h. rewrite Hsz. auto. }
    split; [lia|]. intros Hpush.
    assert (Hc : acc + sc < w * 2) by (rewrite HW2 in Hin; nia).
    pose proof (window_total_le items pb pe ltac:(nia) Hpes) as Hle.
    unfold total at 1. rewrite Hv. fold (total items). lia.
  - destruct (Z.eqb_spec d 0) as [Hd0|Hd0].
    + (* the root *)
      left. subst d. replace (h - 0) with h in * by lia.
      rewrite <- Hs in *.
      assert (Hall : total items = total (window items pb pe)).
      { replace pb with 0 by nia. replace pe with (size items) by nia.
        now rewrite window_whole. }
      rewrite Hle1, Hle2 in Hin.
      destruct (reroot chunk_size B Hchunk Hlaws items h (acc + sc)
                  (flt (upper_at h 0) (density_of (acc + sc) (size items)))
                  (flt (density_of (acc + sc) (size items)) (lower_at h 0)))
        as (items' & Hr & Hv & Hshape & Hsz & Hgap); auto; try lia.
      { rewrite Hup. f_equal. lia. }
      { rewrite Hlo. f_equal. lia. }
      exists items'. split; [exact Hr|]. repeat split; auto.
    + (* one level up *)
      right. split; [lia|]. exists sc, pb, pe.
      split; [reflexivity|]. rewrite Hparent. fold q. repeat split; auto.
Qed.

Lemma scan_rec_spec fuel : forall d items b e acc h m,
  1 <= h -> size items = chunk_size * 2 ^ h -> 2 * size items <= B ->
  0 <= d < h -> (Z.to_nat d <= fuel)%nat -> 0 <= m ->
  b = m * (chunk_size * 2 ^ (h - 1 - d)) ->
  e = b + chunk_size * 2 ^ (h - 1 - d) -> e <= size items ->
  total (window items b e) <= acc <= total (window items b e) + 1 ->
  exists items', scan_rec chunk_size fuel items b e acc d = Some items' /\
                 scan_post chunk_size items (total (window items b e)) acc items'.
Proof.
  induction fuel as [|fuel IH]; intros d items b e acc h m Hh Hs HB Hd Hfuel Hm Hb He Hes Hacc.
  - destruct (scan_step 0 d items b e acc h m) as [Hdone|[Hpos _]]; auto. lia.
  - destruct (scan_step (S fuel) d items b e acc h m)
      as [Hdone|(Hpos & sc & pb & pe & -> & Hpb & Hpe & Hpes & Htot)]; auto.
    destruct (IH (d - 1) items pb pe (acc + sc) h (m / 2))
      as (items' & Hr & Hv & Hshape & Hsz & Hgap); auto; try lia.
    { apply Z.div_pos; lia. }
    exists items'. split; [exact Hr|]. repeat split; auto.
    intros Hpush. apply Hgap. lia.
Qed.

Lemma scan_spec items b e acc h d m :
  1 <= h -> size items = chunk_size * 2 ^ h -> 2 * size items <= B ->
  0 <= d < h -> 0 <= m ->
  b = m * (chunk_size * 2 ^ (h - 1 - d)) ->
  e = b + chunk_size * 2 ^ (h - 1 - d) -> e <= size items ->
  total (window items b e) <= acc <= total (window items b e) + 1 ->
  exists items', scan chunk_size items b e acc d = Some items' /\
                 scan_post chunk_size items (total (window items b e)) acc items'.
Proof.
  intros. unfold scan. eapply scan_rec_spec; eauto. lia.
Qed.
End ScanSpec.

(** ** Where a new value belongs *)

Section Cut.
Context {T : Type} (less : T -> T -> bool) (Hord : strict_order less).
Implicit Types (items : list (option T)) (t : T).

Lemma stored_values items t :
  stored less items t <-> exists v, v ∈ values items /\ equivalent less v t.
Proof.
  split.
  - intros (i & v & Hi & Heq). exists v. split; [|exact Heq].
    apply elem_of_values. apply at_Some in Hi as [_ Hi]. eauto.
  - intros (v & Hv & Heq). apply elem_of_values in Hv as [i Hi].
    exists (Z.of_nat i), v. split; [|exact Heq].
    apply at_Some. rewrite Nat2Z.id. split; [|exact Hi].
    apply lookup_lt_Some in Hi. unfold size. lia.
Qed.

Lemma located_insertion items t i :
  ~ stored less items t -> located less items t i -> 0 <= i < size items ->
  exists c, 0 <= c /\ bracket less items t c (c - 1) /\
            insertion_point less items t i c.
Proof.
  intros Habsent Hloc Hi. destruct (at_in_range items i Hi) as [o Ho].
  destruct Hloc as [v Hv Heq | Hbr | Hlast Hbr].
  - exfalso. apply Habsent. exists i, v. auto.
  - exists i. split; [lia|]. split; [exact Hbr|].
    unfold insertion_point. rewrite Ho. destruct o as [v|]; [|reflexivity].
    left. destruct Hbr as [_ Hr]. pose proof (Hr i v ltac:(lia) Ho) as Htv.
    split; [exact Htv|]. split; [|reflexivity]. apply (less_asym less Hord). exact Htv.
  - destruct o as [v|].
    + exists (size items). split; [lia|]. split; [exact Hbr|].
      unfold insertion_point. rewrite Ho. right.
      destruct Hbr as [Hl _]. pose proof (Hl i v ltac:(lia) Ho) as Hvt.
      split; [exact Hvt|]. split; [apply (less_asym less Hord); exact Hvt|]. lia.
    + exists i. split; [lia|]. split.
      * destruct Hbr as [Hl _]. split.
        -- intros j v Hj Hv. apply (Hl j); [lia|exact Hv].
        -- intros j v Hj Hv. pose proof (at_bounds _ _ _ Hv).
           assert (j = i) as -> by lia. congruence.
      * unfold insertion_point. rewrite Ho. reflexivity.
Qed.

Lemma bracket_Forall items t c :
  0 <= c -> bracket less items t c (c - 1) ->
  Forall (fun x => less x t = true) (values (take (Z.to_nat c) items)) /\
  Forall (fun x => less t x = true) (values (drop (Z.to_nat c) items)).
Proof.
  intros Hc [Hl Hr]. split; apply Forall_forall; intros v Hv;
    apply elem_of_values in Hv as [j Hj].
  - apply lookup_take_Some in Hj as [Hj Hlt].
    apply (Hl (Z.of_nat j)); [lia|].
    apply at_Some. rewrite Nat2Z.id. split; [|exact Hj].
    apply lookup_lt_Some in Hj. unfold size. lia.
  - rewrite lookup_drop in Hj.
    apply (Hr (Z.of_nat (Z.to_nat c + j))); [lia|].
    apply at_Some. rewrite Nat2Z.id. split; [|exact Hj].
    apply lookup_lt_Some in Hj. unfold size. lia.
Qed.

Lemma sorted_insert (L R : list T) t :
  StronglySorted (precedes less) (L ++ R) ->
  Forall (fun x => less x t = true) L -> Forall (fun x => less t x = true) R ->
  StronglySorted (precedes less) (L ++ t :: R).
Proof.
  induction L as [|x L IH]; intros Hs HL HR; simpl in *.
  - constructor; [exact Hs|]. apply List.Forall_forall. intros y Hy.
    rewrite Forall_forall in HR. apply HR. apply list_elem_of_In. exact Hy.
  - apply StronglySorted_inv in Hs as [Hs Hx]. apply Forall_cons in HL as [Hxt HL].
    constructor; [apply IH; auto|].
    rewrite List.Forall_forall in *. intros y Hy.
    apply List.in_app_or in Hy as [Hy|[<-|Hy]].
    + apply Hx. apply List.in_or_app. auto.
    + exact Hxt.
    + apply Hx. apply List.in_or_app. auto.
Qed.

Lemma sorted_remove (L R : list T) x :
  StronglySorted (precedes less) (L ++ x :: R) ->
  StronglySorted (precedes less) (L ++ R).
Proof.
  induction L as [|y L IH]; intros Hs; simpl in *.
  - apply StronglySorted_inv in Hs. tauto.
  - apply StronglySorted_inv in Hs as [Hs Hy]. constructor; [auto|].
    rewrite List.Forall_forall in *. intros z Hz. apply Hy.
    apply List.in_app_or in Hz as [Hz|Hz]; apply List.in_or_app; simpl; auto.
Qed.
End Cut.

(** ** Insertion and erasure *)

Section Operations.
Context {T : Type} (less : T -> T -> bool) (Hord : strict_order less).
Context (chunk_size : Z) {FO : FloatOps} (B : Z).
Context (Hchunk : 0 < chunk_size) (Hlaws : float_laws chunk_size B).
Implicit Types (items : list (option T)) (t : T).

Import packed_memory_array.

Lemma shape_size_pos items : shape chunk_size items -> 0 < size items.
Proof.
  intros (h & Hh & Hs). pose proof (pow2_pos h ltac:(lia)). nia.
Qed.

Lemma leaf_density_law h c :
  1 <= h -> chunk_size * 2 ^ h <= B -> 0 <= c <= chunk_size + 1 ->
  flt (upper_at h h) (density_of c chunk_size) = (chunk_size <? c) /\
  flt (density_of c chunk_size) (lower_at h h) = (4 * c <? chunk_size).
Proof.
  intros Hh HB Hc.
  destruct (law_tests chunk_size B Hlaws h h c) as (_ & _ & Hup & Hlo); try lia.
  { replace (h - h) with 0 by lia. simpl. lia. }
  replace (chunk_size * 2 ^ (h - h)) with chunk_size in *
    by (replace (h - h) with 0 by lia; simpl; lia).
  rewrite Hup, Hlo. split.
  - destruct (Z.ltb_spec (chunk_size * (3 * h + h)) (4 * c * h));
      destruct (Z.ltb_spec chunk_size c); try reflexivity; nia.
  - destruct (Z.ltb_spec (4 * c * h) (chunk_size * (2 * h - h)));
      destruct (Z.ltb_spec (4 * c) chunk_size); try reflexivity; nia.
Qed.

(** The first part of [push] hands [insert] an array with the same
    values, a free slot, and the index the search gives in it. *)
Lemma push_target_spec items t :
  shape chunk_size items -> 2 * size items <= B ->
  exists items1 i1,
    push_target less chunk_size items t = Some (items1, i1) /\
    values items1 = values items /\ shape chunk_size items1 /\
    size items1 <= 2 * size items /\ total items1 < size items1 /\
    index_of less items1 t = Some i1 /\ 0 <= i1 < size items1.
Proof.
  intros Hshape HB. pose proof (shape_size_pos items Hshape) as Hpos.
  destruct Hshape as (h & Hh & Hs).
  unfold push_target.
  destruct (index_of_bounds less items t Hpos) as (i & Hi & Hib). rewrite Hi.
  destruct (leaf_bounds chunk_size Hchunk items h i ltac:(lia) Hs Hib)
    as (Hb0 & Hbi & Hbe & m & Hm & Hbm).
  set (bb := i / chunk_size * chunk_size) in *.
  rewrite (count_items_spec items bb (bb + chunk_size)) by lia.
  set (cnt := total (window items bb (bb + chunk_size))).
  pose proof (window_total_bound items bb (bb + chunk_size) ltac:(lia)) as Hcnt.
  fold cnt in Hcnt.
  rewrite (tree_height_pow chunk_size Hchunk items h) by (auto; lia).
  rewrite (get_thresholds_pow chunk_size Hchunk items h h) by (auto; lia).
  simpl snd. replace (bb + chunk_size - bb) with chunk_size by lia.
  change (fdiv (of_int (cnt + 1)) (of_int chunk_size))
    with (density_of (cnt + 1) chunk_size).
  destruct (leaf_density_law h (cnt + 1)) as [-> _]; try lia.
  destruct (Z.ltb_spec chunk_size (cnt + 1)) as [Hfull|Hroom].
  - destruct (scan_spec chunk_size B Hchunk Hlaws items bb (bb + chunk_size)
                (cnt + 1) h (h - 1) m)
      as (items' & -> & Hv & Hsh & Hsz & Hgap); try lia.
    { replace (h - 1 - (h - 1)) with 0 by lia. rewrite Z.pow_0_r, Z.mul_1_r. exact Hbm. }
    { replace (h - 1 - (h - 1)) with 0 by lia. rewrite Z.pow_0_r, Z.mul_1_r. reflexivity. }
    fold cnt in Hgap.
    destruct (index_of_bounds less items' t (shape_size_pos items' Hsh))
      as (i' & Hi' & Hib').
    rewrite Hi'. exists items', i'. repeat split; auto; lia.
  - exists items, i. repeat split; auto; try lia.
    + exists h. auto.
    + pose proof (window_total_le items bb (bb + chunk_size) ltac:(lia) ltac:(lia)).
      fold cnt in H. lia.
Qed.

(** [push] of a value that is not stored: it is added at its place. *)
Lemma push_spec items t :
  shape chunk_size items -> 2 * size items <= B ->
  increasing less items -> ~ stored less items t ->
  exists items' L R,
    push less chunk_size items t = Some items' /\
    values items = L ++ R /\ values items' = L ++ t :: R /\
    shape chunk_size items' /\ size items' <= 2 * size items /\
    increasing less items'.
Proof.
  intros Hshape HB Hinc Habsent. unfold push.
  destruct (push_target_spec items t Hshape HB)
    as (items1 & i1 & -> & Hv & Hsh & Hsz & Hgap & Hi1 & Hib).
  simpl fst. simpl snd.
  assert (Hinc1 : increasing less items1) by (unfold increasing; now rewrite Hv).
  assert (Habs1 : ~ stored less items1 t).
  { rewrite stored_values, Hv, <- stored_values. exact Habsent. }
  pose proof (index_of_located less Hord items1 t i1 Hinc1 Hi1) as Hloc.
  destruct (located_insertion less Hord items1 t i1 Habs1 Hloc Hib)
    as (c & Hc & Hbr & Hpt).
  destruct (insert_spec less items1 t i1 c Hgap Hpt) as (items' & -> & Hsz' & Hv').
  destruct (bracket_Forall less items1 t c Hc Hbr) as [HL HR].
  exists items', (values (take (Z.to_nat c) items1)),
         (values (drop (Z.to_nat c) items1)).
  split; [reflexivity|]. split; [rewrite <- Hv; apply values_take_drop|].
  split; [exact Hv'|]. split.
  { destruct Hsh as (h & Hh & Hs). exists h. rewrite Hsz'. auto. }
  split; [lia|].
  apply strong_increasing. rewrite Hv'. apply sorted_insert; auto.
  rewrite <- values_take_drop. apply (increasing_strong less Hord). exact Hinc1.
Qed.

Lemma values_assign_None items i v items1 :
  at_ items i = Some (Some v) -> assign items i None = Some items1 ->
  exists L R, values items = L ++ v :: R /\ values items1 = L ++ R.
Proof.
  intros Hi Ha.
  destruct (split_right items i i (Some v)) as (A & W & C & -> & HA & HW);
    [apply at_bounds in Hi; lia|exact Hi|].
  assert (W = []) as -> by (apply size_zero_nil; lia). cbn [app] in *.
  rewrite (assign_middle A (Some v) C) in Ha by lia. injection Ha as <-.
  exists (values A), (values C). split; values_norm.
Qed.

(** [remove]: the array keeps its shape and stays increasing. *)
Lemma remove_spec items t :
  shape chunk_size items -> 2 * size items <= B -> increasing less items ->
  exists items',
    remove less chunk_size items t = Some items' /\
    shape chunk_size items' /\ size items' <= 2 * size items /\
    increasing less items' /\
    (values items' = values items \/
     exists L v R, values items = L ++ v :: R /\ values items' = L ++ R /\
                   equivalent less v t).
Proof.
  intros Hshape HB Hinc. pose proof (shape_size_pos items Hshape) as Hpos.
  pose proof Hshape as (h & Hh & Hs).
  unfold remove.
  destruct (index_of_bounds less items t Hpos) as (i & Hi & Hib). rewrite Hi.
  destruct (at_in_range items i Hib) as [o Ho]. rewrite Ho.
  destruct o as [v|]; [|exists items; repeat split; auto; lia].
  destruct (equal less v t) eqn:Heq; simpl;
    [|exists items; repeat split; auto; lia].
  apply equal_equivalent in Heq.
  rewrite (assign_in_range items i None Hib).
  set (items1 := <[Z.to_nat i := None]> items).
  assert (Ha : assign items i None = Some items1) by (apply assign_in_range; exact Hib).
  pose proof (size_assign _ _ _ _ Ha) as Hs1.
  destruct (values_assign_None items i v items1 Ho Ha) as (L & R & HvL & Hv1).
  assert (Hinc1 : increasing less items1).
  { apply strong_increasing. rewrite Hv1. apply (sorted_remove less L R v).
    rewrite <- HvL. apply (increasing_strong less Hord). exact Hinc. }
  destruct (leaf_bounds chunk_size Hchunk items h i ltac:(lia) Hs Hib)
    as (Hb0 & Hbi & Hbe & m & Hm & Hbm).
  set (bb := i / chunk_size * chunk_size) in *.
  rewrite (count_items_spec items1 bb (bb + chunk_size)) by lia.
  set (cnt := total (window items1 bb (bb + chunk_size))).
  pose proof (window_total_bound items1 bb (bb + chunk_size) ltac:(lia)) as Hcnt.
  fold cnt in Hcnt.
  rewrite (tree_height_pow chunk_size Hchunk items1 h) by (auto; lia).
  rewrite (get_thresholds_pow chunk_size Hchunk items1 h h) by (auto; lia).
  simpl fst. replace (bb + chunk_size - bb) with chunk_size by lia.
  change (fdiv (of_int cnt) (of_int chunk_size)) with (density_of cnt chunk_size).
  destruct (leaf_density_law h cnt) as [_ ->]; try lia.
  destruct (Z.ltb_spec (4 * cnt) chunk_size) as [Hsparse|Hdense].
  - destruct (scan_spec chunk_size B Hchunk Hlaws items1 bb (bb + chunk_size)
                cnt h (h - 1) m)
      as (items' & -> & Hv & Hsh & Hsz & Hgap); try lia.
    { replace (h - 1 - (h - 1)) with 0 by lia. rewrite Z.pow_0_r, Z.mul_1_r. exact Hbm. }
    { replace (h - 1 - (h - 1)) with 0 by lia. rewrite Z.pow_0_r, Z.mul_1_r. reflexivity. }
    exists items'. split; [reflexivity|]. split; [exact Hsh|]. split; [lia|].
    split; [unfold increasing; rewrite Hv; exact Hinc1|].
    right. exists L, v, R. rewrite Hv. auto.
  - exists items1. split; [reflexivity|]. split; [exists h; split; [auto|lia]|].
    split; [lia|]. split; [exact Hinc1|].
    right. exists L, v, R. auto.
Qed.
End Operations.

(** ** Checking the arithmetic by computation *)

Section Check.
Context {FO : FloatOps} (chunk_size : Z).

Lemma In_zrange a n x : List.In x (zrange a n) <-> a <= x < a + Z.of_nat n.
Proof.
  unfold zrange. rewrite List.in_map_iff. split.
  - intros (i & <- & Hi). apply List.in_seq in Hi. lia.
  - intros Hx. exists (Z.to_nat (x - a)). split; [lia|].
    apply List.in_seq. lia.
Qed.

Lemma float_check_sound B :
  0 < chunk_size -> float_check chunk_size B = true -> float_laws chunk_size B.
Proof.
  intros Hchunk Hcheck h Hh HB. unfold float_check in Hcheck.
  rewrite List.forallb_forall in Hcheck.
  pose proof (pow2_pos h ltac:(lia)) as Hpow.
  assert (Hlog : h <= Z.log2 B).
  { apply Z.log2_le_pow2; nia. }
  specialize (Hcheck h). rewrite In_zrange in Hcheck.
  destruct (Z.leb_spec (chunk_size * 2 ^ h) B); [|lia].
  apply andb_true_iff in Hcheck as [Htests Hspread]; [|lia].
  rewrite List.forallb_forall in Htests, Hspread. split.
  - intros d c Hd Hc. specialize (Htests d). rewrite In_zrange in Htests.
    specialize (Htests ltac:(lia)). rewrite List.forallb_forall in Htests.
    apply Htests. apply In_zrange.
    pose proof (pow2_pos (h - d) ltac:(lia)). nia.
  - intros n Hn. apply Hspread. apply In_zrange. lia.
Qed.
End Check.

(** ** Reachable stores *)

Section ReachableFacts.
Context {T : Type} (less : T -> T -> bool) (Hord : strict_order less).
Context (chunk_size : Z) {FO : FloatOps} (B : Z).
Context (Hchunk : 0 < chunk_size) (Hlaws : float_laws chunk_size B).
Implicit Types (items : list (option T)) (t : T).

Lemma empty_store_shape :
  shape chunk_size (packed_memory_array.empty_store (T := T) chunk_size).
Proof.
  exists 1. split; [lia|]. unfold packed_memory_array.empty_store.
  rewrite size_replicate. rewrite Z.pow_1_r. lia.
Qed.

Lemma empty_store_increasing :
  increasing less (packed_memory_array.empty_store (T := T) chunk_size).
Proof.
  unfold increasing, packed_memory_array.empty_store.
  rewrite values_replicate_None. constructor.
Qed.

(** Every reachable store has the shape of the tree and is increasing. *)
Lemma reachable_invariant items :
  reachable less chunk_size B items ->
  shape chunk_size items /\ increasing less items.
Proof.
  induction 1 as [|items t items' Hreach [Hsh Hinc] HB Habs Hpush
                  |items t items' Hreach [Hsh Hinc] HB Hrem].
  - split; [apply empty_store_shape|apply empty_store_increasing].
  - destruct (push_spec less Hord chunk_size B Hchunk Hlaws items t Hsh HB Hinc Habs)
      as (items2 & L & R & Hp & _ & _ & Hsh2 & _ & Hinc2).
    rewrite Hp in Hpush. injection Hpush as <-. auto.
  - destruct (remove_spec less Hord chunk_size B Hchunk Hlaws items t Hsh HB Hinc)
      as (items2 & Hr & Hsh2 & _ & Hinc2 & _).
    rewrite Hr in Hrem. injection Hrem as <-. auto.
Qed.

(** On a reachable store both operations return. *)
Lemma reachable_progress items t :
  reachable less chunk_size B items -> 2 * size items <= B ->
  (~ stored less items t ->
   exists items', packed_memory_array.push less chunk_size items t = Some items') /\
  (exists items', packed_memory_array.remove less chunk_size items t = Some items').
Proof.
  intros Hreach HB. destruct (reachable_invariant items Hreach) as [Hsh Hinc]. split.
  - intros Habs.
    destruct (push_spec less Hord chunk_size B Hchunk Hlaws items t Hsh HB Hinc Habs)
      as (items2 & L & R & Hp & _). eauto.
  - destruct (remove_spec less Hord chunk_size B Hchunk Hlaws items t Hsh HB Hinc)
      as (items2 & Hr & _). eauto.
Qed.
End ReachableFacts.

(** ** The queries: [index_of] and [successor] *)

(** The comparator of [OrderedVector<int>]. *)
Lemma Zltb_strict_order : strict_order Z.ltb.
Proof.
split.
- intros a. apply Z.ltb_irrefl.
- intros a b c Hab Hbc. apply Z.ltb_lt in Hab, Hbc. apply Z.ltb_lt. lia.
Qed.

Section Queries.
Context {T : Type} (less : T -> T -> bool).
Implicit Types (items : list (option T)) (t : T).

(** C4: on a store whose occupied slots are strictly increasing,
    [successor t] (the text of src/packed_memory_array.h and that of
    src/OrderedVector.h) returns a value [r]; if some occupied value is
    strictly greater than [t], [r] is occupied, strictly greater than [t]
    and no occupied value strictly greater than [t] is below [r]; if no
    occupied value is strictly greater than [t] (in particular when no slot
    is occupied), [r] is [t] itself. *)
Theorem successor_least_above items t :
  strict_order less -> increasing less items ->
  exists r,
    packed_memory_array.successor less items t = Some r /\
    OrderedVector.successor less items t = Some r /\
    ((exists q w, at_ items q = Some (Some w) /\ less t w = true) ->
     (exists p, at_ items p = Some (Some r)) /\ less t r = true /\
     forall q w, at_ items q = Some (Some w) -> less t w = true ->
                 less w r = false) /\
    ((forall q w, at_ items q = Some (Some w) -> less t w = false) -> r = t).
Proof.
  intros Hord Hinc. rewrite OrderedVector_successor_same.
  destruct (Z.eq_dec (size items) 0) as [Hz|Hnz].
  - apply size_zero_nil in Hz. subst items. exists t.
    repeat split; try reflexivity.
    + destruct H as (q & w & Hq & _). apply at_bounds in Hq.
      unfold size in Hq. simpl in Hq. lia.
    + destruct H as (q & w & Hq & _). apply at_bounds in Hq.
      unfold size in Hq. simpl in Hq. lia.
    + intros q w Hq. apply at_bounds in Hq. unfold size in Hq. simpl in Hq. lia.
  - pose proof (size_nonneg items).
    destruct (successor_spec less Hord items t ltac:(lia) Hinc)
      as (r & Hr & [(p & Hp & Htr & Hmin) | [-> Hnone]]).
    + exists r. repeat split; auto.
      * eauto.
      * intros Hall. rewrite (Hall p r Hp) in Htr. discriminate.
    + exists t. repeat split; auto.
      * destruct H0 as (q & w & Hq & Hw). rewrite (Hnone q w Hq) in Hw. discriminate.
      * destruct H0 as (q & w & Hq & Hw). rewrite (Hnone q w Hq) in Hw. discriminate.
      * intros q w Hq Hw. rewrite (Hnone q w Hq) in Hw. discriminate.
Qed.

(** C5: on a store whose occupied slots are strictly increasing, for a
    probe [t] equivalent to some occupied item, [index_of t] (both texts)
    returns an index whose slot is occupied by an item equivalent to
    [t]. *)
Theorem index_of_finds_stored items t :
  strict_order less -> increasing less items -> stored less items t ->
  exists i v,
    packed_memory_array.index_of less items t = Some i /\
    OrderedVector.index_of less items t = Some i /\
    at_ items i = Some (Some v) /\ equivalent less v t.
Proof.
  intros Hord Hinc Hst. rewrite OrderedVector_index_of_same.
  assert (Hsize : 0 < size items).
  { destruct Hst as (p & w & Hp & _). apply at_bounds in Hp. lia. }
  destruct (index_of_stored less Hord items t Hsize Hinc Hst)
    as (i & v & Hi & Hv & Heq).
  exists i, v. auto.
Qed.

(** C6: on every array with at least one slot, whatever the slots hold,
    [index_of t] (both texts) returns an index of [0, capacity); when the
    loop is left ([high < low]) the answer is [low], or [capacity - 1] when
    [low] is the capacity; on the all-empty array the answer is index 0. *)
Theorem index_of_in_bounds items t :
  0 < size items ->
  (exists i,
     packed_memory_array.index_of less items t = Some i /\
     OrderedVector.index_of less items t = Some i /\
     0 <= i < size items) /\
  (forall fuel low high, high < low ->
     packed_memory_array.index_of_loop less fuel items t low high =
     Some (if low =? size items then size items - 1 else low)) /\
  (Forall (fun o => o = None) items ->
   packed_memory_array.index_of less items t = Some 0 /\ 0 < size items).
Proof.
  intros Hsize. rewrite OrderedVector_index_of_same. repeat split.
  - destruct (index_of_bounds less items t Hsize) as (i & Hi & Hb).
    exists i. auto.
  - intros fuel low high Hlt. rewrite index_of_loop_eq.
    destruct (Z.leb_spec low high); [lia|].
    destruct (Z.eqb_spec low (size items)) as [->|]; reflexivity.
  - now apply index_of_all_empty.
  - exact Hsize.
Qed.
End Queries.

Lemma successor_least_above_witness :
exists r,
  packed_memory_array.successor Z.ltb
    [Some 1; None; Some 4; None; None; Some 7; None; None] 4 = Some r /\
  OrderedVector.successor Z.ltb
    [Some 1; None; Some 4; None; None; Some 7; None; None] 4 = Some r /\
  ((exists q w, at_ [Some 1; None; Some 4; None; None; Some 7; None; None] q
                = Some (Some w) /\ (4 <? w) = true) ->
   (exists p, at_ [Some 1; None; Some 4; None; None; Some 7; None; None] p
              = Some (Some r)) /\ (4 <? r) = true /\
   forall q w, at_ [Some 1; None; Some 4; None; None; Some 7; None; None] q
               = Some (Some w) -> (4 <? w) = true -> (w <? r) = false) /\
  ((forall q w, at_ [Some 1; None; Some 4; None; None; Some 7; None; None] q
                = Some (Some w) -> (4 <? w) = false) -> r = 4).
Proof.
apply (successor_least_above Z.ltb
         [Some 1; None; Some 4; None; None; Some 7; None; None] 4
         Zltb_strict_order).
unfold increasing. simpl. repeat constructor.
Defined.

Lemma index_of_finds_stored_witness :
exists i v,
  packed_memory_array.index_of Z.ltb
    [Some 1; None; Some 4; None; None; Some 7; None; None] 7 = Some i /\
  OrderedVector.index_of Z.ltb
    [Some 1; None; Some 4; None; None; Some 7; None; None] 7 = Some i /\
  at_ [Some 1; None; Some 4; None; None; Some 7; None; None] i = Some (Some v) /\
  equivalent Z.ltb v 7.
Proof.
apply (index_of_finds_stored Z.ltb
         [Some 1; None; Some 4; None; None; Some 7; None; None] 7
         Zltb_strict_order).
- unfold increasing. simpl. repeat constructor.
- exists 5, 7. split; [reflexivity|]. split; reflexivity.
Defined.

Lemma index_of_in_bounds_witness :
(exists i,
   packed_memory_array.index_of Z.ltb [None; None; None; None] 3 = Some i /\
   OrderedVector.index_of Z.ltb [None; None; None; None] 3 = Some i /\
   0 <= i < size [None; None; None; None (A := Z)]) /\
(forall fuel low high, high < low ->
   packed_memory_array.index_of_loop Z.ltb fuel [None; None; None; None] 3 low high =
   Some (if low =? size [None; None; None; None (A := Z)]
         then size [None; None; None; None (A := Z)] - 1 else low)) /\
(Forall (fun o => o = None) [None; None; None; None (A := Z)] ->
 packed_memory_array.index_of Z.ltb [None; None; None; None] 3 = Some 0 /\
 0 < size [None; None; None; None (A := Z)]).
Proof.
apply (index_of_in_bounds Z.ltb [None; None; None; None] 3).
unfold size. simpl. lia.
Defined.

(** ** The invariants of the store *)

(** Single precision satisfies the laws for [chunk_size = 8] up to capacity
  64. *)
Lemma binary32_laws_64 : float_laws (FO := binary32) 8 64.
Proof. apply float_check_sound; [lia|]. vm_compute. reflexivity. Qed.

Section Absent.
Context {T : Type} (less : T -> T -> bool).

Lemma absent_values (items : list (option T)) (t : T) :
  List.forallb (fun v => less v t || less t v) (values items) = true ->
  ~ stored less items t.
Proof.
  intros Hall Hst. apply stored_values in Hst as (v & Hv & [Hvt Htv]).
  rewrite List.forallb_forall in Hall.
  specialize (Hall v). rewrite Hvt, Htv in Hall.
  assert (false || false = true) as Hf; [|discriminate Hf].
  apply Hall. apply list_elem_of_In. exact Hv.
Qed.
End Absent.

Section Invariants.
Context {T : Type} (less : T -> T -> bool).
Context (chunk_size : Z) {FO : FloatOps} (B : Z).
Implicit Types (items : list (option T)) (t : T).


End Invariants.




(** ** Erasing an absent value in src/OrderedVector.h

  [remove] of src/packed_memory_array.h and src/unnamed/part_000 returns
  at once when the slot found is empty or holds another value
  ([remove_not_stored]). The guard of src/OrderedVector.h returns only
  when the slot is occupied by another value: on an empty slot it goes on
  to [scan], which may redistribute the whole array. *)

(** C2: the driver's commands [INC 1] ... [INC 7], [REM 1], [INC 8] build a
  store of [OrderedVector<int>] that does not hold 9, with the seven
  values packed in slots 1 to 7; [remove 9] then moves six of them to
  other slots. *)
Theorem OrderedVector_remove_absent_rearranges :
exists items items',
  run (OrderedVector.push (FO := binary32) Z.ltb 8)
      (OrderedVector.remove (FO := binary32) Z.ltb 8)
      [INC 1; INC 2; INC 3; INC 4; INC 5; INC 6; INC 7; REM 1; INC 8]
      (OrderedVector.empty_store 8) = Some items /\
  items = [None; Some 2; Some 3; Some 4; Some 5; Some 6; Some 7; Some 8;
           None; None; None; None; None; None; None; None] /\
  ~ stored Z.ltb items 9 /\
  OrderedVector.remove (FO := binary32) Z.ltb 8 items 9 = Some items' /\
  items' = [Some 2; Some 3; None; Some 4; Some 5; None; Some 6; None;
            None; Some 7; None; None; Some 8; None; None; None] /\
  items' <> items.
Proof.
eexists. eexists. split; [vm_compute; reflexivity|].
split; [reflexivity|].
split; [apply absent_values; vm_compute; reflexivity|].
split; [vm_compute; reflexivity|].
split; [reflexivity|discriminate].
Qed.

(** ** Redistribution in exact arithmetic *)

Lemma zrange_S a n : zrange a (S n) = a :: zrange (a + 1) n.
Proof.
unfold zrange. simpl. f_equal; [lia|].
rewrite <- List.seq_shift, List.map_map. apply List.map_ext. intros i. lia.
Qed.

Section Nominal.
Context (k n : Z) (Hn : 1 <= n) (Hk : n <= k).

Lemma nominal_position_zero : nominal_position k n 0 = 0.
Proof.
  unfold nominal_position. rewrite Z.mul_0_r, Z.mul_0_l, Z.add_0_l.
  apply Z.div_small. lia.
Qed.

Lemma nominal_position_step j :
  nominal_position k n j + k / n <= nominal_position k n (j + 1).
Proof.
  unfold nominal_position.
  rewrite <- (Z.div_add (2 * j * k + n) (k / n) (2 * n)) by lia.
  apply Z.div_le_mono; [lia|].
  pose proof (Z.mul_div_le k n ltac:(lia)). nia.
Qed.

Lemma nominal_position_below j : 0 <= j < n -> 0 <= nominal_position k n j < k.
Proof.
  intros Hj. unfold nominal_position. split.
  - apply Z.div_pos; nia.
  - apply Z.div_lt_upper_bound; nia.
Qed.

Lemma nominal_nearest j : nearest k n j (nominal_position k n j) = true.
Proof.
  unfold nearest, nominal_position. apply Z.leb_le.
  pose proof (Z.mul_div_le (2 * j * k + n) (2 * n) ltac:(lia)).
  pose proof (Z.mul_succ_div_gt (2 * j * k + n) (2 * n) ltac:(lia)).
  lia.
Qed.

Lemma ratio_pos : 1 <= k / n.
Proof. apply Z.div_le_lower_bound; lia. Qed.

Lemma nominal_ascending m : forall j lo,
  0 <= j -> j + Z.of_nat m <= n -> lo <= nominal_position k n j ->
  ascending lo (List.map (nominal_position k n) (zrange j m)) k = true.
Proof.
  induction m as [|m IH]; intros j lo Hj Hm Hlo; [reflexivity|].
  rewrite zrange_S. cbn [List.map ascending].
  pose proof (nominal_position_below j ltac:(lia)).
  pose proof (nominal_position_step j). pose proof ratio_pos.
  rewrite IH by lia.
  destruct (Z.leb_spec lo (nominal_position k n j)); [|lia].
  destruct (Z.ltb_spec (nominal_position k n j) k); [reflexivity|lia].
Qed.

Lemma nominal_all_nearest m : forall j,
  all_nearest k n j (List.map (nominal_position k n) (zrange j m)) = true.
Proof.
  induction m as [|m IH]; intros j; [reflexivity|].
  rewrite zrange_S. cbn [List.map all_nearest].
  now rewrite nominal_nearest, IH.
Qed.

End Nominal.

Section ExactPositions.
Context (k n : Z) (Hk : 0 <= k) (Hn : 1 <= n).

Lemma inject_Z_nonzero : ~ (inject_Z n == 0)%Q.
Proof. intros H. apply (inject_Z_injective n 0) in H. lia. Qed.

Lemma exactQ_fround j pos :
  0 <= j -> (pos == inject_Z (j * k) / inject_Z n)%Q ->
  fround (FloatOps := exactQ) pos = Some (nominal_position k n j).
Proof.
  intros Hj Hpos. simpl. unfold ExactQ.fround.
  assert (H0 : (0 <= pos)%Q).
  { rewrite Hpos. apply Qle_shift_div_l.
    - unfold Qlt. simpl. lia.
    - rewrite Qmult_0_l. unfold Qle. simpl. nia. }
  apply Qle_bool_iff in H0. rewrite H0. f_equal.
  unfold nominal_position. rewrite Zdiv_Qdiv.
  apply Qfloor_comp. rewrite Hpos.
  rewrite !inject_Z_plus, !inject_Z_mult. field. exact inject_Z_nonzero.
Qed.

Lemma exactQ_positions m : forall j pos,
  0 <= j -> (pos == inject_Z (j * k) / inject_Z n)%Q ->
  positions (FO := exactQ) m (Qdiv (inject_Z k) (inject_Z n)) pos =
  Some (List.map (nominal_position k n) (zrange j m)).
Proof.
  induction m as [|m IH]; intros j pos Hj Hpos.
  - reflexivity.
  - rewrite zrange_S. cbn [positions List.map].
    rewrite (exactQ_fround j pos Hj Hpos).
    rewrite (IH (j + 1)); [reflexivity|lia|].
    simpl. rewrite Hpos.
    rewrite !inject_Z_mult, inject_Z_plus. field. exact inject_Z_nonzero.
Qed.

(** Without rounding error the offsets are the nominal ones. *)
Lemma exactQ_spread : spread (FO := exactQ) k n = Some (nominal_positions k n).
Proof.
  unfold spread. apply exactQ_positions; [lia|].
  simpl. rewrite Z.mul_0_l. unfold Qdiv. rewrite Qmult_0_l. reflexivity.
Qed.
End ExactPositions.

Section ExactTests.
Lemma Q_scale (x y : Q) (z : Z) : 0 < z ->
  (x <= y)%Q <-> (x * inject_Z z <= y * inject_Z z)%Q.
Proof.
  intros Hz. symmetry. apply Qmult_le_r. unfold Qlt. simpl. lia.
Qed.

Lemma exactQ_lower h d : 1 <= h ->
  (lower_at (FO := exactQ) h d * inject_Z (4 * h) == inject_Z (2 * h - d))%Q.
Proof.
  intros Hh. unfold lower_at. simpl.
  unfold Zminus. rewrite !inject_Z_plus, !inject_Z_mult, inject_Z_opp. field.
  apply inject_Z_nonzero. lia.
Qed.

Lemma exactQ_upper h d : 1 <= h ->
  (upper_at (FO := exactQ) h d * inject_Z (4 * h) == inject_Z (3 * h + d))%Q.
Proof.
  intros Hh. unfold upper_at. simpl.
  rewrite !inject_Z_plus, !inject_Z_mult. field. apply inject_Z_nonzero. lia.
Qed.

Lemma exactQ_density c w : 0 < w ->
  (density_of (FO := exactQ) c w * inject_Z w == inject_Z c)%Q.
Proof.
  intros Hw. unfold density_of. simpl. field. apply inject_Z_nonzero. lia.
Qed.

Lemma exactQ_lower_le h d c w : 1 <= h -> 0 < w ->
  (lower_at (FO := exactQ) h d <= density_of (FO := exactQ) c w)%Q <->
  w * (2 * h - d) <= 4 * c * h.
Proof.
  intros Hh Hw. rewrite (Q_scale _ _ (4 * h * w)) by nia.
  rewrite (inject_Z_mult (4 * h) w) at 1.
  rewrite Qmult_assoc, exactQ_lower by lia.
  replace (4 * h * w) with (w * (4 * h)) by lia.
  rewrite (inject_Z_mult w (4 * h)), Qmult_assoc, exactQ_density by lia.
  rewrite <- !inject_Z_mult. rewrite <- Zle_Qle. lia.
Qed.

Lemma exactQ_le_upper h d c w : 1 <= h -> 0 < w ->
  (density_of (FO := exactQ) c w <= upper_at (FO := exactQ) h d)%Q <->
  4 * c * h <= w * (3 * h + d).
Proof.
  intros Hh Hw. rewrite (Q_scale _ _ (4 * h * w)) by nia.
  rewrite (inject_Z_mult (4 * h) w) at 2.
  rewrite (Qmult_assoc (upper_at (FO := exactQ) h d)), exactQ_upper by lia.
  replace (4 * h * w) with (w * (4 * h)) by lia.
  rewrite (inject_Z_mult w (4 * h)), Qmult_assoc, exactQ_density by lia.
  rewrite <- !inject_Z_mult. rewrite <- Zle_Qle. lia.
Qed.

Lemma exactQ_tests_agree h d c w : 1 <= h -> 0 < w ->
  tests_agree (FO := exactQ) h d w c = true.
Proof.
  intros Hh Hw. unfold tests_agree.
  assert (Hl : Qle_bool (lower_at (FO := exactQ) h d) (density_of (FO := exactQ) c w)
               = (w * (2 * h - d) <=? 4 * c * h)).
  { apply Bool.eq_iff_eq_true. rewrite Qle_bool_iff, Z.leb_le.
    now apply exactQ_lower_le. }
  assert (Hu : Qle_bool (density_of (FO := exactQ) c w) (upper_at (FO := exactQ) h d)
               = (4 * c * h <=? w * (3 * h + d))).
  { apply Bool.eq_iff_eq_true. rewrite Qle_bool_iff, Z.leb_le.
    now apply exactQ_le_upper. }
  cbn [fle flt exactQ]. unfold ExactQ.flt. rewrite Hl, Hu.
  rewrite <- !Z.ltb_antisym, !Bool.eqb_reflx. reflexivity.
Qed.

(** Exact arithmetic satisfies the laws at every capacity. *)
Lemma exactQ_float_laws chunk_size B :
  0 < chunk_size -> float_laws (FO := exactQ) chunk_size B.
Proof.
  intros Hchunk h Hh _. split.
  - intros d c Hd Hc. apply exactQ_tests_agree; [lia|].
    pose proof (pow2_pos (h - d) ltac:(lia)). nia.
  - intros n Hn. unfold spread_ok.
    pose proof (pow2_pos h ltac:(lia)).
    rewrite exactQ_spread by nia. unfold nominal_positions.
    apply nominal_ascending; try lia.
    rewrite nominal_position_zero; lia.
Qed.
End ExactTests.

(** ** Where redistribution writes *)

Section Offsets.
Lemma ascending_bounds ps : forall lo hi,
  ascending lo ps hi = true -> forall p, p ∈ ps -> lo <= p < hi.
Proof.
  induction ps as [|q ps IH]; intros lo hi Hasc p Hp.
  - apply elem_of_nil in Hp. destruct Hp.
  - simpl in Hasc. apply andb_true_iff in Hasc as [Hq Hasc].
    apply andb_true_iff in Hq as [Hq1 Hq2].
    apply Z.leb_le in Hq1. apply Z.ltb_lt in Hq2.
    apply elem_of_cons in Hp as [->|Hp]; [lia|].
    specialize (IH _ _ Hasc p Hp). lia.
Qed.


End Offsets.

Section PlaceAt.
Context {T : Type}.
Implicit Types (items : list (option T)) (buffer : list T).

Lemma place_at_spec buffer : forall ps items begin lo hi,
  0 <= begin + lo -> begin + hi <= size items ->
  length ps = length buffer -> ascending lo ps hi = true ->
  exists items', place_at items begin ps buffer = Some items' /\
    size items' = size items /\
    (forall j p item, ps !! j = Some p -> buffer !! j = Some item ->
                      at_ items' (begin + p) = Some (Some item)) /\
    (forall i, (forall p, p ∈ ps -> i <> begin + p) -> at_ items' i = at_ items i).
Proof.
  induction buffer as [|x buffer IH]; intros ps items begin lo hi Hlo Hhi Hlen Hasc.
  - destruct ps; [|discriminate]. exists items. repeat split; auto.
    intros j p item Hp. destruct j; discriminate.
  - destruct ps as [|p ps]; [discriminate|].
    simpl in Hlen, Hasc. apply andb_true_iff in Hasc as [Hp Hasc].
    apply andb_true_iff in Hp as [Hp1 Hp2].
    apply Z.leb_le in Hp1. apply Z.ltb_lt in Hp2.
    simpl. rewrite assign_in_range by lia.
    pose proof (assign_in_range items (begin + p) (Some x) ltac:(lia)) as Ha.
    pose proof (size_assign _ _ _ _ Ha) as Hs.
    destruct (IH ps (<[Z.to_nat (begin + p) := Some x]> items) begin (p + 1) hi)
      as (items' & Hpl & Hsize & Hwritten & Hother); try lia; auto.
    exists items'. split; [exact Hpl|]. split; [lia|]. split.
    + intros j q item Hq Hitem. destruct j as [|j].
      * simpl in Hq, Hitem. injection Hq as <-. injection Hitem as <-.
        rewrite Hother.
        { rewrite (at_assign _ _ _ _ _ Ha). now rewrite Z.eqb_refl. }
        intros q Hq. pose proof (ascending_bounds _ _ _ Hasc q Hq). lia.
      * apply (Hwritten j); assumption.
    + intros i Hi. rewrite Hother.
      * rewrite (at_assign _ _ _ _ _ Ha).
        destruct (Z.eqb_spec i (begin + p)) as [->|]; [|reflexivity].
        exfalso. apply (Hi p); [left|reflexivity].
      * intros q Hq. apply Hi. now right.
Qed.
End PlaceAt.

Section Redistribution.
Context {T : Type} {FO : FloatOps}.
Implicit Types (items : list (option T)) (buffer : list T).

End Redistribution.



Section SpreadEvenly.
Context {T : Type}.
Implicit Types (items : list (option T)) (buffer : list T).

End SpreadEvenly.



(** ** Local insertion stays inside the array *)

Section ShiftSafe.
Context {T : Type}.
Implicit Types (items : list (option T)).

Import packed_memory_array.

Lemma swap_safe items i j :
  0 <= i < size items -> 0 <= j < size items ->
  exists items', swap items i j = Some items' /\ size items' = size items.
Proof.
  intros Hi Hj. unfold swap.
  destruct (at_in_range items i Hi) as [a ->].
  destruct (at_in_range items j Hj) as [b ->].
  rewrite assign_in_range by lia.
  pose proof (size_assign items i b _ (assign_in_range items i b Hi)) as Hs.
  rewrite assign_in_range by lia.
  eexists. split; [reflexivity|].
  rewrite <- Hs. eapply size_assign. apply assign_in_range. lia.
Qed.

Lemma shift_right_loop_safe n : forall items to,
  0 <= to - Z.of_nat n -> to < size items ->
  exists items', shift_right_loop n items to = Some items' /\
                 size items' = size items.
Proof.
  induction n as [|n IH]; intros items to Hlo Hhi; simpl.
  - eauto.
  - destruct (swap_safe items to (to - 1)) as (items1 & -> & Hs); try lia.
    destruct (IH items1 (to - 1)) as (items' & Hl & Hs'); try lia.
    exists items'. split; [exact Hl|lia].
Qed.

Lemma shift_right_safe items from to :
  0 <= from -> to < size items ->
  exists items', shift_right items from to = Some items' /\
                 size items' = size items.
Proof.
  intros Hf Ht. unfold shift_right.
  destruct (Z.le_gt_cases from to).
  - apply shift_right_loop_safe; lia.
  - replace (Z.to_nat (to - from)) with O by lia. simpl. eauto.
Qed.

Lemma shift_left_loop_safe n : forall items till,
  0 <= till -> till + Z.of_nat n < size items ->
  exists items', shift_left_loop n items till = Some items' /\
                 size items' = size items.
Proof.
  induction n as [|n IH]; intros items till Hlo Hhi; simpl.
  - eauto.
  - destruct (swap_safe items till (till + 1)) as (items1 & -> & Hs); try lia.
    destruct (IH items1 (till + 1)) as (items' & Hl & Hs'); try lia.
    exists items'. split; [exact Hl|lia].
Qed.

Lemma shift_left_safe items from till :
  0 <= till -> from < size items ->
  exists items', shift_left items from till = Some items' /\
                 size items' = size items.
Proof.
  intros Hf Ht. unfold shift_left.
  destruct (Z.le_gt_cases till from).
  - apply shift_left_loop_safe; lia.
  - replace (Z.to_nat (from - till)) with O by lia. simpl. eauto.
Qed.

Lemma assign_safe items i o :
  0 <= i < size items ->
  exists items', assign items i o = Some items' /\ size items' = size items.
Proof.
  intros Hi. rewrite assign_in_range by lia. eexists. split; [reflexivity|].
  eapply size_assign. apply assign_in_range. exact Hi.
Qed.
End ShiftSafe.

Section GapSearch.
Context {T : Type}.
Implicit Types (items : list (option T)).


End GapSearch.

Section InsertSafe.
Context {T : Type} (less : T -> T -> bool).
Implicit Types (items : list (option T)) (t : T).

Import packed_memory_array.




(** The shifts of src/OrderedVector.h: a run of occupied slots is moved
    by one when an empty slot ends it, and left alone otherwise. *)
Lemma shifted_right_safe items index :
  0 <= index < size items ->
  exists r, OrderedVector.shifted_right items index = Some r /\
            size (snd r) = size items.
Proof.
  intros Hi. unfold OrderedVector.shifted_right.
  destruct (run_right_spec (length items) items index)
    as (r & -> & Hrb & _ & _); [lia|unfold size; lia|].
  destruct (lt_size r items) eqn:E; simpl.
  - apply lt_size_true in E.
    destruct (shift_right_safe items index r) as (items' & -> & Hs); try lia.
    eexists. split; [reflexivity|exact Hs].
  - eexists. split; reflexivity.
Qed.

Lemma shifted_left_safe items index :
  0 <= index < size items ->
  exists r, OrderedVector.shifted_left items index = Some r /\
            size (snd r) = size items.
Proof.
  intros Hi. unfold OrderedVector.shifted_left.
  destruct (run_left_spec (length items) items index)
    as (l & -> & Hlb & _ & _); [lia|unfold size in *; lia|].
  destruct (Z.ltb_spec l 0) as [E|E].
  - eexists. split; reflexivity.
  - destruct (shift_left_safe items index l) as (items' & -> & Hs); try lia.
    eexists. split; [reflexivity|exact Hs].
Qed.
End InsertSafe.

Section LocalInsertion.
Context {T : Type} (less : T -> T -> bool).
Context (chunk_size : Z) {FO : FloatOps} (B : Z).
Implicit Types (items : list (option T)) (t : T).

End LocalInsertion.


(** ** The scan at the root *)

Section Root.
Context {T : Type} (chunk_size : Z) {FO : FloatOps}.
Implicit Types (items : list (option T)).

Import packed_memory_array.

Lemma get_items_whole items :
  get_items items 0 (size items) = Some (values items, replicate (length items) None).
Proof.
  transitivity (get_items ([] ++ items ++ []) 0 (size items)).
  - simpl. now rewrite app_nil_r.
  - rewrite (get_items_app [] items [] 0 (size items));
      [|reflexivity|rewrite size_nil; lia].
    simpl. now rewrite app_nil_r.
Qed.

(** [scan] at depth 0 with the density outside the thresholds. *)
Lemma scan_root items begin end_ accum_count sibling_count lower upper :
  end_ - begin <> 0 ->
  count_items items
    (if Z.rem (Z.quot begin (end_ - begin)) 2 =? 0 then end_
     else begin - (end_ - begin))
    ((if Z.rem (Z.quot begin (end_ - begin)) 2 =? 0 then end_
      else begin - (end_ - begin)) + (end_ - begin)) = Some sibling_count ->
  get_thresholds chunk_size items 0 = Some (lower, upper) ->
  fle lower (fdiv (of_int (accum_count + sibling_count))
                  (of_int ((end_ - begin) * 2))) &&
  fle (fdiv (of_int (accum_count + sibling_count))
            (of_int ((end_ - begin) * 2))) upper = false ->
  scan chunk_size items begin end_ accum_count 0 =
  let density := fdiv (of_int (accum_count + sibling_count))
                      (of_int ((end_ - begin) * 2)) in
  let capacity :=
    if flt upper density then size items * 2
    else if flt density lower && (chunk_size * 2 <? size items)
         then size items / 2 else size items in
  match values items with
  | [] => Some (replicate (Z.to_nat capacity) None)
  | _ :: _ =>
      rearrange_items (replicate (Z.to_nat capacity) None) 0 capacity (values items)
  end.
Proof.
  intros Hw Hcount Hth Hout. unfold scan. rewrite scan_rec_eq. cbv zeta.
  destruct (Z.eqb_spec (end_ - begin) 0) as [|_]; [contradiction|].
  rewrite Hcount, Hth. cbn [fst snd]. rewrite Hout.
  change (0 =? 0) with true. cbv iota.
  rewrite get_items_whole. cbn [fst snd].
  pose proof (size_nonneg items) as Hs.
  assert (Hsr : size (replicate (length items) (@None T)) = size items)
    by (rewrite size_replicate; reflexivity).
  rewrite Hsr.
  set (density := fdiv (of_int (accum_count + sibling_count))
                       (of_int ((end_ - begin) * 2))).
  destruct (flt upper density).
  - rewrite resize_empty by lia. rewrite size_replicate.
    rewrite Z2Nat.id by lia. reflexivity.
  - destruct (flt density lower && (chunk_size * 2 <? size items)).
    + rewrite resize_empty by (apply Z.div_pos; lia). rewrite size_replicate.
      rewrite Z2Nat.id by (apply Z.div_pos; lia). reflexivity.
    + rewrite Hsr.
      replace (Z.to_nat (size items)) with (length items) by (unfold size; lia).
      reflexivity.
Qed.
End Root.

(** *** Single precision at the root *)

Lemma binary32_root_thresholds h :
1 <= h <= 30 ->
lower_at (FO := binary32) h 0 = S754_finite false 8388608 (-24) /\
upper_at (FO := binary32) h 0 = S754_finite false 12582912 (-24).
Proof.
intros Hh. assert (Hin : List.In h (zrange 1 30)) by (apply In_zrange; lia).
simpl in Hin.
repeat (destruct Hin as [<-|Hin]; [split; vm_compute; reflexivity|]).
destruct Hin.
Qed.



Section RootResize.
Context {T : Type} (chunk_size : Z).
Implicit Types (items : list (option T)).

Import packed_memory_array.


End RootResize.


(** ** A write past the end of the array

  In single precision the running sum of [rearrange_items] can end above
  the exact last offset; when it rounds to the width of the window, the
  last item is written one slot after the window. After a halving of the
  capacity at the root, that slot is outside the array. *)

Section Escapes.
Context {T : Type} {FO : FloatOps}.
Implicit Types (items : list (option T)) (buffer : list T).

Import packed_memory_array.

Lemma place_at_escapes buffer : forall ps items,
  length ps = length buffer ->
  List.existsb (fun p => negb ((0 <=? p) && (p <? size items))) ps = true ->
  place_at items 0 ps buffer = None.
Proof.
  induction buffer as [|x buffer IH]; intros ps items Hlen Hex.
  - destruct ps; [discriminate Hex|discriminate Hlen].
  - destruct ps as [|p ps]; [discriminate Hlen|].
    simpl in Hlen, Hex. simpl. rewrite Z.add_0_l.
    destruct (assign items p (Some x)) as [items'|] eqn:Ha; [|reflexivity].
    pose proof (size_assign _ _ _ _ Ha) as Hs.
    apply assign_Some in Ha as [Hp _].
    apply IH; [lia|]. rewrite Hs.
    destruct (Z.leb_spec 0 p); [|lia]. destruct (Z.ltb_spec p (size items)); [|lia].
    exact Hex.
Qed.

Lemma rearrange_items_escapes items end_ buffer :
  escapes end_ (Z.of_nat (length buffer)) (size items) = true ->
  rearrange_items items 0 end_ buffer = None.
Proof.
  unfold escapes, spread, rearrange_items. intros Hesc.
  rewrite rearrange_loop_positions. rewrite Z.sub_0_r.
  rewrite Nat2Z.id in Hesc.
  destruct (positions (length buffer)
              (fdiv (of_int end_) (of_int (Z.of_nat (length buffer)))) (of_int 0))
    as [ps|] eqn:Hps; [|reflexivity].
  apply place_at_escapes; [|exact Hesc].
  apply (positions_length _ _ _ _ Hps).
Qed.
End Escapes.

(** 6499 items in a window of 8192 slots: the offset of the last item
  is 8192. *)
Lemma binary32_escapes_8192 : escapes (FO := binary32) 8192 6499 8192 = true.
Proof. vm_compute. reflexivity. Qed.

Lemma binary32_last_offset_8192 :
exists ps, spread (FO := binary32) 8192 6499 = Some ps /\
           List.last ps 0 = 8192 /\ nominal_position 8192 6499 6498 = 8191.
Proof. eexists. split; [vm_compute; reflexivity|]. split; vm_compute; reflexivity. Qed.

Section RootHalving.
Context {T : Type}.
Implicit Types (items : list (option T)).

Import packed_memory_array.

Lemma halves_total items :
  size items = 16384 ->
  total (window items 0 8192) + total (window items 8192 16384) = total items.
Proof.
  intros Hs. rewrite <- total_app.
  rewrite <- (window_adjacent items 0 8192 16384) by lia.
  rewrite <- Hs. now rewrite window_whole.
Qed.

(** C10: on every store of 16384 slots ([chunk_size = 8]) that holds 6499
    items, [scan] of src/packed_memory_array.h called at depth 0 on the
    left half, with the count of that half, halves the capacity to 8192
    and then writes outside the array: the call has no defined result. *)
Theorem scan_root_halving_writes_outside items :
  size items = 16384 -> total items = 6499 ->
  scan (FO := binary32) 8 items 0 8192 (total (window items 0 8192)) 0 = None.
Proof.
  intros Hs Ht.
  assert (Hsum := halves_total items Hs). rewrite Ht in Hsum.
  rewrite (scan_root (FO := binary32) 8 items 0 8192 (total (window items 0 8192))
             (total (window items 8192 16384))
             (S754_finite false 8388608 (-24)) (S754_finite false 12582912 (-24))).
  - cbv zeta. rewrite Hsum.
    destruct (values items) as [|x rest] eqn:Hv.
    { unfold total in Ht. rewrite Hv in Ht. discriminate Ht. }
    rewrite <- Hv, Hs.
    change (rearrange_items (FO := binary32) (replicate (Z.to_nat 8192) (@None T))
              0 8192 (values items) = None).
    apply rearrange_items_escapes. rewrite size_replicate.
    fold (total items). rewrite Ht. exact binary32_escapes_8192.
  - lia.
  - apply (count_items_spec items 8192 16384); lia.
  - rewrite (get_thresholds_pow 8 ltac:(lia) items 11 0) by (try lia; exact Hs).
    destruct (binary32_root_thresholds 11 ltac:(lia)) as [-> ->]. reflexivity.
  - rewrite Hsum. vm_compute. reflexivity.
Qed.
End RootHalving.

Lemma scan_root_halving_writes_outside_witness :
packed_memory_array.scan (FO := binary32) 8
  (List.map Some (zrange 0 (Z.to_nat 6499)) ++ replicate (Z.to_nat 9885) None) 0 8192
  (total (window (List.map Some (zrange 0 (Z.to_nat 6499)) ++ replicate (Z.to_nat 9885) None) 0 8192)) 0
= None.
Proof.
apply (scan_root_halving_writes_outside
         (List.map Some (zrange 0 (Z.to_nat 6499)) ++ replicate (Z.to_nat 9885) None)).
- vm_compute. reflexivity.
- vm_compute. reflexivity.
Defined.

(** * More of the code *)

(** ** The comparisons of [OrderedVector::scan] *)

Section OrderedVectorLaws.
Context {FO : FloatOps} (chunk_size : Z) (B : Z).

Lemma law_tests_OrderedVector h d c :
  float_laws_OrderedVector chunk_size B ->
  1 <= h -> chunk_size * 2 ^ h <= B -> 0 <= d <= h ->
  0 <= c <= chunk_size * 2 ^ (h - d) ->
  fle (lower_at h d) (density_of c (chunk_size * 2 ^ (h - d)))
    = (chunk_size * 2 ^ (h - d) * (2 * h - d) <=? 4 * c * h) /\
  flt (density_of c (chunk_size * 2 ^ (h - d))) (upper_at h d)
    = (4 * c * h <? chunk_size * 2 ^ (h - d) * (3 * h + d)) /\
  fle (upper_at h d) (density_of c (chunk_size * 2 ^ (h - d)))
    = (chunk_size * 2 ^ (h - d) * (3 * h + d) <=? 4 * c * h) /\
  flt (of_int 0) (of_int c) = (0 <? c).
Proof.
  intros Hlaws Hh HB Hd Hc.
  pose proof (Hlaws h d c Hh HB Hd Hc) as Ht. unfold tests_agree_OrderedVector in Ht.
  repeat (apply andb_true_iff in Ht as [Ht ?]).
  repeat split; apply eqb_prop; assumption.
Qed.

Lemma float_check_OrderedVector_sound :
  0 < chunk_size -> float_check_OrderedVector chunk_size B = true ->
  float_laws_OrderedVector chunk_size B.
Proof.
  intros Hchunk Hcheck h d c Hh HB Hd Hc. unfold float_check_OrderedVector in Hcheck.
  rewrite List.forallb_forall in Hcheck.
  pose proof (pow2_pos h ltac:(lia)) as Hpow.
  assert (Hlog : h <= Z.log2 B).
  { apply Z.log2_le_pow2; nia. }
  specialize (Hcheck h). rewrite In_zrange in Hcheck.
  destruct (Z.leb_spec (chunk_size * 2 ^ h) B); [|lia].
  specialize (Hcheck ltac:(lia)).
  rewrite List.forallb_forall in Hcheck.
  specialize (Hcheck d). rewrite In_zrange in Hcheck.
  specialize (Hcheck ltac:(lia)). rewrite List.forallb_forall in Hcheck.
  apply Hcheck. apply In_zrange.
  pose proof (pow2_pos (h - d) ltac:(lia)). nia.
Qed.
End OrderedVectorLaws.

Lemma exactQ_upper_le h d c w : 1 <= h -> 0 < w ->
  (upper_at (FO := exactQ) h d <= density_of (FO := exactQ) c w)%Q <->
  w * (3 * h + d) <= 4 * c * h.
Proof.
  intros Hh Hw. rewrite (Q_scale _ _ (4 * h * w)) by nia.
  rewrite (inject_Z_mult (4 * h) w) at 1.
  rewrite Qmult_assoc, exactQ_upper by lia.
  replace (4 * h * w) with (w * (4 * h)) by lia.
  rewrite (inject_Z_mult w (4 * h)), Qmult_assoc, exactQ_density by lia.
  rewrite <- !inject_Z_mult. rewrite <- Zle_Qle. lia.
Qed.

Lemma exactQ_tests_agree_OrderedVector h d c w : 1 <= h -> 0 < w ->
  tests_agree_OrderedVector (FO := exactQ) h d w c = true.
Proof.
  intros Hh Hw. unfold tests_agree_OrderedVector.
  assert (Hu' : Qle_bool (upper_at (FO := exactQ) h d) (density_of (FO := exactQ) c w)
                = (w * (3 * h + d) <=? 4 * c * h)).
  { apply Bool.eq_iff_eq_true. rewrite Qle_bool_iff, Z.leb_le.
    now apply exactQ_upper_le. }
  assert (Hc : Qle_bool (inject_Z c) (inject_Z 0) = (c <=? 0)).
  { apply Bool.eq_iff_eq_true. rewrite Qle_bool_iff, Z.leb_le.
    rewrite <- Zle_Qle. reflexivity. }
  assert (Hl : Qle_bool (lower_at (FO := exactQ) h d) (density_of (FO := exactQ) c w)
               = (w * (2 * h - d) <=? 4 * c * h)).
  { apply Bool.eq_iff_eq_true. rewrite Qle_bool_iff, Z.leb_le.
    now apply exactQ_lower_le. }
  cbn [fle flt of_int exactQ]. unfold ExactQ.flt. rewrite Hl, Hu', Hc.
  rewrite <- !Z.ltb_antisym, !Bool.eqb_reflx. reflexivity.
Qed.

(** Exact arithmetic satisfies them at every capacity. *)
Lemma exactQ_float_laws_OrderedVector chunk_size B :
  0 < chunk_size -> float_laws_OrderedVector (FO := exactQ) chunk_size B.
Proof.
  intros Hchunk h d c Hh _ Hd Hc. apply exactQ_tests_agree_OrderedVector; [lia|].
  pose proof (pow2_pos (h - d) ltac:(lia)). nia.
Qed.

(** Single precision satisfies them for the capacities checked here. *)
Lemma binary32_laws_OrderedVector_64 :
  float_laws_OrderedVector (FO := binary32) 8 64.
Proof. apply float_check_OrderedVector_sound; [lia|]. vm_compute. reflexivity. Qed.

(** ** The local insertion of [OrderedVector::push] *)

Section PushFreeSlot.
Context {T : Type} (less : T -> T -> bool) (block_size : Z) {FO : FloatOps}.

Lemma OrderedVector_push_free_slot (items : list (option T)) t :
  OrderedVector.push less block_size items t =
  (i <- OrderedVector.index_of less items t ;;
   p <- OrderedVector.free_slot less items t i ;;
   items2 <- assign (fst p) (snd p) (Some t) ;;
   let block_begin := (snd p / block_size) * block_size in
   let block_end := block_begin + block_size in
   h <- OrderedVector.tree_height block_size items2 ;;
   OrderedVector.scan block_size items2 block_begin block_end h).
Proof.
  unfold OrderedVector.push, OrderedVector.free_slot.
  destruct (OrderedVector.index_of less items t) as [i|]; [|reflexivity].
  destruct (at_ items i) as [o|]; reflexivity.
Qed.
End PushFreeSlot.

(** ** Redistribution in src/OrderedVector.h *)

(** [(k + n - 1) / n] is the ceiling of [k / n]. *)
Lemma ceiling_bounds k n :
1 <= n -> ((k + n - 1) / n - 1) * n < k <= (k + n - 1) / n * n.
Proof.
intros Hn.
pose proof (Z.mul_div_le (k + n - 1) n ltac:(lia)).
pose proof (Z.mul_succ_div_gt (k + n - 1) n ltac:(lia)). nia.
Qed.

Section StrideArithmetic.
Context (k n nd : Z) (Hn : 1 <= n) (Hk : n <= k).
Context (Hnd : (nd - 1) * n < k <= nd * n).

Lemma stride_pos : 1 <= nd.
Proof. nia. Qed.

Lemma stride_le : nd <= k.
Proof. nia. Qed.

Lemma quotient_bounds : nd * (k / nd) <= k < nd * (k / nd) + nd.
Proof.
  pose proof stride_pos.
  pose proof (Z.mul_div_le k nd ltac:(lia)).
  pose proof (Z.mul_succ_div_gt k nd ltac:(lia)). lia.
Qed.

Lemma remainder_nonneg : 0 <= n - k / nd.
Proof.
  pose proof stride_pos.
  assert (k / nd <= n); [|lia].
  apply Z.div_le_upper_bound; lia.
Qed.

Lemma remainder_stride : 0 < n - k / nd -> 2 <= nd.
Proof.
  intros Hr. pose proof stride_pos.
  destruct (Z.eq_dec nd 1) as [E|]; [|lia].
  rewrite E, Z.div_1_r in Hr. lia.
Qed.

Lemma remainder_half : 2 * (n - k / nd) <= n.
Proof.
  pose proof remainder_nonneg as H0.
  destruct (Z.eq_dec (n - k / nd) 0) as [E|Hne]; [lia|].
  pose proof (remainder_stride ltac:(lia)) as H2.
  pose proof quotient_bounds as [Hq1 Hq2].
  pose proof stride_le as Hle.
  assert (Hq0 : 0 <= k / nd) by (apply Z.div_pos; lia).
  set (q := k / nd) in *.
  destruct (Z.le_gt_cases n (2 * q)) as [|Hgt]; [lia|].
  exfalso.
  destruct (Z.eq_dec q 0) as [Eq|Hq].
  - rewrite Eq in *. lia.
  - destruct (Z.eq_dec nd 2) as [E2|Hn2].
    + rewrite E2 in *. lia.
    + assert (1 <= q * (nd - 2)) by nia. nia.
Qed.

Lemma remainder_room : nd * (n - (n - k / nd)) <= k.
Proof.
  replace (n - (n - k / nd)) with (k / nd) by lia. apply quotient_bounds.
Qed.
End StrideArithmetic.

Section Strides.
Lemma ascending_weaken ps : forall lo lo' hi,
  lo' <= lo -> ascending lo ps hi = true -> ascending lo' ps hi = true.
Proof.
  destruct ps as [|p ps]; intros lo lo' hi Hle Hasc; [reflexivity|].
  simpl in *. apply andb_true_iff in Hasc as [Hp Hasc].
  apply andb_true_iff in Hp as [Hp1 Hp2]. apply Z.leb_le in Hp1.
  rewrite Hasc, Hp2. destruct (Z.leb_spec lo' p); [reflexivity|lia].
Qed.

(** The strides fit the window: [nd * (m - r) <= hi - i] slots are left
    for [m] items of which [2 * r] go in pairs. *)
Lemma strides_ascending m : forall i nd r hi,
  1 <= nd -> (0 < r -> 2 <= nd) -> 0 <= r -> 2 * r <= Z.of_nat m ->
  nd * (Z.of_nat m - r) <= hi - i ->
  ascending i (strides m i nd r) hi = true /\ length (strides m i nd r) = m.
Proof.
  induction m as [m IH] using lt_wf_ind. intros i nd r hi Hnd Hpair Hr Hhalf Hroom.
  destruct m as [|m]; [split; reflexivity|].
  cbn [strides]. destruct (Z.ltb_spec 0 r) as [Hpos|Hzero].
  - specialize (Hpair Hpos).
    destruct m as [|m]; [lia|].
    destruct (IH m ltac:(lia) (i + nd) nd (r - 1) hi) as [Hasc Hlen]; try lia.
    split; [|simpl; rewrite Hlen; reflexivity].
    cbn [ascending]. rewrite (ascending_weaken _ (i + nd) (i + 1 + 1) hi) by (lia || exact Hasc).
    rewrite !Z.leb_refl.
    destruct (Z.ltb_spec i hi); [|nia].
    destruct (Z.ltb_spec (i + 1) hi); [reflexivity|nia].
  - destruct (IH m ltac:(lia) (i + nd) nd r hi) as [Hasc Hlen]; try lia.
    split; [|simpl; rewrite Hlen; reflexivity].
    cbn [ascending]. rewrite (ascending_weaken _ (i + nd) (i + 1) hi) by (lia || exact Hasc).
    rewrite Z.leb_refl.
    destruct (Z.ltb_spec i hi); [reflexivity|nia].
Qed.
End Strides.

Section StrideLoop.
Context {T : Type}.
Implicit Types (items : list (option T)) (buffer : list T).

(** Under the same conditions the placing loop writes every item, at the
    offsets [strides]. *)
Lemma OrderedVector_rearrange_loop_strides buffer : forall items begin i end_ nd r,
  1 <= nd -> (0 < r -> 2 <= nd) -> 0 <= r -> 2 * r <= Z.of_nat (length buffer) ->
  nd * (Z.of_nat (length buffer) - r) <= end_ - begin - i ->
  OrderedVector.rearrange_loop items (begin + i) end_ nd r buffer =
  place_at items begin (strides (length buffer) i nd r) buffer.
Proof.
  remember (length buffer) as m eqn:Hm. revert buffer Hm.
  induction m as [m IH] using lt_wf_ind.
  intros buffer Hm items begin i end_ nd r Hnd Hpair Hr Hhalf Hroom.
  destruct buffer as [|x rest]; simpl in Hm; subst m; [reflexivity|].
  cbn [OrderedVector.rearrange_loop strides Datatypes.length].
  destruct (Z.ltb_spec (begin + i) end_) as [_|Hge]; [|nia].
  destruct (Z.ltb_spec 0 r) as [Hpos|Hzero].
  - specialize (Hpair Hpos).
    destruct rest as [|y rest]; [simpl in Hhalf; lia|].
    cbn [place_at Datatypes.length].
    destruct (assign items (begin + i) (Some x)) as [items1|]; [|reflexivity].
    rewrite Z.add_assoc.
    destruct (assign items1 (begin + i + 1) (Some y)) as [items2|]; [|reflexivity].
    rewrite <- Z.add_assoc.
    apply (IH (length rest)); simpl in *; try lia; reflexivity.
  - cbn [place_at].
    destruct (assign items (begin + i) (Some x)) as [items1|]; [|reflexivity].
    rewrite <- Z.add_assoc.
    apply (IH (length rest)); simpl in *; try lia; reflexivity.
Qed.

(** [rearrange_items] of src/OrderedVector.h on a window that holds at
    least one item: the items of the window are written back in order at
    the offsets [stride_offsets], inside the window. *)
Lemma OrderedVector_rearrange_items_app (A W C : list (option T)) begin end_ :
  begin = size A -> end_ = begin + size W -> 1 <= total W ->
  exists W',
    OrderedVector.rearrange_items (A ++ W ++ C) begin end_ = Some (A ++ W' ++ C) /\
    size W' = size W /\ values W' = values W /\
    place_at (A ++ replicate (length W) None ++ C) begin
      (stride_offsets (size W) (total W)) (values W) = Some (A ++ W' ++ C) /\
    ascending 0 (stride_offsets (size W) (total W)) (size W) = true /\
    length (stride_offsets (size W) (total W)) = length (values W).
Proof.
  intros Hb He Hn. unfold OrderedVector.rearrange_items, OrderedVector.gather.
  rewrite (get_items_app A W C begin end_ Hb ltac:(lia)). cbn [fst snd].
  fold (total W). replace (end_ - begin) with (size W) by lia.
  pose proof (total_bounds W) as Htb.
  destruct (Z.eqb_spec (total W) 0) as [|_]; [lia|].
  set (nd := (size W + total W - 1) / total W).
  pose proof (ceiling_bounds (size W) (total W) Hn) as Hnd. fold nd in Hnd.
  assert (Hpos : 1 <= nd) by (apply (stride_pos (size W) (total W)); lia).
  destruct (Z.eqb_spec nd 0) as [|_]; [lia|].
  assert (Hr0 : 0 <= total W - size W / nd)
    by (apply (remainder_nonneg (size W) (total W)); lia).
  assert (Hr2 : 0 < total W - size W / nd -> 2 <= nd)
    by (apply (remainder_stride (size W) (total W)); lia).
  assert (Hrh : 2 * (total W - size W / nd) <= total W)
    by (apply (remainder_half (size W) (total W)); lia).
  assert (Hrr : nd * (total W - (total W - size W / nd)) <= size W)
    by (apply (remainder_room (size W) (total W)); lia).
  set (r := total W - size W / nd) in *.
  destruct (strides_ascending (length (values W)) 0 nd r (size W))
    as [Hasc Hlen]; try (unfold total in *; lia).
  pose proof (OrderedVector_rearrange_loop_strides (values W)
                (A ++ replicate (length W) None ++ C) begin 0 end_ nd r) as Hloop.
  rewrite Z.add_0_r in Hloop. rewrite Hloop by (unfold total in *; lia).
  clear Hloop.
  destruct (place_at_app (values W) (strides (length (values W)) 0 nd r)
              A [] (length W) C begin) as (W' & HW & Hs & Hv); auto.
  simpl in HW. simpl in Hv.
  assert (Hs' : size W' = size W) by (rewrite Hs; unfold size; simpl; lia).
  assert (Hoff : stride_offsets (size W) (total W)
                 = strides (length (values W)) 0 nd r).
  { unfold stride_offsets. fold nd. fold r. unfold total. now rewrite Nat2Z.id. }
  exists W'. rewrite Hoff. repeat split; auto.
Qed.
End StrideLoop.

(** ** The density scan of src/OrderedVector.h *)

Section OrderedVectorScan.
Context {T : Type} (block_size : Z) {FO : FloatOps} (B : Z).
Context (Hblock : 0 < block_size) (Hlaws : float_laws_OrderedVector block_size B).
Implicit Types (items : list (option T)).

Lemma OrderedVector_scan_rec_eq fuel items begin end_ depth :
  OrderedVector.scan_rec block_size fuel items begin end_ depth =
  match OrderedVector.count_items items begin end_ with
  | None => None
  | Some c =>
  let count := of_int c in
  match OrderedVector.get_thresholds block_size items depth with
  | None => None
  | Some th =>
  let lower := fst th in
  let upper := snd th in
  let density := fdiv count (of_int (end_ - begin)) in
  if depth =? 0 then
    let items1 := if fle upper density then resize items (size items * 2)
                  else items in
    if flt (of_int 0) count then OrderedVector.rearrange_items items1 begin end_
    else Some items1
  else if fle lower density && flt density upper then
    match OrderedVector.tree_height block_size items with
    | None => None
    | Some h =>
        if negb (depth =? h) then OrderedVector.rearrange_items items begin end_
        else Some items
    end
  else
    let depth_block_size := size items / 2 ^ depth in
    if depth_block_size =? 0 then None else
    let left_child := Z.rem (Z.quot begin depth_block_size) 2 =? 0 in
    let block_begin := if left_child then begin else begin - depth_block_size in
    let block_end := if left_child then end_ + depth_block_size else end_ in
    match fuel with
    | O => None
    | S fuel' =>
        OrderedVector.scan_rec block_size fuel' items block_begin block_end (depth - 1)
    end
  end end.
Proof. destruct fuel; reflexivity. Qed.

Lemma resize_double items :
  resize items (size items * 2) = items ++ replicate (length items) None.
Proof.
  unfold resize, size. rewrite take_ge by lia. f_equal. f_equal. lia.
Qed.

(** Redistribution of a window that holds an item keeps the values of the
    array. *)
Lemma OrderedVector_respread items b e :
  0 <= b <= e -> e <= size items -> 1 <= total (window items b e) ->
  exists items',
    OrderedVector.rearrange_items items b e = Some items' /\
    values items' = values items /\ size items' = size items.
Proof.
  intros Hb He Hn.
  destruct (window_split items b e Hb He) as (A & C & Heq & HA & HW).
  remember (window items b e) as W eqn:HeqW. clear HeqW. subst items.
  destruct (OrderedVector_rearrange_items_app A W C b e)
    as (W' & Hr & Hs & Hv & _); [lia|lia|exact Hn|].
  exists (A ++ W' ++ C). split; [exact Hr|]. split.
  - rewrite !values_app. now rewrite Hv.
  - rewrite !size_app. lia.
Qed.

Lemma pow2_quotient h d :
  0 <= d <= h -> block_size * 2 ^ h / 2 ^ d = block_size * 2 ^ (h - d).
Proof.
  intros Hd. replace h with (h - d + d) at 1 by lia.
  rewrite Z.pow_add_r by lia. rewrite Z.mul_assoc.
  apply Z.div_mul. pose proof (pow2_pos d ltac:(lia)). lia.
Qed.

(** One level of [scan]: it finishes with the same values, a capacity of
    the same shape and a free slot, or it moves to the parent window. *)
Lemma OrderedVector_scan_step fuel d items b e h m :
  1 <= h -> size items = block_size * 2 ^ h -> 2 * size items <= B ->
  0 <= d <= h -> 0 <= m ->
  b = m * (block_size * 2 ^ (h - d)) ->
  e = b + block_size * 2 ^ (h - d) -> e <= size items ->
  (exists items',
     OrderedVector.scan_rec block_size fuel items b e d = Some items' /\
     values items' = values items /\ shape block_size items' /\
     size items <= size items' <= 2 * size items /\
     total items' < size items') \/
  (0 < d /\ exists pb pe,
      OrderedVector.scan_rec block_size fuel items b e d =
        match fuel with
        | O => None
        | S fuel' => OrderedVector.scan_rec block_size fuel' items pb pe (d - 1)
        end /\
      pb = (m / 2) * (block_size * 2 ^ (h - (d - 1))) /\
      pe = pb + block_size * 2 ^ (h - (d - 1)) /\ pe <= size items).
Proof.
  intros Hh Hs HB Hd Hm Hb He Hes.
  set (w := block_size * 2 ^ (h - d)) in *.
  pose proof (pow2_pos (h - d) ltac:(lia)) as Hpw.
  pose proof (pow2_pos d ltac:(lia)) as Hpd.
  pose proof (pow2_pos h ltac:(lia)) as Hph.
  assert (Hw : 0 < w) by (unfold w; nia).
  assert (Hsw : size items = w * 2 ^ d).
  { rewrite Hs. unfold w. rewrite <- Z.mul_assoc, <- Z.pow_add_r by lia.
    f_equal. f_equal. lia. }
  assert (Hmw : m + 1 <= 2 ^ d) by nia.
  rewrite OrderedVector_scan_rec_eq. unfold OrderedVector.count_items.
  rewrite (count_items_spec items b e) by lia.
  set (c := total (window items b e)).
  pose proof (window_total_bound items b e ltac:(lia)) as Hcb. fold c in Hcb.
  cbv zeta. unfold OrderedVector.get_thresholds.
  rewrite (get_thresholds_pow block_size Hblock items h d) by (auto; lia).
  simpl fst. simpl snd. replace (e - b) with w by lia.
  change (fdiv (of_int c) (of_int w)) with (density_of c w).
  destruct (law_tests_OrderedVector block_size B h d c Hlaws)
    as (Hle & Hlt & Hge & Hcount); try lia.
  fold w in Hle, Hlt, Hge.
  pose proof (window_total_le items b e ltac:(lia) Hes) as Htot. fold c in Htot.
  destruct (Z.eqb_spec d 0) as [Hd0|Hd0].
  - (* the root *)
    left. subst d. rewrite Z.pow_0_r in *.
    assert (m = 0) by lia. subst m.
    assert (Hb0 : b = 0) by lia. assert (He0 : e = size items) by lia.
    assert (Hc : c = total items).
    { unfold c. rewrite Hb0, He0. now rewrite window_whole. }
    rewrite Hge, Hcount.
    destruct (Z.leb_spec (w * (3 * h + 0)) (4 * c * h)) as [Hup|Hup].
    + (* grown *)
      rewrite resize_double.
      destruct (Z.ltb_spec 0 c) as [Hpos|Hzero].
      * destruct (OrderedVector_rearrange_items_app [] items
                    (replicate (length items) None) b e)
          as (W' & Hr & Hsz & Hv & _); [rewrite size_nil; lia|lia|lia|].
        simpl in Hr. exists (W' ++ replicate (length items) None).
        split; [exact Hr|]. split.
        { rewrite values_app, values_replicate_None, app_nil_r. exact Hv. }
        assert (Hsize : size (W' ++ replicate (length items) None) = 2 * size items).
        { rewrite size_app, size_replicate. unfold size in *. lia. }
        split.
        { exists (h + 1). split; [lia|]. rewrite Hsize, Hs, pow2_succ by lia. lia. }
        split; [lia|].
        rewrite total_app, total_replicate_None.
        unfold total at 1. rewrite Hv. fold (total items).
        pose proof (total_bounds items). lia.
      * exists (items ++ replicate (length items) None).
        split; [reflexivity|]. split.
        { now rewrite values_app, values_replicate_None, app_nil_r. }
        assert (Hsize : size (items ++ replicate (length items) None) = 2 * size items).
        { rewrite size_app, size_replicate. unfold size in *. lia. }
        split.
        { exists (h + 1). split; [lia|]. rewrite Hsize, Hs, pow2_succ by lia. lia. }
        split; [lia|].
        rewrite total_app, total_replicate_None. lia.
    + (* same capacity *)
      assert (Hfree : c < w) by nia.
      destruct (Z.ltb_spec 0 c) as [Hpos|Hzero].
      * destruct (OrderedVector_respread items b e) as (items' & Hr & Hv & Hsz);
          try lia.
        exists items'. split; [exact Hr|]. split; [exact Hv|]. split.
        { exists h. rewrite Hsz. auto. }
        split; [lia|].
        unfold total. rewrite Hv. fold (total items). lia.
      * exists items. split; [reflexivity|]. split; [reflexivity|]. split.
        { exists h. auto. }
        split; lia.
  - rewrite Hle, Hlt.
    destruct ((w * (2 * h - d) <=? 4 * c * h) && (4 * c * h <? w * (3 * h + d)))
      eqn:Hin.
    + (* within the thresholds *)
      left. apply andb_true_iff in Hin as [Hlo Hup].
      apply Z.leb_le in Hlo. apply Z.ltb_lt in Hup.
      assert (Hpos : 1 <= c) by nia.
      assert (Hfree : c < w) by nia.
      unfold OrderedVector.tree_height.
      rewrite (tree_height_pow block_size Hblock items h) by (auto; lia).
      destruct (negb (d =? h)).
      * destruct (OrderedVector_respread items b e) as (items' & Hr & Hv & Hsz);
          try lia.
        exists items'. split; [exact Hr|]. split; [exact Hv|]. split.
        { exists h. rewrite Hsz. auto. }
        split; [lia|].
        unfold total. rewrite Hv. fold (total items). lia.
      * exists items. split; [reflexivity|]. split; [reflexivity|]. split.
        { exists h. auto. }
        split; lia.
    + (* one level up *)
      right. split; [lia|].
      rewrite Hs, (pow2_quotient h d) by lia. fold w.
      destruct (Z.eqb_spec w 0) as [|_]; [lia|].
      replace (Z.quot b w) with m by (rewrite Hb; symmetry; apply Z.quot_mul; lia).
      rewrite Z.rem_mod_nonneg by lia.
      assert (Hparent : block_size * 2 ^ (h - (d - 1)) = w * 2).
      { unfold w. replace (h - (d - 1)) with (h - d + 1) by lia.
        rewrite pow2_succ by lia. lia. }
      assert (Hd2 : 2 ^ d = 2 * 2 ^ (d - 1)).
      { replace d with (d - 1 + 1) at 1 by lia. apply pow2_succ. lia. }
      pose proof (Z.div_mod m 2 ltac:(lia)) as Hdm.
      pose proof (Z.mod_pos_bound m 2 ltac:(lia)) as Hmod.
      rewrite Hparent.
      assert (Hq1 : m / 2 + 1 <= 2 ^ (d - 1)) by lia.
      assert (Hqw : (m / 2 + 1) * (w * 2) <= size items).
      { rewrite Hsw, Hd2.
        replace (w * (2 * 2 ^ (d - 1))) with (2 ^ (d - 1) * (w * 2)) by ring.
        apply Z.mul_le_mono_nonneg_r; lia. }
      assert (Hbq : b = m / 2 * (w * 2) + m mod 2 * w).
      { rewrite Hb. rewrite Hdm at 1. ring. }
      destruct (Z.eqb_spec (m mod 2) 0) as [Hpar|Hpar].
      * exists b, (e + w). split; [reflexivity|]. repeat split; lia.
      * exists (b - w), e. split; [reflexivity|].
        assert (m mod 2 = 1) as Hone by lia. rewrite Hone in Hbq.
        repeat split; lia.
Qed.

Lemma OrderedVector_scan_rec_spec fuel : forall d items b e h m,
  1 <= h -> size items = block_size * 2 ^ h -> 2 * size items <= B ->
  0 <= d <= h -> (Z.to_nat d <= fuel)%nat -> 0 <= m ->
  b = m * (block_size * 2 ^ (h - d)) ->
  e = b + block_size * 2 ^ (h - d) -> e <= size items ->
  exists items',
    OrderedVector.scan_rec block_size fuel items b e d = Some items' /\
    values items' = values items /\ shape block_size items' /\
    size items <= size items' <= 2 * size items /\
    total items' < size items'.
Proof.
  induction fuel as [|fuel IH]; intros d items b e h m Hh Hs HB Hd Hfuel Hm Hb He Hes.
  - destruct (OrderedVector_scan_step 0 d items b e h m) as [Hdone|[Hpos _]]; auto.
    lia.
  - destruct (OrderedVector_scan_step (S fuel) d items b e h m)
      as [Hdone|(Hpos & pb & pe & -> & Hpb & Hpe & Hpes)]; auto.
    apply (IH (d - 1) items pb pe h (m / 2)); auto; try lia.
    apply Z.div_pos; lia.
Qed.

(** [scan] on an aligned window of the tree. *)
Lemma OrderedVector_scan_spec items b e h d m :
  1 <= h -> size items = block_size * 2 ^ h -> 2 * size items <= B ->
  0 <= d <= h -> 0 <= m ->
  b = m * (block_size * 2 ^ (h - d)) ->
  e = b + block_size * 2 ^ (h - d) -> e <= size items ->
  exists items',
    OrderedVector.scan block_size items b e d = Some items' /\
    values items' = values items /\ shape block_size items' /\
    size items <= size items' <= 2 * size items /\
    total items' < size items'.
Proof.
  intros. unfold OrderedVector.scan. eapply OrderedVector_scan_rec_spec; eauto.
Qed.
End OrderedVectorScan.

(** ** The operations of src/OrderedVector.h *)

Ltac bounds_tac :=
match goal with
| Hb : _ <= _ < size _ |- _ =>
    revert Hb;
    repeat (rewrite size_app || rewrite size_cons || rewrite size_nil);
    simpl; lia
end.

Section FreeSlot.
Context {T : Type} (less : T -> T -> bool).
Implicit Types (items : list (option T)) (t : T).

Import packed_memory_array.

(** The shifts of [push] free the slot where [t] belongs. *)
Lemma OrderedVector_free_slot_spec items t i c :
  total items < size items -> insertion_point less items t i c ->
  exists items1 i1 items2,
    OrderedVector.free_slot less items t i = Some (items1, i1) /\
    assign items1 i1 (Some t) = Some items2 /\
    0 <= i1 < size items /\ size items2 = size items /\
    values items2 = values (take (Z.to_nat c) items) ++
                    t :: values (drop (Z.to_nat c) items).
Proof.
  intros Hgap Hpt. unfold insertion_point in Hpt. unfold OrderedVector.free_slot.
  destruct (at_ items i) as [[v|]|] eqn:Hi; [| |contradiction].
  - (* occupied *)
    pose proof (at_bounds _ _ _ Hi) as Hb.
    destruct (gap_exists items Hgap) as [j Hj].
    pose proof (at_bounds _ _ _ Hj) as Hjb.
    destruct Hpt as [(Htv & Hvt & ->) | (Hvt & Htv & -> & Hlast)].
    + (* t below the occupant *)
      unfold OrderedVector.bigger_than. rewrite Hvt.
      unfold OrderedVector.shifted_right.
      destruct (run_right_spec (length items) items i)
        as (r & -> & Hrb & Hocc & Hgr); [lia|unfold size; lia|].
      destruct (lt_size r items) eqn:E; cbn [negb fst snd].
      * apply lt_size_true in E. specialize (Hgr ltac:(lia)).
        assert (r <> i) by congruence.
        destruct (split_right items i r None) as (A & W & C & -> & HA & HW);
          [lia|exact Hgr|].
        rewrite (shift_right_app A W None C) by lia. cbn [fst snd].
        exists (A ++ None :: W ++ C), i. rewrite (assign_middle A None (W ++ C)) by lia.
        eexists. split; [reflexivity|]. split; [reflexivity|]. split; [bounds_tac|]. split.
        { repeat (rewrite size_app || rewrite size_cons); lia. }
        destruct (cut_app A (W ++ None :: C) i) as [-> ->]; [lia|].
        values_norm.
      * apply lt_size_false in E. assert (r = size items) as -> by lia.
        assert (Hji : j < i).
        { destruct (Z.lt_ge_cases j i) as [|Hge]; [assumption|].
          destruct (Hocc j ltac:(lia)) as [w Hw]. congruence. }
        destruct (at_in_range items (i - 1)) as [o' Ho']; [lia|]. rewrite Ho'.
        destruct o' as [v'|]; cbn [occupied].
        -- unfold OrderedVector.shifted_left.
           destruct (run_left_spec (length items) items (i - 1))
             as (l & -> & Hlb & Hlocc & Hgl); [lia|unfold size in *; lia|].
           assert (Hl0 : 0 <= l).
           { destruct (Z.lt_ge_cases l 0) as [Hneg|]; [|assumption].
             destruct (Hlocc j ltac:(lia)) as [w Hw]. congruence. }
           specialize (Hgl Hl0).
           destruct (Z.ltb_spec l 0) as [|_]; [lia|]. cbn [fst snd].
           assert (l <> i - 1) by congruence.
           destruct (split_left items l (i - 1) None) as (A & W & C & -> & HA & HW);
             [exact Hgl|lia|].
           rewrite (shift_left_app A W None C) by lia. cbn [fst snd].
           exists (A ++ W ++ None :: C), (i - 1).
           rewrite app_assoc.
           rewrite (assign_middle (A ++ W) None C) by (rewrite size_app; lia).
           eexists. split; [reflexivity|]. split; [reflexivity|]. split; [bounds_tac|]. split.
           { repeat (rewrite size_app || rewrite size_cons); lia. }
           replace (A ++ None :: W ++ C) with ((A ++ None :: W) ++ C)
             by now rewrite <- app_assoc.
           destruct (cut_app (A ++ None :: W) C i) as [-> ->];
             [rewrite size_app, size_cons; lia|].
           values_norm.
        -- destruct (split_right items (i - 1) (i - 1) None)
             as (A & W & C & -> & HA & HW); [lia|exact Ho'|].
           assert (W = []) as -> by (apply size_zero_nil; lia). cbn [app].
           exists (A ++ None :: C), (i - 1).
           rewrite (assign_middle A None C) by lia.
           eexists. split; [reflexivity|]. split; [reflexivity|]. split; [bounds_tac|]. split.
           { repeat (rewrite size_app || rewrite size_cons); lia. }
           replace (A ++ None :: C) with ((A ++ [None]) ++ C) by now rewrite <- app_assoc.
           destruct (cut_app (A ++ [None]) C i) as [-> ->];
             [rewrite size_app, size_cons, size_nil; lia|].
           values_norm.
    + (* t above the last slot *)
      unfold OrderedVector.bigger_than. rewrite Hvt.
      unfold OrderedVector.shifted_left.
      destruct (run_left_spec (length items) items i)
        as (l & -> & Hlb & Hlocc & Hgl); [lia|unfold size in *; lia|].
      assert (Hji : j < i).
      { assert (j <> i) by congruence. lia. }
      assert (Hl0 : 0 <= l).
      { destruct (Z.lt_ge_cases l 0) as [Hneg|]; [|assumption].
        destruct (Hlocc j ltac:(lia)) as [w Hw]. congruence. }
      specialize (Hgl Hl0).
      destruct (Z.ltb_spec l 0) as [|_]; [lia|]. cbn [fst snd].
      assert (l <> i) by congruence.
      destruct (split_left items l i None) as (A & W & C & -> & HA & HW);
        [exact Hgl|lia|].
      rewrite (shift_left_app A W None C) by lia. cbn [fst snd].
      exists (A ++ W ++ None :: C), i.
      rewrite app_assoc.
      rewrite (assign_middle (A ++ W) None C) by (rewrite size_app; lia).
      eexists. split; [reflexivity|]. split; [reflexivity|]. split; [bounds_tac|]. split.
      { repeat (rewrite size_app || rewrite size_cons); lia. }
      replace (A ++ None :: W ++ C) with ((A ++ None :: W) ++ C)
        by now rewrite <- app_assoc.
      destruct (cut_app (A ++ None :: W) C (i + 1)) as [-> ->];
        [rewrite size_app, size_cons; lia|].
      values_norm.
  - (* empty *)
    subst c. pose proof (at_bounds _ _ _ Hi) as Hb.
    destruct (split_right items i i None) as (A & W & C & -> & HA & HW);
      [lia|exact Hi|].
    assert (W = []) as -> by (apply size_zero_nil; lia). cbn [app].
    exists (A ++ None :: C), i.
    rewrite (assign_middle A None C) by lia.
    eexists. split; [reflexivity|]. split; [reflexivity|]. split; [bounds_tac|]. split.
    { repeat (rewrite size_app || rewrite size_cons); lia. }
    destruct (cut_app A (None :: C) i) as [-> ->]; [lia|].
    values_norm.
Qed.
End FreeSlot.

Section OrderedVectorOperations.
Context {T : Type} (less : T -> T -> bool) (Hord : strict_order less).
Context (block_size : Z) {FO : FloatOps} (B : Z).
Context (Hblock : 0 < block_size) (Hlaws : float_laws_OrderedVector block_size B).
Implicit Types (items : list (option T)) (t : T).

(** [push] of a value that is not stored: the value enters at its place,
    the array keeps its shape, stays increasing and keeps a free slot. *)
Lemma OrderedVector_push_spec items t :
  shape block_size items -> 2 * size items <= B -> increasing less items ->
  total items < size items -> ~ stored less items t ->
  exists items' L R,
    OrderedVector.push less block_size items t = Some items' /\
    values items = L ++ R /\ values items' = L ++ t :: R /\
    shape block_size items' /\ size items <= size items' <= 2 * size items /\
    increasing less items' /\ total items' < size items'.
Proof.
  intros Hshape HB Hinc Hgap Habsent.
  pose proof (shape_size_pos block_size Hblock items Hshape) as Hpos.
  pose proof Hshape as (h & Hh & Hs).
  rewrite OrderedVector_push_free_slot, OrderedVector_index_of_same.
  destruct (index_of_bounds less items t Hpos) as (i & Hi & Hib). rewrite Hi.
  pose proof (index_of_located less Hord items t i Hinc Hi) as Hloc.
  destruct (located_insertion less Hord items t i Habsent Hloc Hib)
    as (c & Hc & Hbr & Hpt).
  destruct (OrderedVector_free_slot_spec less items t i c Hgap Hpt)
    as (items1 & i1 & items2 & -> & Ha & Hi1 & Hsz2 & Hv2).
  cbn [fst snd]. rewrite Ha.
  unfold OrderedVector.tree_height.
  rewrite (tree_height_pow block_size Hblock items2 h) by (auto; lia).
  destruct (leaf_bounds block_size Hblock items2 h i1 ltac:(lia) ltac:(lia) ltac:(lia))
    as (Hb0 & Hbi & Hbe & m & Hm & Hbm).
  set (bb := i1 / block_size * block_size) in *.
  destruct (OrderedVector_scan_spec block_size B Hblock Hlaws items2 bb
              (bb + block_size) h h m)
    as (items' & -> & Hv & Hsh & Hsz & Hfree); try lia.
  { replace (h - h) with 0 by lia. rewrite Z.pow_0_r, Z.mul_1_r. exact Hbm. }
  { replace (h - h) with 0 by lia. rewrite Z.pow_0_r, Z.mul_1_r. reflexivity. }
  destruct (bracket_Forall less items t c Hc Hbr) as [HL HR].
  exists items', (values (take (Z.to_nat c) items)),
         (values (drop (Z.to_nat c) items)).
  split; [reflexivity|]. split; [apply values_take_drop|].
  split; [rewrite Hv; exact Hv2|]. split; [exact Hsh|]. split; [lia|].
  split; [|exact Hfree].
  apply strong_increasing. rewrite Hv, Hv2. apply sorted_insert; auto.
  rewrite <- values_take_drop. apply (increasing_strong less Hord). exact Hinc.
Qed.

Lemma OrderedVector_equal_equivalent v t :
  OrderedVector.equal less v t = true <-> equivalent less v t.
Proof.
  unfold OrderedVector.equal, OrderedVector.bigger_than, equivalent.
  destruct (less v t), (less t v); simpl; intuition congruence.
Qed.

Lemma assign_None_empty items i :
  at_ items i = Some None -> assign items i None = Some items.
Proof.
  intros Hi. pose proof (at_bounds _ _ _ Hi) as Hb.
  rewrite assign_in_range by exact Hb. f_equal.
  apply list_insert_id. apply at_Some in Hi. tauto.
Qed.

(** [remove]: the array keeps its shape, stays increasing and keeps a
    free slot; a stored value equivalent to [t] leaves, and the values stay
    when there is none. *)
Lemma OrderedVector_remove_spec items t :
  shape block_size items -> 2 * size items <= B -> increasing less items ->
  total items < size items ->
  exists items',
    OrderedVector.remove less block_size items t = Some items' /\
    shape block_size items' /\ size items <= size items' <= 2 * size items /\
    increasing less items' /\ total items' < size items' /\
    (~ stored less items t -> values items' = values items) /\
    (stored less items t ->
     exists L v R, values items = L ++ v :: R /\ values items' = L ++ R /\
                   equivalent less v t).
Proof.
  intros Hshape HB Hinc Hgap.
  pose proof (shape_size_pos block_size Hblock items Hshape) as Hpos.
  pose proof Hshape as (h & Hh & Hs).
  unfold OrderedVector.remove. rewrite OrderedVector_index_of_same.
  destruct (index_of_bounds less items t Hpos) as (i & Hi & Hib). rewrite Hi.
  assert (Hfound : stored less items t ->
                   exists v, at_ items i = Some (Some v) /\ equivalent less v t).
  { intros Hst.
    destruct (index_of_stored less Hord items t Hpos Hinc Hst) as (i' & v' & Hi' & Hv' & He').
    rewrite Hi in Hi'. injection Hi' as <-. eauto. }
  destruct (at_in_range items i Hib) as [o Ho]. rewrite Ho.
  destruct (leaf_bounds block_size Hblock items h i ltac:(lia) Hs Hib)
    as (Hb0 & Hbi & Hbe & m & Hm & Hbm).
  set (bb := i / block_size * block_size) in *.
  destruct o as [v|].
  - destruct (OrderedVector.equal less v t) eqn:Heq; cbn [negb].
    + apply OrderedVector_equal_equivalent in Heq.
      rewrite (assign_in_range items i None Hib).
      set (items1 := <[Z.to_nat i := None]> items).
      assert (Ha : assign items i None = Some items1)
        by (apply assign_in_range; exact Hib).
      pose proof (size_assign _ _ _ _ Ha) as Hs1.
      destruct (values_assign_None items i v items1 Ho Ha) as (L & R & HvL & Hv1).
      assert (Hinc1 : increasing less items1).
      { apply strong_increasing. rewrite Hv1. apply (sorted_remove less L R v).
        rewrite <- HvL. apply (increasing_strong less Hord). exact Hinc. }
      unfold OrderedVector.tree_height.
      rewrite (tree_height_pow block_size Hblock items1 h) by (auto; lia).
      destruct (OrderedVector_scan_spec block_size B Hblock Hlaws items1 bb
                  (bb + block_size) h h m)
        as (items' & -> & Hv & Hsh & Hsz & Hfree); try lia.
      { replace (h - h) with 0 by lia. rewrite Z.pow_0_r, Z.mul_1_r. exact Hbm. }
      { replace (h - h) with 0 by lia. rewrite Z.pow_0_r, Z.mul_1_r. reflexivity. }
      exists items'. split; [reflexivity|]. split; [exact Hsh|]. split; [lia|].
      split; [unfold increasing; rewrite Hv; exact Hinc1|]. split; [exact Hfree|].
      split; [intros Habs; exfalso; apply Habs; exists i, v; auto|].
      intros _. exists L, v, R. rewrite Hv. auto.
    + exists items. split; [reflexivity|]. split; [exact Hshape|]. split; [lia|].
      split; [exact Hinc|]. split; [exact Hgap|]. split; [reflexivity|].
      intros Hst. destruct (Hfound Hst) as (v' & Hv' & He').
      rewrite Ho in Hv'. injection Hv' as <-.
      apply OrderedVector_equal_equivalent in He'. congruence.
  - rewrite (assign_None_empty items i Ho).
    unfold OrderedVector.tree_height.
    rewrite (tree_height_pow block_size Hblock items h) by (auto; lia).
    destruct (OrderedVector_scan_spec block_size B Hblock Hlaws items bb
                (bb + block_size) h h m)
      as (items' & -> & Hv & Hsh & Hsz & Hfree); try lia.
    { replace (h - h) with 0 by lia. rewrite Z.pow_0_r, Z.mul_1_r. exact Hbm. }
    { replace (h - h) with 0 by lia. rewrite Z.pow_0_r, Z.mul_1_r. reflexivity. }
    exists items'. split; [reflexivity|]. split; [exact Hsh|]. split; [lia|].
    split; [unfold increasing; rewrite Hv; exact Hinc|]. split; [exact Hfree|].
    split; [intros _; exact Hv|].
    intros Hst. destruct (Hfound Hst) as (v' & Hv' & He'). congruence.
Qed.

(** Every store the operations of [OrderedVector] build has the shape of
    the tree, is increasing and has a free slot. *)
Lemma reachable_OrderedVector_invariant items :
  reachable_OrderedVector less block_size B items ->
  shape block_size items /\ increasing less items /\ total items < size items.
Proof.
  induction 1 as [|items t items' Hreach (Hsh & Hinc & Hfree) HB Habs Hpush
                  |items t items' Hreach (Hsh & Hinc & Hfree) HB Hrem].
  - split; [|split].
    + exists 1. split; [lia|]. unfold OrderedVector.empty_store.
      rewrite size_replicate, Z.pow_1_r. lia.
    + unfold increasing, OrderedVector.empty_store.
      rewrite values_replicate_None. constructor.
    + unfold OrderedVector.empty_store.
      rewrite total_replicate_None, size_replicate. lia.
  - destruct (OrderedVector_push_spec items t Hsh HB Hinc Hfree Habs)
      as (items2 & L & R & Hp & _ & _ & Hsh2 & _ & Hinc2 & Hfree2).
    rewrite Hp in Hpush. injection Hpush as <-. auto.
  - destruct (OrderedVector_remove_spec items t Hsh HB Hinc Hfree)
      as (items2 & Hr & Hsh2 & _ & Hinc2 & Hfree2 & _).
    rewrite Hr in Hrem. injection Hrem as <-. auto.
Qed.

(** On such a store both operations return. *)
Lemma reachable_OrderedVector_progress items t :
  reachable_OrderedVector less block_size B items -> 2 * size items <= B ->
  (~ stored less items t ->
   exists items', OrderedVector.push less block_size items t = Some items') /\
  (exists items', OrderedVector.remove less block_size items t = Some items').
Proof.
  intros Hreach HB.
  destruct (reachable_OrderedVector_invariant items Hreach) as (Hsh & Hinc & Hfree).
  split.
  - intros Habs.
    destruct (OrderedVector_push_spec items t Hsh HB Hinc Hfree Habs)
      as (items2 & L & R & Hp & _). eauto.
  - destruct (OrderedVector_remove_spec items t Hsh HB Hinc Hfree)
      as (items2 & Hr & _). eauto.
Qed.
End OrderedVectorOperations.

(** ** More on src/OrderedVector.h *)

Section FreeSlotSafe.
Context {T : Type} (less : T -> T -> bool).
Implicit Types (items : list (option T)) (t : T).

Import packed_memory_array.

(** The shifts of [push] stay inside the array whenever it has a free
    slot, whatever the order of the values. *)
Lemma OrderedVector_free_slot_safe items t i v :
  at_ items i = Some (Some v) -> total items < size items ->
  exists items1 i1,
    OrderedVector.free_slot less items t i = Some (items1, i1) /\
    size items1 = size items /\ 0 <= i1 < size items.
Proof.
  intros Hi Hgap. pose proof (at_bounds _ _ _ Hi) as Hb.
  destruct (gap_exists items Hgap) as [j Hj].
  pose proof (at_bounds _ _ _ Hj) as Hjb.
  assert (Hne : j <> i) by congruence.
  unfold OrderedVector.free_slot. rewrite Hi.
  destruct (OrderedVector.bigger_than less t v).
  - unfold OrderedVector.shifted_left at 1.
    destruct (run_left_spec (length items) items i)
      as (l & -> & Hlb & Hlocc & Hgl); [lia|unfold size in *; lia|].
    destruct (Z.ltb_spec l 0) as [Hneg|Hl0]; cbn [fst snd].
    + assert (Hji : i < j).
      { destruct (Z.lt_ge_cases i j) as [|Hge]; [assumption|].
        destruct (Hlocc j ltac:(lia)) as [w Hw]. congruence. }
      destruct (at_in_range items (i + 1)) as [o' Ho']; [lia|]. rewrite Ho'.
      destruct (occupied o').
      * destruct (shifted_right_safe items (i + 1)) as (r & -> & Hs); [lia|].
        exists (snd r), (i + 1). split; [reflexivity|]. split; [exact Hs|lia].
      * exists items, (i + 1). split; [reflexivity|]. split; [reflexivity|lia].
    + destruct (shift_left_safe items i l) as (items' & -> & Hs); try lia.
      cbn [fst snd]. exists items', i. split; [reflexivity|]. split; [exact Hs|lia].
  - unfold OrderedVector.shifted_right at 1.
    destruct (run_right_spec (length items) items i)
      as (r & -> & Hrb & Hrocc & Hgr); [lia|unfold size; lia|].
    destruct (lt_size r items) eqn:E; cbn [negb fst snd].
    + apply lt_size_true in E.
      destruct (shift_right_safe items i r) as (items' & -> & Hs); try lia.
      cbn [fst snd]. exists items', i. split; [reflexivity|]. split; [exact Hs|lia].
    + apply lt_size_false in E.
      assert (Hji : j < i).
      { destruct (Z.lt_ge_cases j i) as [|Hge]; [assumption|].
        destruct (Hrocc j ltac:(lia)) as [w Hw]. congruence. }
      destruct (at_in_range items (i - 1)) as [o' Ho']; [lia|]. rewrite Ho'.
      destruct (occupied o').
      * destruct (shifted_left_safe items (i - 1)) as (r' & -> & Hs); [lia|].
        exists (snd r'), (i - 1). split; [reflexivity|]. split; [exact Hs|lia].
      * exists items, (i - 1). split; [reflexivity|]. split; [reflexivity|lia].
Qed.
End FreeSlotSafe.

Section OrderedVectorRoot.
Context {T : Type} (block_size : Z) {FO : FloatOps} (B : Z).
Context (Hblock : 0 < block_size) (Hlaws : float_laws_OrderedVector block_size B).
Implicit Types (items : list (option T)).

End OrderedVectorRoot.

Section OrderedVectorPlaced.
Context {T : Type}.
Implicit Types (items : list (option T)).

Lemma ascending_lookup ps : forall lo hi,
  ascending lo ps hi = true ->
  forall j p q, ps !! j = Some p -> ps !! S j = Some q -> p < q.
Proof.
  induction ps as [|a ps IH]; intros lo hi Hasc j p q Hp Hq; [discriminate|].
  simpl in Hasc. apply andb_true_iff in Hasc as [_ Hasc].
  destruct j as [|j].
  - simpl in Hp, Hq. injection Hp as <-.
    assert (q ∈ ps) as Hin by (apply list_elem_of_lookup; exists 0%nat; exact Hq).
    pose proof (ascending_bounds _ _ _ Hasc q Hin). lia.
  - apply (IH _ _ Hasc j); assumption.
Qed.

End OrderedVectorPlaced.

(** ** The local insertions of the two sibling revisions *)

Section SiblingInsertion.
Context {T : Type} (less : T -> T -> bool).
Implicit Types (items A B C : list (option T)) (t : T).

Import packed_memory_array.


End SiblingInsertion.

Section Neighbour.
Context {T : Type} (less : T -> T -> bool) (Hord : strict_order less).
Implicit Types (items : list (option T)) (t : T).

Import packed_memory_array.


End Neighbour.

Section SiblingPush.
Context {T : Type} (less : T -> T -> bool) (Hord : strict_order less).
Context (chunk_size : Z) {FO : FloatOps} (B : Z).
Context (Hchunk : 0 < chunk_size) (Hlaws : float_laws chunk_size B).
Implicit Types (items : list (option T)) (t : T).



End SiblingPush.

(** ** Erasing, and the searches for a free slot *)


Section RemoveStored.
Context {T : Type} (less : T -> T -> bool) (Hord : strict_order less).
Context (chunk_size : Z) {FO : FloatOps} (B : Z).
Context (Hchunk : 0 < chunk_size) (Hlaws : float_laws chunk_size B).
Implicit Types (items : list (option T)) (t : T).

Import packed_memory_array.

End RemoveStored.

Section NearestGap.
Context {T : Type}.
Implicit Types (items : list (option T)).

Import packed_memory_array.


(** The symmetric outward search of src/unnamed/part_001: no empty slot is
    nearer than [offset] when a round starts. *)
Lemma get_closest_gap_loop_nearest fuel : forall items index offset j,
  0 <= index < size items -> 1 <= offset ->
  at_ items j = Some None ->
  (forall k, at_ items k = Some None -> offset <= Z.abs (k - index)) ->
  (Z.to_nat (Z.abs (j - index) - offset) < fuel)%nat ->
  exists g, part_001.get_closest_gap_loop fuel items index offset = Some g /\
            at_ items g = Some None /\
            (forall k, at_ items k = Some None ->
                       Z.abs (g - index) <= Z.abs (k - index)) /\
            (g < index -> at_ items (index + (index - g)) <> Some None).
Proof.
  induction fuel as [|fuel IH]; intros items index offset j Hi Hoff Hj Hnear Hfuel;
    [lia|].
  pose proof (at_bounds _ _ _ Hj) as Hjb. pose proof (Hnear j Hj) as Hdist. simpl.
  assert (Hnext : at_ items (index + offset) <> Some None ->
                  at_ items (index - offset) <> Some None ->
                  forall k, at_ items k = Some None -> offset + 1 <= Z.abs (k - index)).
  { intros Hr Hl k Hk. pose proof (Hnear k Hk).
    destruct (Z.eq_dec (Z.abs (k - index)) offset) as [He|]; [|lia].
    exfalso.
    assert (k = index + offset \/ k = index - offset) as [->| ->] by lia;
      congruence. }
  destruct (lt_size (index + offset) items) eqn:Er.
  - apply lt_size_true in Er.
    destruct (at_in_range items (index + offset) Er) as [o Ho]. rewrite Ho.
    destruct o as [v|]; simpl.
    + destruct (Z.leb_spec 0 (index - offset)) as [El|El].
      * destruct (at_in_range items (index - offset)) as [o' Ho']; [lia|].
        rewrite Ho'. destruct o' as [v'|]; simpl.
        { assert (Hn : forall k, at_ items k = Some None ->
                                 offset + 1 <= Z.abs (k - index))
            by (apply Hnext; congruence).
          pose proof (Hn j Hj).
          apply (IH items index (offset + 1) j); auto; lia. }
        { exists (index - offset). split; [reflexivity|]. split; [exact Ho'|].
          split.
          - intros k Hk. pose proof (Hnear k Hk). lia.
          - intros _. replace (index + (index - (index - offset)))
              with (index + offset) by lia. congruence. }
      * assert (Hn : forall k, at_ items k = Some None ->
                               offset + 1 <= Z.abs (k - index)).
        { apply Hnext; [congruence|].
          intros Hk. apply at_bounds in Hk. lia. }
        pose proof (Hn j Hj).
        apply (IH items index (offset + 1) j); auto; lia.
    + exists (index + offset). split; [reflexivity|]. split; [exact Ho|].
      split; [|lia].
      intros k Hk. pose proof (Hnear k Hk). lia.
  - apply lt_size_false in Er.
    destruct (Z.leb_spec 0 (index - offset)) as [El|El].
    + destruct (at_in_range items (index - offset)) as [o' Ho']; [lia|].
      rewrite Ho'. destruct o' as [v'|]; simpl.
      * assert (Hn : forall k, at_ items k = Some None ->
                               offset + 1 <= Z.abs (k - index)).
        { apply Hnext; [|congruence].
          intros Hk. apply at_bounds in Hk. lia. }
        pose proof (Hn j Hj).
        apply (IH items index (offset + 1) j); auto; lia.
      * exists (index - offset). split; [reflexivity|]. split; [exact Ho'|].
        split.
        -- intros k Hk. pose proof (Hnear k Hk). lia.
        -- intros _ Hk. apply at_bounds in Hk. lia.
    + exfalso. lia.
Qed.

End NearestGap.

Section Shifted.
Context {T : Type}.
Implicit Types (items A B C : list (option T)).

Import packed_memory_array.

(** [shifted_right]: the first empty slot at or after [index] comes to
    [index], the run of occupied slots before it moves one slot right;
    without such a slot the answer is [false] and nothing moves. *)
Lemma shifted_right_spec items index :
  0 <= index < size items ->
  (exists A B C,
     items = A ++ B ++ None :: C /\ size A = index /\
     (forall j, index <= j < index + size B -> exists v, at_ items j = Some (Some v)) /\
     OrderedVector.shifted_right items index = Some (true, A ++ None :: B ++ C)) \/
  ((forall j, index <= j < size items -> exists v, at_ items j = Some (Some v)) /\
   OrderedVector.shifted_right items index = Some (false, items)).
Proof.
  intros Hi. unfold OrderedVector.shifted_right.
  destruct (run_right_spec (length items) items index)
    as (r & -> & Hrb & Hocc & Hgr); [lia|unfold size; lia|].
  destruct (lt_size r items) eqn:E; cbn [negb].
  - left. apply lt_size_true in E. specialize (Hgr ltac:(lia)).
    destruct (split_right items index r None) as (A & B & C & Heq & HA & HB);
      [lia|exact Hgr|].
    exists A, B, C. split; [exact Heq|]. split; [exact HA|]. split.
    + intros j Hj. apply Hocc. lia.
    + rewrite Heq at 1. rewrite (shift_right_app A B None C) by lia. reflexivity.
  - right. apply lt_size_false in E. split; [|reflexivity].
    intros j Hj. apply Hocc. lia.
Qed.

Lemma shifted_left_spec items index :
  0 <= index < size items ->
  (exists A B C,
     items = A ++ None :: B ++ C /\ size A + size B = index /\
     (forall j, size A < j <= index -> exists v, at_ items j = Some (Some v)) /\
     OrderedVector.shifted_left items index = Some (true, A ++ B ++ None :: C)) \/
  ((forall j, 0 <= j <= index -> exists v, at_ items j = Some (Some v)) /\
   OrderedVector.shifted_left items index = Some (false, items)).
Proof.
  intros Hi. unfold OrderedVector.shifted_left.
  destruct (run_left_spec (length items) items index)
    as (l & -> & Hlb & Hocc & Hgl); [lia|unfold size in *; lia|].
  destruct (Z.ltb_spec l 0) as [E|E].
  - right. split; [|reflexivity]. intros j Hj. apply Hocc. lia.
  - left. specialize (Hgl E).
    destruct (split_left items l index None) as (A & B & C & Heq & HA & HB);
      [exact Hgl|lia|].
    exists A, B, C. split; [exact Heq|]. split; [lia|]. split.
    + intros j Hj. apply Hocc. lia.
    + rewrite Heq at 1. rewrite (shift_left_app A B None C) by lia. reflexivity.
Qed.
End Shifted.

(** ** The driver: src/file_handler.cpp *)

Section Strings.
Import String Ascii.

Lemma append_empty_r (s : string) : append s EmptyString = s.
Proof. induction s as [|c s IH]; simpl; [reflexivity|now rewrite IH]. Qed.

Lemma append_associative (a b c : string) :
  append (append a b) c = append a (append b c).
Proof. induction a as [|x a IH]; simpl; [reflexivity|now rewrite IH]. Qed.

Lemma spaceless_append (a b : string) :
  file_handler.spaceless (append a b)
  = file_handler.spaceless a && file_handler.spaceless b.
Proof.
  induction a as [|x a IH]; simpl; [reflexivity|].
  rewrite IH. now rewrite andb_assoc.
Qed.

Lemma is_token_spaceless (s : string) :
  file_handler.is_token s = true -> file_handler.spaceless s = true /\ s <> EmptyString.
Proof. destruct s; simpl; [discriminate|]. intros H. split; [exact H|discriminate]. Qed.

(** Every token that [split_on_space] returns, and the one being read,
    is free of whitespace. *)
Lemma split_loop_tokens (line : string) : forall token,
  file_handler.spaceless token = true ->
  Forall (fun s => file_handler.is_token s = true) (file_handler.split_loop line token).
Proof.
  induction line as [|c rest IH]; intros token Htoken; simpl.
  - destruct token; [constructor|]. constructor; [exact Htoken|constructor].
  - destruct (file_handler.isspace c) eqn:Hc.
    + destruct token.
      * apply IH. reflexivity.
      * constructor; [exact Htoken|]. apply IH. reflexivity.
    + apply IH. rewrite spaceless_append, Htoken. simpl. now rewrite Hc.
Qed.

(** Reading a token [s] that is followed by [rest]. *)
Lemma split_loop_spaceless (s : string) : forall rest token,
  file_handler.spaceless s = true ->
  file_handler.split_loop (append s rest) token
  = file_handler.split_loop rest (append token s).
Proof.
  induction s as [|c s IH]; intros rest token Hs; simpl.
  - now rewrite append_empty_r.
  - simpl in Hs. apply andb_true_iff in Hs as [Hc Hs].
    apply negb_true_iff in Hc. rewrite Hc.
    rewrite IH by exact Hs. now rewrite append_associative.
Qed.

Lemma split_loop_concat (tokens : list string) : forall t,
  Forall (fun s => file_handler.is_token s = true) (t :: tokens) ->
  file_handler.split_loop (concat file_handler.space (t :: tokens)) EmptyString
  = t :: tokens.
Proof.
  induction tokens as [|t2 tokens IH]; intros t Hall.
  - apply Forall_inv in Hall. apply is_token_spaceless in Hall as [Hs Hne].
    cbn [concat].
    rewrite <- (append_empty_r t) at 1.
    rewrite (split_loop_spaceless t EmptyString EmptyString Hs). simpl.
    destruct t; [contradiction|reflexivity].
  - pose proof (Forall_inv Hall) as Ht. apply Forall_inv_tail in Hall.
    apply is_token_spaceless in Ht as [Hs Hne].
    change (concat file_handler.space (t :: t2 :: tokens))
      with (append t (append file_handler.space
                             (concat file_handler.space (t2 :: tokens)))).
    rewrite (split_loop_spaceless t _ EmptyString Hs).
    cbn [append file_handler.space].
    change (file_handler.split_loop
              (String (ascii_of_nat 32) (concat file_handler.space (t2 :: tokens))) t)
      with (if file_handler.isspace (ascii_of_nat 32)
            then match t with
                 | EmptyString =>
                     file_handler.split_loop
                       (concat file_handler.space (t2 :: tokens)) EmptyString
                 | String _ _ =>
                     t :: file_handler.split_loop
                            (concat file_handler.space (t2 :: tokens)) EmptyString
                 end
            else file_handler.split_loop
                   (concat file_handler.space (t2 :: tokens))
                   (append t (String (ascii_of_nat 32) EmptyString))).
    change (file_handler.isspace (ascii_of_nat 32)) with true. cbv iota.
    destruct t; [contradiction|]. f_equal. apply IH. exact Hall.
Qed.
End Strings.

Section Driver.
Import String Ascii.
Context {FO : FloatOps}.
Context (stoi : string -> option Z) (show : Z -> string).

Lemma split_render_argument (name : string) value :
  file_handler.is_token name = true ->
  file_handler.is_token (show value) = true ->
  file_handler.split_on_space (concat file_handler.space [name; show value])
  = [name; show value].
Proof.
  intros Hn Hv. unfold file_handler.split_on_space.
  apply split_loop_concat. repeat constructor; assumption.
Qed.

(** One round of the loop on the line of a request. *)
Lemma main_loop_render r rest v line_count output :
  file_handler.readable stoi show r ->
  file_handler.main_loop stoi show (file_handler.render show r :: rest)
    v line_count output =
  match r with
  | file_handler.Inc value =>
      match OrderedVector.push Z.ltb 8 v value with
      | Some v' => file_handler.main_loop stoi show rest v' (line_count + 1) output
      | None => file_handler.Aborted
      end
  | file_handler.Rem value =>
      match OrderedVector.remove Z.ltb 8 v value with
      | Some v' => file_handler.main_loop stoi show rest v' (line_count + 1) output
      | None => file_handler.Aborted
      end
  | file_handler.Suc value =>
      match OrderedVector.successor Z.ltb v value with
      | Some s =>
          file_handler.main_loop stoi show rest v (line_count + 1)
            (append output (append (show s) file_handler.endl))
      | None => file_handler.Aborted
      end
  | file_handler.Imp =>
      file_handler.main_loop stoi show rest v (line_count + 1)
        (append output (append (OrderedVector.print show v) file_handler.endl))
  end.
Proof.
  intros Hr. destruct r as [value|value|value|]; cbn [file_handler.readable] in Hr;
    cbn [file_handler.main_loop file_handler.render].
  - destruct Hr as [Hs Ht].
    rewrite (split_render_argument "INC" value eq_refl Ht).
    change (("INC" =? "INC")%string) with true. cbv iota. rewrite Hs. reflexivity.
  - destruct Hr as [Hs Ht].
    rewrite (split_render_argument "REM" value eq_refl Ht).
    change (("REM" =? "INC")%string) with false.
    change (("REM" =? "REM")%string) with true. cbv iota. rewrite Hs. reflexivity.
  - destruct Hr as [Hs Ht].
    rewrite (split_render_argument "SUC" value eq_refl Ht).
    change (("SUC" =? "INC")%string) with false.
    change (("SUC" =? "REM")%string) with false.
    change (("SUC" =? "SUC")%string) with true. cbv iota. rewrite Hs. reflexivity.
  - reflexivity.
Qed.

End Driver.

Section Print.
Import String Ascii.
Context {T : Type} (show : T -> string).

End Print.

(** ** Single precision, by evaluation *)

Lemma binary32_float_check_1024 : float_check (FO := binary32) 8 1024 = true.
Proof. vm_cast_no_check (eq_refl true). Qed.

(** The comparisons and the redistribution of [packed_memory_array] in
    single precision, for [chunk_size = 8] and capacities up to 1024. *)
Lemma binary32_laws_1024 : float_laws (FO := binary32) 8 1024.
Proof. apply float_check_sound; [lia|exact binary32_float_check_1024]. Qed.

Lemma binary32_float_check_OrderedVector_4096 :
  float_check_OrderedVector (FO := binary32) 8 4096 = true.
Proof. vm_cast_no_check (eq_refl true). Qed.

(** The comparisons of [OrderedVector::scan] in single precision, for
    [block_size = 8] and capacities up to 4096. *)
Lemma binary32_laws_OrderedVector_4096 :
  float_laws_OrderedVector (FO := binary32) 8 4096.
Proof.
  apply float_check_OrderedVector_sound;
    [lia|exact binary32_float_check_OrderedVector_4096].
Qed.

(** * Further properties of the code *)

Ltac reach_tac :=
  try (vm_compute; reflexivity);
  try (vm_compute; discriminate);
  try (apply absent_values; vm_compute; reflexivity).

Ltac sample_tac :=
  first [ exact Zltb_strict_order
        | exact binary32_laws_64
        | exact binary32_laws_OrderedVector_64
        | lia
        | solve [exists 1; split; [lia|reflexivity]]
        | solve [unfold size; simpl; lia]
        | solve [unfold increasing; simpl; repeat constructor]
        | solve [apply absent_values; vm_compute; reflexivity]
        | solve [vm_compute; reflexivity] ].

(** ** src/packed_memory_array.h *)

(** X1: [remove] of a value that no occupied slot holds returns the array
    as it is, capacity and slots, in src/packed_memory_array.h (the same
    text in src/unnamed/part_000): whatever the order of the slots and
    whatever [chunk_size]. *)
Theorem remove_absent_unchanged {T : Type} (less : T -> T -> bool)
    (chunk_size : Z) {FO : FloatOps} (items : list (option T)) (t : T) :
  0 < size items -> ~ stored less items t ->
  packed_memory_array.remove less chunk_size items t = Some items.
Proof. intros Hsize Habsent. apply remove_not_stored; assumption. Qed.

Lemma remove_absent_unchanged_witness :
  packed_memory_array.remove (FO := binary32) Z.ltb 8
    ([Some 10; None; Some 20; Some 30] ++ replicate 12 None) 25
  = Some ([Some 10; None; Some 20; Some 30] ++ replicate 12 None).
Proof.
  apply (remove_absent_unchanged Z.ltb 8 (FO := binary32)
           ([Some 10; None; Some 20; Some 30] ++ replicate 12 None) 25);
    sample_tac.
Defined.







(** X5: on every store that [push] and [remove] build from the empty
    store, while its capacity can still double within the bound of the
    run, [push] of a value that is not stored and [remove] of any value
    return a store: no access outside the vector, no division by zero, no
    endless loop. *)
Theorem reachable_operations_return {T : Type} (less : T -> T -> bool)
    (chunk_size : Z) {FO : FloatOps} (B : Z) (items : list (option T)) (t : T) :
  strict_order less -> 0 < chunk_size -> float_laws chunk_size B ->
  reachable less chunk_size B items -> 2 * size items <= B ->
  (~ stored less items t ->
   exists items', packed_memory_array.push less chunk_size items t = Some items') /\
  (exists items', packed_memory_array.remove less chunk_size items t = Some items').
Proof.
  intros Hord Hchunk Hlaws Hreach HB.
  apply (reachable_progress less Hord chunk_size B Hchunk Hlaws items t Hreach HB).
Qed.

Lemma reachable_operations_return_witness :
  (~ stored Z.ltb (packed_memory_array.empty_store 8) 5 ->
   exists items',
     packed_memory_array.push (FO := binary32) Z.ltb 8
       (packed_memory_array.empty_store 8) 5 = Some items') /\
  (exists items',
     packed_memory_array.remove (FO := binary32) Z.ltb 8
       (packed_memory_array.empty_store 8) 5 = Some items').
Proof.
  apply (reachable_operations_return Z.ltb 8 (FO := binary32) 64
           (packed_memory_array.empty_store 8) 5
           Zltb_strict_order ltac:(lia) binary32_laws_64).
  - apply reachable_empty.
  - vm_compute. discriminate.
Defined.



(** X7: in the single precision of the machine, with [chunk_size = 8],
    every store built from the empty store by [push] and [remove] applied
    at capacities of at most 512 is increasing and has the shape of the
    tree, and while its capacity is at most 512 [push] of a value that is
    not stored and [remove] return. *)
Theorem binary32_reachable_1024 {T : Type} (less : T -> T -> bool)
    (items : list (option T)) :
  strict_order less ->
  reachable (FO := binary32) less 8 1024 items ->
  increasing less items /\ shape 8 items /\
  (2 * size items <= 1024 ->
   forall t,
     (~ stored less items t ->
      exists items', packed_memory_array.push (FO := binary32) less 8 items t
                     = Some items') /\
     (exists items', packed_memory_array.remove (FO := binary32) less 8 items t
                     = Some items')).
Proof.
  intros Hord Hreach.
  destruct (reachable_invariant less Hord 8 1024 ltac:(lia) binary32_laws_1024
              items Hreach) as [Hsh Hinc].
  split; [exact Hinc|]. split; [exact Hsh|].
  intros HB t.
  apply (reachable_progress less Hord 8 1024 ltac:(lia) binary32_laws_1024
           items t Hreach HB).
Qed.

Lemma binary32_reachable_1024_witness :
  exists items,
    run (packed_memory_array.push (FO := binary32) Z.ltb 8)
        (packed_memory_array.remove (FO := binary32) Z.ltb 8)
        [INC 3; INC 1; REM 3] (packed_memory_array.empty_store 8) = Some items /\
    increasing Z.ltb items /\ shape 8 items /\
    (2 * size items <= 1024 ->
     forall t,
       (~ stored Z.ltb items t ->
        exists items', packed_memory_array.push (FO := binary32) Z.ltb 8 items t
                       = Some items') /\
       (exists items', packed_memory_array.remove (FO := binary32) Z.ltb 8 items t
                       = Some items')).
Proof.
  eexists. split; [vm_compute; reflexivity|].
  apply (binary32_reachable_1024 Z.ltb _ Zltb_strict_order).
  eapply reachable_remove with (t := 3);
    [eapply reachable_push with (t := 1);
     [eapply reachable_push with (t := 3);
      [apply reachable_empty| | |]| | |]| |];
    reach_tac.
Defined.

(** X8: [get_items] on a window inside the vector returns the values of
    the window, left to right, and empties the window; the capacity and
    the slots outside the window are unchanged. *)
Theorem get_items_gathers {T : Type} (items : list (option T)) (begin end_ : Z) :
  0 <= begin <= end_ -> end_ <= size items ->
  exists emptied,
    packed_memory_array.get_items items begin end_
      = Some (values (window items begin end_), emptied) /\
    size emptied = size items /\
    (forall i, at_ emptied i =
               if (begin <=? i) && (i <? end_) then Some None else at_ items i).
Proof.
  intros Hb He.
  destruct (window_split items begin end_ Hb He) as (A & C & Heq & HA & HW).
  remember (window items begin end_) as W eqn:HeqW.
  assert (Hwin : window (A ++ W ++ C) begin end_ = W)
    by (apply window_app; lia).
  clear HeqW. subst items.
  exists (A ++ replicate (length W) None ++ C).
  split; [apply get_items_app; lia|]. split.
  { repeat (rewrite size_app || rewrite size_replicate). unfold size. lia. }
  intros i. unfold at_. destruct (Z.leb_spec 0 i) as [Hi0|Hi0].
  - destruct (Z.leb_spec begin i) as [Hbi|Hbi]; simpl.
    + destruct (Z.ltb_spec i end_) as [Hie|Hie].
      * rewrite lookup_app_r by (unfold size in *; lia).
        rewrite lookup_app_l by (rewrite length_replicate; unfold size in *; lia).
        apply lookup_replicate_2. unfold size in *. lia.
      * rewrite !lookup_app_r by (unfold size in *; lia).
        rewrite !lookup_app_r
          by (rewrite ?length_replicate; unfold size in *; lia).
        rewrite length_replicate. reflexivity.
    + rewrite !lookup_app_l by (unfold size in *; lia). reflexivity.
  - destruct ((begin <=? i) && (i <? end_)) eqn:E; [|reflexivity].
    apply andb_true_iff in E as [E _]. apply Z.leb_le in E. lia.
Qed.

Lemma get_items_gathers_witness :
  exists emptied,
    packed_memory_array.get_items
      [Some 10; None; Some 20; Some 30; None; Some 40; None; None] 2 6
      = Some (values (window [Some 10; None; Some 20; Some 30; None; Some 40;
                              None; None] 2 6), emptied) /\
    size emptied
      = size [Some 10; None; Some 20; Some 30; None; Some 40; None; (@None Z)] /\
    (forall i, at_ emptied i =
               if (2 <=? i) && (i <? 6) then Some None
               else at_ [Some 10; None; Some 20; Some 30; None; Some 40;
                         None; None] i).
Proof.
  apply (get_items_gathers
           [Some 10; None; Some 20; Some 30; None; Some 40; None; None] 2 6);
    sample_tac.
Defined.

(** X9: [closest_gap] at an occupied index of an array with an empty slot
    answers with an empty slot at the least distance from the index, and
    tells the side it lies on; of two empty slots at that distance it
    takes the right one. *)
Theorem closest_gap_is_nearest {T : Type} (items : list (option T))
    (index : Z) (v : T) :
  at_ items index = Some (Some v) -> total items < size items ->
  exists g on_right,
    packed_memory_array.closest_gap items index = Some (g, on_right) /\
    at_ items g = Some None /\
    (on_right = true -> index < g) /\ (on_right = false -> g < index) /\
    (forall j, at_ items j = Some None ->
               Z.abs (g - index) <= Z.abs (j - index)) /\
    (forall j, at_ items j = Some None -> index < j ->
               Z.abs (j - index) = Z.abs (g - index) -> on_right = true).
Proof.
  intros Hv Hgap. pose proof (at_bounds _ _ _ Hv) as Hb. unfold packed_memory_array.closest_gap.
  destruct (run_right_spec (length items) items (index + 1))
    as (r & -> & Hrb & Hrocc & Hrgap); [lia|unfold size; lia|].
  destruct (run_left_spec (length items) items (index - 1))
    as (l & -> & Hlb & Hlocc & Hlgap); [lia|unfold size in *; lia|].
  assert (Hfar : forall j, at_ items j = Some None -> j <= l \/ r <= j).
  { intros j Hj. pose proof (at_bounds _ _ _ Hj) as Hjb.
    destruct (Z.le_gt_cases j l) as [|Hjl]; [auto|].
    destruct (Z.le_gt_cases r j) as [|Hjr]; [auto|]. exfalso.
    destruct (Z.lt_trichotomy j index) as [Hlt|[->|Hgt]].
    - destruct (Hlocc j) as [w Hw]; [lia|congruence].
    - congruence.
    - destruct (Hrocc j) as [w Hw]; [lia|congruence]. }
  assert (Hin : forall j, at_ items j = Some None -> 0 <= j < size items)
    by (intros j Hj; apply (at_bounds _ _ _ Hj)).
  destruct (gap_exists items Hgap) as [j0 Hj0].
  pose proof (Hfar j0 Hj0) as Hfar0. pose proof (Hin j0 Hj0) as Hin0.
  destruct (Z.ltb_spec l 0) as [Hl|Hl].
  - exists r, true. split; [reflexivity|].
    split; [apply Hrgap; lia|]. split; [intros; lia|]. split; [discriminate|].
    split; [|reflexivity].
    intros j Hj. pose proof (Hfar j Hj). pose proof (Hin j Hj). lia.
  - destruct (lt_size r items) eqn:E; simpl.
    + apply lt_size_true in E.
      destruct (Z.leb_spec (r - index) (index - l)).
      * exists r, true. split; [reflexivity|].
        split; [apply Hrgap; lia|]. split; [intros; lia|]. split; [discriminate|].
        split; [|reflexivity].
        intros j Hj. pose proof (Hfar j Hj). pose proof (Hin j Hj). lia.
      * exists l, false. split; [reflexivity|].
        split; [apply Hlgap; lia|]. split; [discriminate|]. split; [intros; lia|].
        split.
        -- intros j Hj. pose proof (Hfar j Hj). pose proof (Hin j Hj). lia.
        -- intros j Hj Hij Hd. pose proof (Hfar j Hj). lia.
    + apply lt_size_false in E.
      exists l, false. split; [reflexivity|].
      split; [apply Hlgap; lia|]. split; [discriminate|]. split; [intros; lia|].
      split.
      * intros j Hj. pose proof (Hfar j Hj). pose proof (Hin j Hj). lia.
      * intros j Hj Hij Hd. pose proof (Hfar j Hj). pose proof (Hin j Hj). lia.
Qed.

Lemma closest_gap_is_nearest_witness :
  exists g on_right,
    packed_memory_array.closest_gap
      [Some 10; None; Some 20; Some 30; Some 35; None; Some 40; None] 3
      = Some (g, on_right) /\
    at_ [Some 10; None; Some 20; Some 30; Some 35; None; Some 40; None] g
      = Some None /\
    (on_right = true -> 3 < g) /\ (on_right = false -> g < 3) /\
    (forall j, at_ [Some 10; None; Some 20; Some 30; Some 35; None; Some 40; None] j
               = Some None -> Z.abs (g - 3) <= Z.abs (j - 3)) /\
    (forall j, at_ [Some 10; None; Some 20; Some 30; Some 35; None; Some 40; None] j
               = Some None -> 3 < j -> Z.abs (j - 3) = Z.abs (g - 3) ->
               on_right = true).
Proof.
  apply (closest_gap_is_nearest
           [Some 10; None; Some 20; Some 30; Some 35; None; Some 40; None] 3 30).
  - reflexivity.
  - vm_compute. reflexivity.
Defined.

(** ** src/unnamed/part_001 and src/unnamed/part_000 *)

(** X10: [get_closest_gap] at an occupied index of an array with an empty
    slot returns: it answers with an empty slot at the least distance from
    the index, and with one on the left only when the slot at the same
    distance on the right is not empty. *)
Theorem get_closest_gap_is_nearest {T : Type} (items : list (option T))
    (index : Z) (v : T) :
  at_ items index = Some (Some v) -> total items < size items ->
  exists g,
    part_001.get_closest_gap items index = Some g /\
    at_ items g = Some None /\
    (forall k, at_ items k = Some None ->
               Z.abs (g - index) <= Z.abs (k - index)) /\
    (g < index -> at_ items (index + (index - g)) <> Some None).
Proof.
  intros Hv Hgap. pose proof (at_bounds _ _ _ Hv) as Hb.
  destruct (gap_exists items Hgap) as [j Hj].
  pose proof (at_bounds _ _ _ Hj) as Hjb.
  unfold part_001.get_closest_gap.
  apply (get_closest_gap_loop_nearest (length items) items index 1 j); auto; try lia.
  - intros k Hk. assert (k <> index) by congruence. lia.
  - assert (j <> index) by congruence. unfold size in *. lia.
Qed.

Lemma get_closest_gap_is_nearest_witness :
  exists g,
    part_001.get_closest_gap
      [Some 10; None; Some 20; Some 30; Some 35; None; Some 40; None] 3 = Some g /\
    at_ [Some 10; None; Some 20; Some 30; Some 35; None; Some 40; None] g
      = Some None /\
    (forall k, at_ [Some 10; None; Some 20; Some 30; Some 35; None; Some 40; None] k
               = Some None -> Z.abs (g - 3) <= Z.abs (k - 3)) /\
    (g < 3 ->
     at_ [Some 10; None; Some 20; Some 30; Some 35; None; Some 40; None]
         (3 + (3 - g)) <> Some None).
Proof.
  apply (get_closest_gap_is_nearest
           [Some 10; None; Some 20; Some 30; Some 35; None; Some 40; None] 3 30).
  - reflexivity.
  - vm_compute. reflexivity.
Defined.





(** ** src/OrderedVector.h *)

Ltac sample_tac' :=
  first [ sample_tac
        | solve [vm_compute; intros; discriminate]
        | solve [vm_compute; split; intros; discriminate] ].

Section ShiftedFacts.
Context {T : Type}.
Implicit Types (items A B C : list (option T)).

Lemma shifted_right_moves items index :
  0 <= index < size items ->
  exists moved items',
    OrderedVector.shifted_right items index = Some (moved, items') /\
    size items' = size items /\ values items' = values items /\
    (moved = true <-> exists j, index <= j /\ at_ items j = Some None) /\
    (moved = true -> at_ items' index = Some None) /\
    (moved = false -> items' = items).
Proof.
  intros Hi.
  destruct (shifted_right_spec items index Hi)
    as [(A & B & C & Heq & HA & Hocc & Hs) | (Hocc & Hs)].
  - exists true, (A ++ None :: B ++ C). split; [exact Hs|].
    split; [rewrite Heq; repeat (rewrite size_app || rewrite size_cons); lia|].
    split; [rewrite Heq; values_norm|].
    split; [|split; [|discriminate]].
    + split; [|reflexivity]. intros _. exists (index + size B). split.
      * pose proof (size_nonneg B). lia.
      * rewrite Heq, app_assoc. apply at_middle. rewrite size_app. lia.
    + intros _. apply at_middle. lia.
  - exists false, items. split; [exact Hs|]. split; [reflexivity|].
    split; [reflexivity|]. split; [|split; [discriminate|reflexivity]].
    split; [discriminate|].
    intros (j & Hj & Hgap). pose proof (at_bounds _ _ _ Hgap) as Hb.
    destruct (Hocc j ltac:(lia)) as [w Hw]. congruence.
Qed.

Lemma shifted_left_moves items index :
  0 <= index < size items ->
  exists moved items',
    OrderedVector.shifted_left items index = Some (moved, items') /\
    size items' = size items /\ values items' = values items /\
    (moved = true <-> exists j, 0 <= j <= index /\ at_ items j = Some None) /\
    (moved = true -> at_ items' index = Some None) /\
    (moved = false -> items' = items).
Proof.
  intros Hi.
  destruct (shifted_left_spec items index Hi)
    as [(A & B & C & Heq & HA & Hocc & Hs) | (Hocc & Hs)].
  - exists true, (A ++ B ++ None :: C). split; [exact Hs|].
    split; [rewrite Heq; repeat (rewrite size_app || rewrite size_cons); lia|].
    split; [rewrite Heq; values_norm|].
    split; [|split; [|discriminate]].
    + split; [|reflexivity]. intros _. exists (size A). split.
      * pose proof (size_nonneg A). pose proof (size_nonneg B). lia.
      * rewrite Heq. apply at_middle. reflexivity.
    + intros _. rewrite app_assoc. apply at_middle. rewrite size_app. lia.
  - exists false, items. split; [exact Hs|]. split; [reflexivity|].
    split; [reflexivity|]. split; [|split; [discriminate|reflexivity]].
    split; [discriminate|].
    intros (j & Hj & Hgap).
    destruct (Hocc j ltac:(lia)) as [w Hw]. congruence.
Qed.
End ShiftedFacts.

(** X13: every store that [push] and [remove] of [OrderedVector] build from
    the empty store is strictly increasing, read left to right, and holds
    no two equivalent items. The values pushed are not stored when they are
    pushed; the comparisons of [scan] are those of exact arithmetic up to
    the capacity [B] that bounds the run. *)
Theorem OrderedVector_reachable_increasing {T : Type} (less : T -> T -> bool)
    (block_size : Z) {FO : FloatOps} (B : Z) (items : list (option T)) :
  strict_order less -> 0 < block_size -> float_laws_OrderedVector block_size B ->
  reachable_OrderedVector less block_size B items ->
  increasing less items /\ unique less items.
Proof.
  intros Hord Hblock Hlaws Hreach.
  destruct (reachable_OrderedVector_invariant less Hord block_size B Hblock Hlaws
              items Hreach) as (_ & Hinc & _).
  split; [exact Hinc|]. apply (increasing_unique less Hord). exact Hinc.
Qed.

Lemma OrderedVector_reachable_increasing_witness :
  exists items,
    run (OrderedVector.push (FO := binary32) Z.ltb 8)
        (OrderedVector.remove (FO := binary32) Z.ltb 8)
        [INC 3; INC 1; REM 3; INC 2] (OrderedVector.empty_store 8) = Some items /\
    increasing Z.ltb items /\ unique Z.ltb items.
Proof.
  eexists. split; [vm_compute; reflexivity|].
  apply (OrderedVector_reachable_increasing Z.ltb 8 (FO := binary32) 64 _
           Zltb_strict_order ltac:(lia) binary32_laws_OrderedVector_64).
  eapply reachable_OrderedVector_push with (t := 2);
    [eapply reachable_OrderedVector_remove with (t := 3);
     [eapply reachable_OrderedVector_push with (t := 1);
      [eapply reachable_OrderedVector_push with (t := 3);
       [apply reachable_OrderedVector_empty| | |]| | |]| |]| | |];
    reach_tac.
Defined.











(** X19: [rearrange_items] on a window inside the vector that holds [n >= 1]
    items gathers them, empties the window and writes them back in their
    order at the offsets [stride_offsets (end - begin) n] from [begin]:
    strides of [ceil (k / n)] slots, of which the first
    [n - floor (k / ceil (k / n))] take two items in adjacent slots. The
    offsets are strictly increasing and inside the window; no slot outside
    it changes and the capacity stays. *)
Theorem OrderedVector_rearrange_items_strides {T : Type}
    (items : list (option T)) (begin end_ : Z) :
  0 <= begin <= end_ -> end_ <= size items ->
  1 <= total (window items begin end_) ->
  exists emptied items',
    OrderedVector.gather items begin end_
      = Some (values (window items begin end_), emptied) /\
    (forall i, at_ emptied i =
               if (begin <=? i) && (i <? end_) then Some None else at_ items i) /\
    OrderedVector.rearrange_items items begin end_ = Some items' /\
    placed emptied begin end_ (values (window items begin end_))
      (stride_offsets (end_ - begin) (total (window items begin end_))) items'.
Proof.
  intros Hb He Hn.
  destruct (window_split items begin end_ Hb He) as (A & C & Heq & HA & HW).
  remember (window items begin end_) as W eqn:HeqW.
  assert (Hwin : window (A ++ W ++ C) begin end_ = W)
    by (apply window_app; lia).
  clear HeqW. subst items.
  destruct (OrderedVector_rearrange_items_app A W C begin end_)
    as (W' & Hr & Hs & Hv & Hpl & Hasc & Hlen); [lia|lia|exact Hn|].
  exists (A ++ replicate (length W) None ++ C), (A ++ W' ++ C).
  split; [unfold OrderedVector.gather; apply get_items_app; lia|].
  split.
  { intros i. unfold at_. destruct (Z.leb_spec 0 i) as [Hi0|Hi0].
    - destruct (Z.leb_spec begin i) as [Hbi|Hbi]; simpl.
      + destruct (Z.ltb_spec i end_) as [Hie|Hie].
        * rewrite lookup_app_r by (unfold size in *; lia).
          rewrite lookup_app_l by (rewrite length_replicate; unfold size in *; lia).
          apply lookup_replicate_2. unfold size in *. lia.
        * rewrite !lookup_app_r by (unfold size in *; lia).
          rewrite !lookup_app_r
            by (rewrite ?length_replicate; unfold size in *; lia).
          rewrite length_replicate. reflexivity.
      + rewrite !lookup_app_l by (unfold size in *; lia). reflexivity.
    - destruct ((begin <=? i) && (i <? end_)) eqn:E; [|reflexivity].
      apply andb_true_iff in E as [E _]. apply Z.leb_le in E. lia. }
  split; [exact Hr|].
  replace (end_ - begin) with (size W) by lia.
  destruct (place_at_spec (values W) (stride_offsets (size W) (total W))
              (A ++ replicate (length W) None ++ C) begin 0 (size W))
    as (items' & Hpl' & Hsz & Hwritten & Hother); auto; try lia.
  { repeat (rewrite size_app || rewrite size_replicate). unfold size in *. lia. }
  rewrite Hpl in Hpl'. injection Hpl' as <-.
  split; [exact Hsz|]. split; [exact Hlen|]. split; [exact Hwritten|].
  split; [exact Hother|]. split.
  - intros p Hp. pose proof (ascending_bounds _ _ _ Hasc p Hp). lia.
  - apply (ascending_lookup _ _ _ Hasc).
Qed.

Lemma OrderedVector_rearrange_items_strides_witness :
  exists emptied items',
    OrderedVector.gather
      ([None; Some 2; Some 3; Some 4; Some 5; Some 6; Some 7; Some 8]
       ++ replicate 8 None) 0 16
      = Some (values (window ([None; Some 2; Some 3; Some 4; Some 5; Some 6;
                               Some 7; Some 8] ++ replicate 8 None) 0 16),
              emptied) /\
    (forall i, at_ emptied i =
               if (0 <=? i) && (i <? 16) then Some None
               else at_ ([None; Some 2; Some 3; Some 4; Some 5; Some 6; Some 7;
                          Some 8] ++ replicate 8 None) i) /\
    OrderedVector.rearrange_items
      ([None; Some 2; Some 3; Some 4; Some 5; Some 6; Some 7; Some 8]
       ++ replicate 8 None) 0 16 = Some items' /\
    placed emptied 0 16
      (values (window ([None; Some 2; Some 3; Some 4; Some 5; Some 6; Some 7;
                        Some 8] ++ replicate 8 None) 0 16))
      (stride_offsets (16 - 0)
         (total (window ([None; Some 2; Some 3; Some 4; Some 5; Some 6; Some 7;
                          Some 8] ++ replicate 8 (@None Z)) 0 16))) items'.
Proof.
  apply (OrderedVector_rearrange_items_strides
           ([None; Some 2; Some 3; Some 4; Some 5; Some 6; Some 7; Some 8]
            ++ replicate 8 None) 0 16);
    sample_tac'.
Defined.





(** X22: in the single precision of the machine, with [block_size = 8] (the
    class the driver instantiates), every store built from the empty store
    by [push] and [remove] applied at capacities of at most 2048 is
    increasing, has the shape of the tree and an empty slot, and while its
    capacity is at most 2048 [push] of a value that is not stored and
    [remove] return. *)
Theorem OrderedVector_binary32_4096 {T : Type} (less : T -> T -> bool)
    (items : list (option T)) :
  strict_order less ->
  reachable_OrderedVector (FO := binary32) less 8 4096 items ->
  increasing less items /\ shape 8 items /\ total items < size items /\
  (2 * size items <= 4096 ->
   forall t,
     (~ stored less items t ->
      exists items', OrderedVector.push (FO := binary32) less 8 items t
                     = Some items') /\
     (exists items', OrderedVector.remove (FO := binary32) less 8 items t
                     = Some items')).
Proof.
  intros Hord Hreach.
  destruct (reachable_OrderedVector_invariant less Hord 8 4096 ltac:(lia)
              binary32_laws_OrderedVector_4096 items Hreach)
    as (Hsh & Hinc & Hfree).
  split; [exact Hinc|]. split; [exact Hsh|]. split; [exact Hfree|].
  intros HB t.
  apply (reachable_OrderedVector_progress less Hord 8 4096 ltac:(lia)
           binary32_laws_OrderedVector_4096 items t Hreach HB).
Qed.

Lemma OrderedVector_binary32_4096_witness :
  exists items,
    run (OrderedVector.push (FO := binary32) Z.ltb 8)
        (OrderedVector.remove (FO := binary32) Z.ltb 8)
        [INC 3; INC 1; REM 3] (OrderedVector.empty_store 8) = Some items /\
    increasing Z.ltb items /\ shape 8 items /\ total items < size items /\
    (2 * size items <= 4096 ->
     forall t,
       (~ stored Z.ltb items t ->
        exists items', OrderedVector.push (FO := binary32) Z.ltb 8 items t
                       = Some items') /\
       (exists items', OrderedVector.remove (FO := binary32) Z.ltb 8 items t
                       = Some items')).
Proof.
  eexists. split; [vm_compute; reflexivity|].
  apply (OrderedVector_binary32_4096 Z.ltb _ Zltb_strict_order).
  eapply reachable_OrderedVector_remove with (t := 3);
    [eapply reachable_OrderedVector_push with (t := 1);
     [eapply reachable_OrderedVector_push with (t := 3);
      [apply reachable_OrderedVector_empty| | |]| | |]| |];
    reach_tac.
Defined.

(** X23: when the slot that [push] of [OrderedVector] starts from is
    occupied and the array has an empty slot, the shifts that free a slot
    and the assignment [items[i] = t] stay inside the vector, whatever the
    order of the values: they return an array of the same capacity. *)
Theorem OrderedVector_free_slot_in_bounds {T : Type} (less : T -> T -> bool)
    (items : list (option T)) (t : T) (i : Z) (v : T) :
  at_ items i = Some (Some v) -> total items < size items ->
  exists items1 i1 items2,
    OrderedVector.free_slot less items t i = Some (items1, i1) /\
    0 <= i1 < size items1 /\
    assign items1 i1 (Some t) = Some items2 /\
    size items2 = size items.
Proof.
  intros Hv Hfree.
  destruct (OrderedVector_free_slot_safe less items t i v Hv Hfree)
    as (items1 & i1 & Hf & Hs & Hi).
  destruct (assign_safe items1 i1 (Some t) ltac:(lia)) as (items2 & Ha & Hs2).
  exists items1, i1, items2. split; [exact Hf|]. split; [lia|].
  split; [exact Ha|lia].
Qed.

Lemma OrderedVector_free_slot_in_bounds_witness :
  exists items1 i1 items2,
    OrderedVector.free_slot Z.ltb
      [Some 50; Some 20; Some 30; None; Some 10; Some 40; Some 60; Some 70] 35 7
      = Some (items1, i1) /\
    0 <= i1 < size items1 /\
    assign items1 i1 (Some 35) = Some items2 /\
    size items2
      = size [Some 50; Some 20; Some 30; None; Some 10; Some 40; Some 60; Some 70].
Proof.
  apply (OrderedVector_free_slot_in_bounds Z.ltb
           [Some 50; Some 20; Some 30; None; Some 10; Some 40; Some 60; Some 70]
           35 7 70).
  - reflexivity.
  - vm_compute. reflexivity.
Defined.



(** X25: [shifted_right] and [shifted_left] (the same text in
    src/unnamed/part_000) at an index of the vector return without an
    access outside it. They answer [true] exactly when some slot from the
    index on, to the right or to the left, is empty; the slot at the index
    is then empty, and the occupied values and their order are as before.
    Otherwise the array is unchanged. *)
Theorem shifted_moves_nearest_gap {T : Type} (items : list (option T)) (index : Z) :
  0 <= index < size items ->
  (exists moved items',
     OrderedVector.shifted_right items index = Some (moved, items') /\
     size items' = size items /\ values items' = values items /\
     (moved = true <-> exists j, index <= j /\ at_ items j = Some None) /\
     (moved = true -> at_ items' index = Some None) /\
     (moved = false -> items' = items)) /\
  (exists moved items',
     OrderedVector.shifted_left items index = Some (moved, items') /\
     size items' = size items /\ values items' = values items /\
     (moved = true <-> exists j, 0 <= j <= index /\ at_ items j = Some None) /\
     (moved = true -> at_ items' index = Some None) /\
     (moved = false -> items' = items)).
Proof.
  intros Hi. split; [apply shifted_right_moves|apply shifted_left_moves]; exact Hi.
Qed.

Lemma shifted_moves_nearest_gap_witness :
  (exists moved items',
     OrderedVector.shifted_right [Some 10; Some 20; Some 30; None; Some 40] 1
       = Some (moved, items') /\
     size items' = size [Some 10; Some 20; Some 30; None; Some 40] /\
     values items' = values [Some 10; Some 20; Some 30; None; Some 40] /\
     (moved = true <->
      exists j, 1 <= j /\
                at_ [Some 10; Some 20; Some 30; None; Some 40] j = Some None) /\
     (moved = true -> at_ items' 1 = Some None) /\
     (moved = false -> items' = [Some 10; Some 20; Some 30; None; Some 40])) /\
  (exists moved items',
     OrderedVector.shifted_left [Some 10; Some 20; Some 30; None; Some 40] 1
       = Some (moved, items') /\
     size items' = size [Some 10; Some 20; Some 30; None; Some 40] /\
     values items' = values [Some 10; Some 20; Some 30; None; Some 40] /\
     (moved = true <->
      exists j, 0 <= j <= 1 /\
                at_ [Some 10; Some 20; Some 30; None; Some 40] j = Some None) /\
     (moved = true -> at_ items' 1 = Some None) /\
     (moved = false -> items' = [Some 10; Some 20; Some 30; None; Some 40])).
Proof.
  apply (shifted_moves_nearest_gap [Some 10; Some 20; Some 30; None; Some 40] 1).
  unfold size. simpl. lia.
Defined.

(** ** Looking up what was pushed *)

Section Lookup.
Context {T : Type} (less : T -> T -> bool) (Hord : strict_order less).
Implicit Types (items : list (option T)) (t : T).





End Lookup.



(** ** src/file_handler.cpp *)

Section DriverProperties.
Import String Ascii.

(** X27: every token that [split_on_space] returns is not empty and holds
    no whitespace character. *)
Theorem split_on_space_tokens (line : String.string) :
  Forall (fun token => file_handler.is_token token = true)
         (file_handler.split_on_space line).
Proof. apply split_loop_tokens. reflexivity. Qed.

(** X28: [split_on_space] gives back the tokens of a line made of tokens
    with one space between them. *)
Theorem split_on_space_joined (tokens : list String.string) :
  Forall (fun token => file_handler.is_token token = true) tokens ->
  file_handler.split_on_space (String.concat file_handler.space tokens) = tokens.
Proof.
  intros Hall. destruct tokens as [|t tokens]; [reflexivity|].
  apply split_loop_concat. exact Hall.
Qed.

Lemma split_on_space_joined_witness :
  file_handler.split_on_space
    (String.concat file_handler.space ["INC"%string; "42"%string])
  = ["INC"%string; "42"%string].
Proof.
  apply (split_on_space_joined ["INC"%string; "42"%string]).
  repeat constructor.
Defined.

(** X29: on the lines of a list of requests (command name, one space, the
    argument as [operator<<] writes it, read back by [std::stoi]) the loop
    of [main] performs the operations of the class in order: [INC] pushes,
    [REM] removes, [SUC] writes the successor and a newline, [IMP] writes
    the store and a newline. It returns the store and the text they leave,
    and it aborts exactly when one of the operations is undefined. *)
Theorem main_loop_performs_requests {FO : FloatOps}
    (stoi : String.string -> option Z) (show : Z -> String.string)
    (rs : list file_handler.request) (v : list (option Z)) (line_count : Z)
    (output : String.string) :
  Forall (file_handler.readable stoi show) rs ->
  file_handler.main_loop stoi show (List.map (file_handler.render show) rs)
    v line_count output =
  match file_handler.perform show rs v output with
  | Some (v', output') => file_handler.Returned v' output'
  | None => file_handler.Aborted
  end.
Proof.
  revert v line_count output.
  induction rs as [|r rs IH]; intros v line_count output Hall; [reflexivity|].
  pose proof (Forall_inv Hall) as Hr. apply Forall_inv_tail in Hall.
  cbn [List.map]. rewrite (main_loop_render stoi show r _ v line_count output Hr).
  destruct r as [value|value|value|]; cbn [file_handler.perform].
  - destruct (OrderedVector.push Z.ltb 8 v value); [apply IH; exact Hall|reflexivity].
  - destruct (OrderedVector.remove Z.ltb 8 v value); [apply IH; exact Hall|reflexivity].
  - destruct (OrderedVector.successor Z.ltb v value); [apply IH; exact Hall|reflexivity].
  - apply IH. exact Hall.
Qed.

Lemma main_loop_performs_requests_witness :
  file_handler.main_loop (FO := binary32) file_handler.stoi file_handler.show
    (List.map (file_handler.render file_handler.show)
       [file_handler.Inc 5; file_handler.Inc (-3); file_handler.Suc 4;
        file_handler.Imp; file_handler.Rem 5; file_handler.Imp])
    (OrderedVector.empty_store 8) 0 String.EmptyString =
  match file_handler.perform (FO := binary32) file_handler.show
          [file_handler.Inc 5; file_handler.Inc (-3); file_handler.Suc 4;
           file_handler.Imp; file_handler.Rem 5; file_handler.Imp]
          (OrderedVector.empty_store 8) String.EmptyString with
  | Some (v', output') => file_handler.Returned v' output'
  | None => file_handler.Aborted
  end.
Proof.
  apply (main_loop_performs_requests (FO := binary32)
           file_handler.stoi file_handler.show
           [file_handler.Inc 5; file_handler.Inc (-3); file_handler.Suc 4;
            file_handler.Imp; file_handler.Rem 5; file_handler.Imp]).
  repeat constructor.
Defined.

(** X30: a line [SUC x] given to the loop of [main] on an increasing store,
    with [x] written as a token that [std::stoi] reads back, changes no
    slot and writes one line: the least stored value above [x], or [x]
    itself when no stored value is above it. *)
Theorem main_loop_successor_line {FO : FloatOps}
    (stoi : String.string -> option Z) (show : Z -> String.string)
    (rest : list String.string) (v : list (option Z)) (line_count : Z)
    (output : String.string) (value : Z) :
  file_handler.readable stoi show (file_handler.Suc value) ->
  increasing Z.ltb v -> 0 < size v ->
  exists s,
    file_handler.main_loop stoi show
      (file_handler.render show (file_handler.Suc value) :: rest)
      v line_count output =
    file_handler.main_loop stoi show rest v (line_count + 1)
      (String.append output (String.append (show s) file_handler.endl)) /\
    (((exists p, at_ v p = Some (Some s)) /\ value < s /\
      forall q w, at_ v q = Some (Some w) -> value < w -> s <= w) \/
     (s = value /\ forall q w, at_ v q = Some (Some w) -> w <= value)).
Proof.
  intros Hread Hinc Hsize.
  rewrite (main_loop_render stoi show (file_handler.Suc value) rest v line_count
             output Hread).
  rewrite OrderedVector_successor_same.
  destruct (successor_spec Z.ltb Zltb_strict_order v value Hsize Hinc)
    as (r & -> & [(p & Hp & Hvr & Hmin) | [-> Hnone]]).
  - exists r. split; [reflexivity|]. left. split; [eauto|].
    split; [apply Z.ltb_lt; exact Hvr|].
    intros q w Hq Hw. apply Z.ltb_ge. apply (Hmin q w Hq). apply Z.ltb_lt. exact Hw.
  - exists value. split; [reflexivity|]. right. split; [reflexivity|].
    intros q w Hq. apply Z.ltb_ge. apply (Hnone q w Hq).
Qed.

Lemma main_loop_successor_line_witness :
  exists s,
    file_handler.main_loop (FO := binary32) file_handler.stoi file_handler.show
      (file_handler.render file_handler.show (file_handler.Suc 12)
         :: ["IMP"%string])
      [Some 10; None; Some 20; Some 30] 0 String.EmptyString =
    file_handler.main_loop (FO := binary32) file_handler.stoi file_handler.show
      ["IMP"%string] [Some 10; None; Some 20; Some 30] (0 + 1)
      (String.append String.EmptyString
         (String.append (file_handler.show s) file_handler.endl)) /\
    (((exists p, at_ [Some 10; None; Some 20; Some 30] p = Some (Some s)) /\
      12 < s /\
      forall q w, at_ [Some 10; None; Some 20; Some 30] q = Some (Some w) ->
                  12 < w -> s <= w) \/
     (s = 12 /\
      forall q w, at_ [Some 10; None; Some 20; Some 30] q = Some (Some w) ->
                  w <= 12)).
Proof.
  apply (main_loop_successor_line (FO := binary32)
           file_handler.stoi file_handler.show ["IMP"%string]
           [Some 10; None; Some 20; Some 30] 0 String.EmptyString 12).
  - split; vm_compute; reflexivity.
  - unfold increasing. simpl. repeat constructor.
  - unfold size. simpl. lia.
Defined.
End DriverProperties.
